(** * PrimeBagCluster: a shallow embedding of the sieve, the prime table,
      the prime bag and its iterator, with the properties of the
      specification stated and proved over it.

    Source files embedded here:
      - SieveOfEratosthenes.h / SieveOfEratosthenes.cpp
      - PrimeTable.h
      - PrimeBag.h

    Conventions.
      - [uint] is a 32-bit and [ulong] (also [size_t]) a 64-bit unsigned
        integer; both are carried as [Z] and every arithmetic operation of
        the source has its wrap-around written out ([wrap32], [wrap64]).
      - [bignum] (boost's [cpp_int]) is [Z]; its [/] and [%] truncate
        towards zero, hence [Z.quot] and [Z.rem].
      - Loops whose termination is not evident from the source take a
        [fuel] argument; running out of it is the outcome [OutOfFuel].
      - Undefined behaviour and thrown exceptions are the outcome
        [Fault]. *)

From Stdlib Require Import ZArith Znumtheory Lia.
From stdpp Require Import gmap strings list list_numbers sorting fin_maps.

Local Open Scope Z_scope.

(** ** Outcomes of a call *)

Inductive fault : Type :=
  | OutOfRange       (* vector index past the end, or std::out_of_range *)
  | DivisionByZero   (* bignum % 0 or bignum / 0 *)
  | NoSharedState    (* std::future::get on a future that is not valid *)
  | EmptyContainer   (* back() of an empty vector *)
  | DanglingPointer. (* a pointer to no object of the store *)

Inductive outcome (A : Type) : Type :=
  | Done (a : A)
  | OutOfFuel
  | Fault (f : fault).

Arguments Done {A} a.
Arguments OutOfFuel {A}.
Arguments Fault {A} f.

#[global] Instance outcome_ret : MRet outcome := λ A a, Done a.
#[global] Instance outcome_bind : MBind outcome := λ A B k m,
  match m with
  | Done a => k a
  | OutOfFuel => OutOfFuel
  | Fault f => Fault f
  end.
#[global] Instance outcome_fmap : FMap outcome := λ A B g m,
  match m with
  | Done a => Done (g a)
  | OutOfFuel => OutOfFuel
  | Fault f => Fault f
  end.

(** ** Machine integers *)

Definition wrap32 (z : Z) : Z := z mod 2 ^ 32.
Definition wrap64 (z : Z) : Z := z mod 2 ^ 64.

(** ** SieveOfEratosthenes.h / SieveOfEratosthenes.cpp *)

(** [countMultiplesInBitField]: the loop
    [for (ulong multiple = square; multiple <= max; multiple += prime)]. *)
Fixpoint countMultiples_loop (fuel : nat) (bitField : list bool)
    (prime min max multiple : Z) : outcome (list bool) :=
  match fuel with
  | O => OutOfFuel
  | S fuel' =>
      if multiple <=? max then
        if min <=? multiple then
          let i := Z.to_nat (multiple - min) in
          if decide (i < length bitField)%nat then
            countMultiples_loop fuel' (<[i := false]> bitField)
              prime min max (wrap64 (multiple + prime))
          else Fault OutOfRange
        else
          countMultiples_loop fuel' bitField prime min max
            (wrap64 (multiple + prime))
      else Done bitField
  end.

Definition countMultiplesInBitField (fuel : nat) (bitField : list bool)
    (prime min max : Z) : outcome (list bool) :=
  let square := wrap64 (prime * prime) in
  countMultiples_loop fuel bitField prime min max square.

Record SieveOfEratosthenes : Type := mkSieve {
  highestTestedNum : Z;
  sieveLimit : Z;
  primes : list Z
}.

(** The constructor; [None] is the null pointer default. *)
Definition Sieve_new (primeNumbers : option (list Z)) : outcome SieveOfEratosthenes :=
  match primeNumbers with
  | None => Done (mkSieve 1 1 [])
  | Some ps =>
      match last ps with
      | Some b => Done (mkSieve b b ps)
      | None => Fault EmptyContainer
      end
  end.

Definition Sieve_init : SieveOfEratosthenes := mkSieve 1 1 [].

Definition getCalculatedPrimes (s : SieveOfEratosthenes) : list Z := primes s.

Definition getNumCalculatedPrimes (s : SieveOfEratosthenes) : Z :=
  Z.of_nat (length (primes s)).

(** [while (sieveLimit <= min) sieveLimit *= 2;] *)
Fixpoint growLimit (fuel : nat) (limit min : Z) : outcome Z :=
  match fuel with
  | O => OutOfFuel
  | S fuel' =>
      if limit <=? min then growLimit fuel' (wrap32 (limit * 2)) min
      else Done limit
  end.

(** [for (uint prime : primes) countMultiplesInBitField(...)] *)
Fixpoint strikeKnown (fuel : nat) (ps : list Z) (bitField : list bool)
    (min max : Z) : outcome (list bool) :=
  match ps with
  | [] => Done bitField
  | prime :: ps' =>
      bf ← countMultiplesInBitField fuel bitField prime min max;
      strikeKnown fuel ps' bf min max
  end.

(** [for (uint index = 0; index < bitField.size(); index++)]: [n] counts
    the iterations that remain, [bitField.size()] being constant. *)
Fixpoint scanBitField (fuel : nat) (n : nat) (index : nat)
    (bitField : list bool) (min max : Z) (ps : list Z) : outcome (list Z) :=
  match n with
  | O => Done ps
  | S n' =>
      match bitField !! index with
      | None => Fault OutOfRange
      | Some false => scanBitField fuel n' (S index) bitField min max ps
      | Some true =>
          let prime := wrap32 (Z.of_nat index + min) in
          bf ← countMultiplesInBitField fuel bitField prime min max;
          scanBitField fuel n' (S index) bf min max (ps ++ [prime])
      end
  end.

(** One iteration of the outer loop of [sieve]: one segment.
    [uint(sqrt(sieveLimit))] is the integer square root: the double
    square root of an integer below 2^32 is correctly rounded and its
    truncation is the floor of the real square root. *)
Definition sieveSegment (fuel : nat) (s : SieveOfEratosthenes)
    : outcome SieveOfEratosthenes :=
  let min := wrap32 (highestTestedNum s + 1) in
  limit ← growLimit fuel (sieveLimit s) min;
  let root := Z.sqrt limit in
  let max := Z.min limit (wrap32 (min + root)) in
  let bitField := replicate (Z.to_nat (wrap32 (max - min + 1))) true in
  bf ← strikeKnown fuel (primes s) bitField min max;
  ps ← scanBitField fuel (length bf) 0 bf min max (primes s);
  Done (mkSieve max limit ps).

(** [while (primes.size() < numPrimes) { ... }] *)
Fixpoint sieve (fuel : nat) (numPrimes : Z) (s : SieveOfEratosthenes)
    : outcome SieveOfEratosthenes :=
  match fuel with
  | O => OutOfFuel
  | S fuel' =>
      if Z.of_nat (length (primes s)) <? numPrimes then
        s' ← sieveSegment fuel' s;
        sieve fuel' numPrimes s'
      else Done s
  end.

(** [getPrimeNumber(size_t index)] *)
Definition getPrimeNumber (fuel : nat) (index : Z) (s : SieveOfEratosthenes)
    : outcome (Z * SieveOfEratosthenes) :=
  s' ← sieve fuel (wrap64 (index + 1)) s;
  match primes s' !! Z.to_nat index with
  | Some p => Done (p, s')
  | None => Fault OutOfRange
  end.

(** ** The standard ascending sequence of primes *)

(** Primality by trial division. *)
Definition is_prime (n : Z) : bool :=
  (2 <=? n) && forallb (λ d, negb (n mod d =? 0)) (seqZ 2 (n - 2)).

(** The primes of the interval [lo, hi], ascending. *)
Definition primes_between (lo hi : Z) : list Z :=
  filter (λ n, is_prime n = true) (seqZ lo (hi - lo + 1)).

(** [p] is the prime of 0-based index [i] in 2, 3, 5, 7, 11, ...: it is
    prime and exactly [i] primes are smaller. *)
Definition IsNthPrime (i : nat) (p : Z) : Prop :=
  is_prime p = true ∧ length (primes_between 2 (p - 1)) = i.


(** ** PrimeTable.h *)

(** [std::future<uint> nextPrime], the handle of the task launched by
    [std::async(std::launch::async, &SieveOfEratosthenes::getPrimeNumber,
    &sieveOfEratosthenes, index)].  The task runs on the sieve of the table
    at some moment between its launch and the [get()] that joins it:
    [Pending] before it has run, [Ready] after. *)
Inductive future : Type :=
  | Invalid                 (* no shared state: valid() is false *)
  | Pending (index : Z)     (* launched, not yet run *)
  | Ready (value : Z).      (* run, result stored *)

Definition valid (f : future) : bool :=
  match f with Invalid => false | _ => true end.

(** [std::priority_queue<uint>] with the default comparison is a max-queue;
    it is carried as its contents in descending order. *)
Fixpoint pq_push (x : Z) (q : list Z) : list Z :=
  match q with
  | [] => [x]
  | y :: q' => if y <=? x then x :: q else y :: pq_push x q'
  end.

Definition pq_top (q : list Z) : option Z := head q.
Definition pq_pop (q : list Z) : list Z := tail q.
Definition pq_size (q : list Z) : Z := Z.of_nat (length q).

Section PrimeTable.
Context {V : Type} `{Countable V}.

Record PrimeTable : Type := mkTable {
  nextPrime : future;
  sieveOfEratosthenes : SieveOfEratosthenes;
  primeHoles : list Z;
  primeMap : gmap V Z;
  reversePrimeMap : gmap Z V
}.

(** [PrimeTable(const std::vector<uint>* primeNumbers = nullptr)] *)
Definition PrimeTable_new : PrimeTable :=
  mkTable Invalid Sieve_init [] ∅ ∅.

(** [nextPrime.get()]: joins the task, returns its result and leaves the
    future without shared state. *)
Definition future_get (fuel : nat) (f : future) (s : SieveOfEratosthenes)
    : outcome (Z * SieveOfEratosthenes) :=
  match f with
  | Invalid => Fault NoSharedState
  | Pending index => getPrimeNumber fuel index s
  | Ready value => Done (value, s)
  end.

(** The worker thread runs the launched task to completion. *)
Definition PrimeTable_background (fuel : nat) (t : PrimeTable)
    : outcome PrimeTable :=
  match nextPrime t with
  | Pending index =>
      '(value, s) ← getPrimeNumber fuel index (sieveOfEratosthenes t);
      Done (mkTable (Ready value) s (primeHoles t) (primeMap t)
              (reversePrimeMap t))
  | _ => Done t
  end.

(** [uint add(const V& value)] *)
Definition PrimeTable_add (fuel : nat) (value : V) (t : PrimeTable)
    : outcome (Z * PrimeTable) :=
  match primeMap t !! value with
  | None =>
      '(prime, t1) ←
        (if 0 <? pq_size (primeHoles t) then
           match pq_top (primeHoles t) with
           | Some prime =>
               Done (prime,
                     mkTable (nextPrime t) (sieveOfEratosthenes t)
                       (pq_pop (primeHoles t)) (primeMap t)
                       (reversePrimeMap t))
           | None => Fault EmptyContainer
           end
         else
           '(prime, s) ←
             (if valid (nextPrime t)
              then future_get fuel (nextPrime t) (sieveOfEratosthenes t)
              else getPrimeNumber fuel (Z.of_nat (size (primeMap t)))
                     (sieveOfEratosthenes t));
           Done (prime,
                 mkTable (Pending (wrap64 (Z.of_nat (size (primeMap t)) + 1)))
                   s (primeHoles t) (primeMap t) (reversePrimeMap t)));
      Done (prime,
            mkTable (nextPrime t1) (sieveOfEratosthenes t1) (primeHoles t1)
              (<[value := prime]> (primeMap t1))
              (<[prime := value]> (reversePrimeMap t1)))
  | Some prime => Done (prime, t)
  end.

(** [uint getPrime(const V& value) const] *)
Definition PrimeTable_getPrime (value : V) (t : PrimeTable) : Z :=
  match primeMap t !! value with
  | Some prime => prime
  | None => 0
  end.

(** [uint remove(const V& value)] *)
Definition PrimeTable_remove (value : V) (t : PrimeTable) : Z * PrimeTable :=
  match primeMap t !! value with
  | Some prime =>
      (prime,
       mkTable (nextPrime t) (sieveOfEratosthenes t)
         (pq_push prime (primeHoles t))
         (delete value (primeMap t))
         (delete prime (reversePrimeMap t)))
  | None => (0, t)
  end.

(** [void clear()].  The statement [primeHoles;] that follows the comment
    "Re initialize the prime holes queue." evaluates the member and
    discards it: the queue keeps its contents. *)
Definition PrimeTable_clear (fuel : nat) (t : PrimeTable)
    : outcome PrimeTable :=
  '(_, s) ← future_get fuel (nextPrime t) (sieveOfEratosthenes t);
  Done (mkTable Invalid s (primeHoles t) ∅ ∅).

Definition getPrimeMap (t : PrimeTable) : gmap V Z := primeMap t.

(** [bool containsPrime(uint prime) const] *)
Definition containsPrime (prime : Z) (t : PrimeTable) : bool :=
  bool_decide (is_Some (reversePrimeMap t !! prime)).

(** [const V& getValue(uint prime) const]: [at] throws
    [std::out_of_range] for a key that is absent. *)
Definition getValue (prime : Z) (t : PrimeTable) : outcome V :=
  match reversePrimeMap t !! prime with
  | Some v => Done v
  | None => Fault OutOfRange
  end.

(** [const std::vector<uint>& getPrimeNumbers() const] *)
Definition getPrimeNumbers (t : PrimeTable) : list Z :=
  getCalculatedPrimes (sieveOfEratosthenes t).

End PrimeTable.

Arguments PrimeTable V {_ _}.

(** ** PrimeBag.h *)

(** Objects live in a store and are referred to by address: a bag holds the
    address of its table ([globalTable]) and an iterator the address of its
    bag ([refPrimeBag]). *)
Abbreviation ptr := positive.

(** [static bool containsHash(const bignum& hash, const bignum& otherHash)]:
    [!(hash % otherHash)]; a zero divisor throws. *)
Definition containsHash (hash otherHash : Z) : outcome bool :=
  if otherHash =? 0 then Fault DivisionByZero
  else Done (Z.rem hash otherHash =? 0).

(** [hash /= divisor] *)
Definition bignum_div (hash divisor : Z) : outcome Z :=
  if divisor =? 0 then Fault DivisionByZero else Done (Z.quot hash divisor).

Module Bag.
Record t : Type := mk { globalTable : ptr; hash : Z; length : Z }.
End Bag.
Abbreviation PrimeBag := Bag.t.

(** [PrimeBag(PrimeTable<V>* table)], with [hash{ 1 }] and [length{ 0 }]. *)
Definition PrimeBag_new (table : ptr) : PrimeBag := Bag.mk table 1 0.

(** [count]: [while (containsHash(hashCopy, prime)) { hashCopy /= prime;
    result++; }] *)
Fixpoint count_loop (fuel : nat) (hashCopy prime result : Z) : outcome Z :=
  match fuel with
  | O => OutOfFuel
  | S fuel' =>
      c ← containsHash hashCopy prime;
      if c : bool then
        hashCopy' ← bignum_div hashCopy prime;
        count_loop fuel' hashCopy' prime (wrap32 (result + 1))
      else Done result
  end.

Section PrimeBag.
Context {V : Type} `{Countable V}.

Record world : Type := mkWorld {
  tables : gmap ptr (PrimeTable V);
  bags : gmap ptr PrimeBag
}.

Definition load {A : Type} (m : gmap ptr A) (p : ptr) : outcome A :=
  match m !! p with
  | Some a => Done a
  | None => Fault DanglingPointer
  end.

Definition set_bag (p : ptr) (b : PrimeBag) (w : world) : world :=
  mkWorld (tables w) (<[p := b]> (bags w)).

Definition set_table (p : ptr) (t : PrimeTable V) (w : world) : world :=
  mkWorld (<[p := t]> (tables w)) (bags w).

(** [void add(const V& value)] *)
Definition PrimeBag_add (fuel : nat) (this : ptr) (value : V) (w : world)
    : outcome world :=
  b ← load (bags w) this;
  t ← load (tables w) (Bag.globalTable b);
  '(prime, t') ← PrimeTable_add fuel value t;
  Done (set_bag this
          (Bag.mk (Bag.globalTable b) (Bag.hash b * prime)
             (wrap32 (Bag.length b + 1)))
          (set_table (Bag.globalTable b) t' w)).

(** [void add(const PrimeBag<V>& bag)]; [bag] may be [*this], so it is
    read from the store again after [hash] has been written. *)
Definition PrimeBag_add_bag (this bag : ptr) (w : world) : outcome world :=
  b ← load (bags w) this;
  o ← load (bags w) bag;
  if decide (Bag.globalTable o = Bag.globalTable b) then
    let b1 := Bag.mk (Bag.globalTable b) (Bag.hash b * Bag.hash o)
                (Bag.length b) in
    let w1 := set_bag this b1 w in
    o1 ← load (bags w1) bag;
    Done (set_bag this
            (Bag.mk (Bag.globalTable b1) (Bag.hash b1)
               (wrap32 (Bag.length b1 + Bag.length o1))) w1)
  else Done w.

(** [bool remove(const PrimeBag<V>& bag)] *)
Definition PrimeBag_remove_bag (this bag : ptr) (w : world)
    : outcome (bool * world) :=
  b ← load (bags w) this;
  o ← load (bags w) bag;
  if decide (Bag.globalTable o = Bag.globalTable b) then
    if Bag.length o <=? Bag.length b then
      c ← containsHash (Bag.hash b) (Bag.hash o);
      if c : bool then
        q ← bignum_div (Bag.hash b) (Bag.hash o);
        let b1 := Bag.mk (Bag.globalTable b) q (Bag.length b) in
        let w1 := set_bag this b1 w in
        o1 ← load (bags w1) bag;
        Done (true,
              set_bag this
                (Bag.mk (Bag.globalTable b1) (Bag.hash b1)
                   (wrap32 (Bag.length b1 - Bag.length o1))) w1)
      else Done (false, w)
    else Done (false, w)
  else Done (false, w).

(** [bool remove(const V& value)] *)
Definition PrimeBag_remove (this : ptr) (value : V) (w : world)
    : outcome (bool * world) :=
  b ← load (bags w) this;
  t ← load (tables w) (Bag.globalTable b);
  let prime := PrimeTable_getPrime value t in
  if negb (prime =? 0) then
    c ← containsHash (Bag.hash b) prime;
    if c : bool then
      q ← bignum_div (Bag.hash b) prime;
      Done (true,
            set_bag this
              (Bag.mk (Bag.globalTable b) q (wrap32 (Bag.length b - 1))) w)
    else Done (false, w)
  else Done (false, w).

(** [void clear()] *)
Definition PrimeBag_clear (this : ptr) (w : world) : outcome world :=
  b ← load (bags w) this;
  Done (set_bag this (Bag.mk (Bag.globalTable b) 1 0) w).

(** [bool contains(const V& value) const]:
    [prime && containsHash(hash, bignum(prime))] *)
Definition PrimeBag_contains (this : ptr) (value : V) (w : world)
    : outcome bool :=
  b ← load (bags w) this;
  t ← load (tables w) (Bag.globalTable b);
  let prime := PrimeTable_getPrime value t in
  if negb (prime =? 0) then containsHash (Bag.hash b) prime
  else Done false.

(** [uint size() const] *)
Definition PrimeBag_size (this : ptr) (w : world) : outcome Z :=
  b ← load (bags w) this;
  Done (Bag.length b).

(** [uint count(const V& value) const] *)
Definition PrimeBag_count (fuel : nat) (this : ptr) (value : V) (w : world)
    : outcome Z :=
  b ← load (bags w) this;
  t ← load (tables w) (Bag.globalTable b);
  let prime := PrimeTable_getPrime value t in
  if negb (prime =? 0) then count_loop fuel (Bag.hash b) prime 0
  else Done 0.

(** [asVector]: the inner loop
    [while (containsHash(hashCopy, bigPrime)) { hashCopy /= bigPrime;
    counter--; result.push_back(value); }] *)
Fixpoint asVector_inner (fuel : nat) (value : V) (bigPrime : Z)
    (hashCopy counter : Z) (result : list V) : outcome (Z * Z * list V) :=
  match fuel with
  | O => OutOfFuel
  | S fuel' =>
      c ← containsHash hashCopy bigPrime;
      if c : bool then
        hashCopy' ← bignum_div hashCopy bigPrime;
        asVector_inner fuel' value bigPrime hashCopy'
          (wrap32 (counter - 1)) (result ++ [value])
      else Done (hashCopy, counter, result)
  end.

(** [asVector]: [for (uint prime : primes) { if (counter > 0) { ... }
    else { break; } }] *)
Fixpoint asVector_loop (fuel : nat) (t : PrimeTable V) (ps : list Z)
    (hashCopy counter : Z) (result : list V) : outcome (list V) :=
  match ps with
  | [] => Done result
  | prime :: ps' =>
      if 0 <? counter then
        value ← getValue prime t;
        '(hashCopy', counter', result') ←
          asVector_inner fuel value prime hashCopy counter result;
        asVector_loop fuel t ps' hashCopy' counter' result'
      else Done result
  end.

(** [std::vector<V> asVector() const] *)
Definition PrimeBag_asVector (fuel : nat) (this : ptr) (w : world)
    : outcome (list V) :=
  b ← load (bags w) this;
  t ← load (tables w) (Bag.globalTable b);
  asVector_loop fuel t (getPrimeNumbers t) (Bag.hash b) (Bag.length b) [].

(** *** PrimeBagIterator *)

Record PrimeBagIterator : Type := mkIter {
  refPrimeBag : ptr;
  primeTable : ptr;
  primeBagCopy : PrimeBag;
  primeIndex : Z;
  end_ : bool
}.

(** [uint getPrimeAtTableIndex() const]: [primes[primeIndex]] *)
Definition getPrimeAtTableIndex (w : world) (it : PrimeBagIterator)
    : outcome Z :=
  t ← load (tables w) (primeTable it);
  match getPrimeNumbers t !! Z.to_nat (primeIndex it) with
  | Some prime => Done prime
  | None => Fault OutOfRange
  end.

Definition set_index (it : PrimeBagIterator) (i : Z) : PrimeBagIterator :=
  mkIter (refPrimeBag it) (primeTable it) (primeBagCopy it) i (end_ it).

Definition set_copy (it : PrimeBagIterator) (hash length : Z)
    : PrimeBagIterator :=
  mkIter (refPrimeBag it) (primeTable it)
    (Bag.mk (Bag.globalTable (primeBagCopy it)) hash length)
    (primeIndex it) (end_ it).

Definition set_end (it : PrimeBagIterator) (e : bool) : PrimeBagIterator :=
  mkIter (refPrimeBag it) (primeTable it) (primeBagCopy it)
    (primeIndex it) e.

(** [getNextPrimeFactor]: [while (!containsHash(primeBagCopy.hash, prime))
    { primeIndex++; prime = getPrimeAtTableIndex(); }] *)
Fixpoint nextFactor_loop (fuel : nat) (w : world) (it : PrimeBagIterator)
    (prime : Z) : outcome (Z * PrimeBagIterator) :=
  match fuel with
  | O => OutOfFuel
  | S fuel' =>
      c ← containsHash (Bag.hash (primeBagCopy it)) prime;
      if c : bool then Done (prime, it)
      else
        let it' := set_index it (wrap32 (primeIndex it + 1)) in
        prime' ← getPrimeAtTableIndex w it';
        nextFactor_loop fuel' w it' prime'
  end.

Definition getNextPrimeFactor (fuel : nat) (w : world)
    (it : PrimeBagIterator) : outcome (Z * PrimeBagIterator) :=
  prime ← getPrimeAtTableIndex w it;
  nextFactor_loop fuel w it prime.

(** [getPreviousPrimeFactor]: [while (!(containsHash(refPrimeBag.hash,
    primeBagCopy.hash * prime))) { primeIndex--; prime =
    getPrimeAtTableIndex(); }] *)
Fixpoint previousFactor_loop (fuel : nat) (w : world)
    (it : PrimeBagIterator) (prime : Z) : outcome (Z * PrimeBagIterator) :=
  match fuel with
  | O => OutOfFuel
  | S fuel' =>
      ref ← load (bags w) (refPrimeBag it);
      c ← containsHash (Bag.hash ref) (Bag.hash (primeBagCopy it) * prime);
      if c : bool then Done (prime, it)
      else
        let it' := set_index it (wrap32 (primeIndex it - 1)) in
        prime' ← getPrimeAtTableIndex w it';
        previousFactor_loop fuel' w it' prime'
  end.

Definition getPreviousPrimeFactor (fuel : nat) (w : world)
    (it : PrimeBagIterator) : outcome (Z * PrimeBagIterator) :=
  prime ← getPrimeAtTableIndex w it;
  previousFactor_loop fuel w it prime.

(** [PrimeBagIterator<V>& operator++()] *)
Definition iter_incr (fuel : nat) (w : world) (it : PrimeBagIterator)
    : outcome PrimeBagIterator :=
  if negb (end_ it) then
    if 0 <? Bag.length (primeBagCopy it) then
      '(prime, it1) ← getNextPrimeFactor fuel w it;
      q ← bignum_div (Bag.hash (primeBagCopy it1)) prime;
      Done (set_copy it1 q (wrap32 (Bag.length (primeBagCopy it1) - 1)))
    else Done (set_end it true)
  else Done it.

(** [PrimeBagIterator<V>& operator--()] *)
Definition iter_decr (fuel : nat) (w : world) (it : PrimeBagIterator)
    : outcome PrimeBagIterator :=
  prime ← getPrimeAtTableIndex w it;
  ref ← load (bags w) (refPrimeBag it);
  if Bag.length (primeBagCopy it) <? wrap32 (Bag.length ref - 1) then
    let it1 :=
      if end_ it then set_end it false
      else set_copy it (Bag.hash (primeBagCopy it) * prime)
             (wrap32 (Bag.length (primeBagCopy it) + 1)) in
    '(_, it2) ← getPreviousPrimeFactor fuel w it1;
    Done it2
  else Done it.

(** [PrimeBagIterator(const PrimeBag<V>& bag, bool isEnd)] *)
Definition PrimeBagIterator_new (fuel : nat) (bag : ptr) (isEnd : bool)
    (w : world) : outcome PrimeBagIterator :=
  b ← load (bags w) bag;
  let it := mkIter bag (Bag.globalTable b) b 0 false in
  let it := if (Bag.length b =? 0) || isEnd then set_end it true else it in
  if end_ it then
    t ← load (tables w) (primeTable it);
    Done (set_index (set_copy it 1 0)
            (wrap32 (wrap64 (Z.of_nat (length (getPrimeNumbers t)) - 1))))
  else iter_incr fuel w it.

(** [iterator begin() const] and [iterator end() const] *)
Definition PrimeBag_begin (fuel : nat) (this : ptr) (w : world)
    : outcome PrimeBagIterator :=
  PrimeBagIterator_new fuel this false w.

Definition PrimeBag_end (fuel : nat) (this : ptr) (w : world)
    : outcome PrimeBagIterator :=
  PrimeBagIterator_new fuel this true w.

(** [const V& operator*() const] *)
Definition iter_deref (w : world) (it : PrimeBagIterator) : outcome V :=
  if negb (end_ it) then
    prime ← getPrimeAtTableIndex w it;
    t ← load (tables w) (primeTable it);
    getValue prime t
  else Fault OutOfRange.

(** [bool operator==(const PrimeBagIterator<V>& other) const] *)
Definition iter_eq (it other : PrimeBagIterator) : bool :=
  if negb (bool_decide (primeTable it = primeTable other)) then false
  else
    bool_decide (end_ it = end_ other)
    && (Bag.length (primeBagCopy it) =? Bag.length (primeBagCopy other))
    && (Bag.hash (primeBagCopy it) =? Bag.hash (primeBagCopy other)).

Definition iter_ne (it other : PrimeBagIterator) : bool :=
  negb (iter_eq it other).

(** [operator<], [operator>], [operator>=], [operator<=] *)
Definition iter_lt (it other : PrimeBagIterator) : bool :=
  Bag.length (primeBagCopy other) <? Bag.length (primeBagCopy it).

Definition iter_gt (it other : PrimeBagIterator) : bool :=
  Bag.length (primeBagCopy other) >? Bag.length (primeBagCopy it).

Definition iter_ge (it other : PrimeBagIterator) : bool :=
  iter_gt it other || iter_eq it other.

Definition iter_le (it other : PrimeBagIterator) : bool :=
  iter_lt it other || iter_eq it other.

End PrimeBag.

Arguments world V {_ _}.

(** ** Programs: sequences of calls *)

Section Programs.
Context {V : Type} `{Countable V}.

(** Calls on one table.  [TBackground] is not a call of the client: it is
    the worker thread running the launched task. *)
Inductive table_op : Type :=
  | TAdd (value : V)
  | TRemove (value : V)
  | TClear
  | TBackground.

Definition table_step (fuel : nat) (o : table_op) (t : PrimeTable V)
    : outcome (PrimeTable V) :=
  match o with
  | TAdd value => '(_, t') ← PrimeTable_add fuel value t; Done t'
  | TRemove value => Done (PrimeTable_remove value t).2
  | TClear => PrimeTable_clear fuel t
  | TBackground => PrimeTable_background fuel t
  end.

(** The states of a table constructed without seed primes. *)
Inductive table_reachable : PrimeTable V → Prop :=
  | table_reachable_new : table_reachable PrimeTable_new
  | table_reachable_step t o fuel t' :
      table_reachable t →
      table_step fuel o t = Done t' →
      table_reachable t'.

(** Calls on the store. *)
Inductive op : Type :=
  | NewTable (table : ptr)
  | NewBag (bag table : ptr)
  | OnTable (table : ptr) (o : table_op)
  | BagAdd (bag : ptr) (value : V)
  | BagAddBag (bag other : ptr)
  | BagRemove (bag : ptr) (value : V)
  | BagRemoveBag (bag other : ptr)
  | BagClear (bag : ptr).

Definition empty_world : world V := mkWorld ∅ ∅.

Definition step (fuel : nat) (o : op) (w : world V) : outcome (world V) :=
  match o with
  | NewTable table =>
      match tables w !! table with
      | None => Done (set_table table PrimeTable_new w)
      | Some _ => Fault DanglingPointer
      end
  | NewBag bag table =>
      match bags w !! bag, tables w !! table with
      | None, Some _ => Done (set_bag bag (PrimeBag_new table) w)
      | _, _ => Fault DanglingPointer
      end
  | OnTable table o =>
      t ← load (tables w) table;
      t' ← table_step fuel o t;
      Done (set_table table t' w)
  | BagAdd bag value => PrimeBag_add fuel bag value w
  | BagAddBag bag other => PrimeBag_add_bag bag other w
  | BagRemove bag value => '(_, w') ← PrimeBag_remove bag value w; Done w'
  | BagRemoveBag bag other =>
      '(_, w') ← PrimeBag_remove_bag bag other w; Done w'
  | BagClear bag => PrimeBag_clear bag w
  end.

(** The stores a program can build, tables being constructed without
    seed primes. *)
Inductive reachable : world V → Prop :=
  | reachable_empty : reachable empty_world
  | reachable_step w o fuel w' :
      reachable w →
      step fuel o w = Done w' →
      reachable w'.

(** The call [o], made in the store [w], hands [value] to the [add] of
    the table at [table]. *)
Definition op_adds (w : world V) (o : op) (table : ptr) (value : V) : Prop :=
  match o with
  | OnTable table' (TAdd value') => table' = table ∧ value' = value
  | BagAdd bag value' =>
      value' = value ∧
      ∃ b, bags w !! bag = Some b ∧ Bag.globalTable b = table
  | _ => False
  end.

(** The stores built by programs that never hand [value] to the [add] of
    the table at [table]. *)
Inductive never_added (table : ptr) (value : V) : world V → Prop :=
  | never_added_empty : never_added table value empty_world
  | never_added_step w o fuel w' :
      never_added table value w →
      ¬ op_adds w o table value →
      step fuel o w = Done w' →
      never_added table value w'.

(** A program run call by call, every call with the same fuel. *)
Fixpoint run_table (fuel : nat) (ops : list table_op) (t : PrimeTable V)
    : outcome (PrimeTable V) :=
  match ops with
  | [] => Done t
  | o :: ops' => t' ← table_step fuel o t; run_table fuel ops' t'
  end.

Fixpoint run (fuel : nat) (ops : list op) (w : world V)
    : outcome (world V) :=
  match ops with
  | [] => Done w
  | o :: ops' => w' ← step fuel o w; run fuel ops' w'
  end.

(** Sieve-level programs: successive calls of [getPrimeNumber]. *)
Inductive sieve_reachable : SieveOfEratosthenes → Prop :=
  | sieve_reachable_init : sieve_reachable Sieve_init
  | sieve_reachable_call s fuel index p s' :
      sieve_reachable s →
      0 ≤ index < 2 ^ 64 →
      getPrimeNumber fuel index s = Done (p, s') →
      sieve_reachable s'.

End Programs.

Arguments table_op V : clear implicits.
Arguments op V : clear implicits.

(** ** Invariants and auxiliary notions *)

(** [q] strikes [n]: the loop of [countMultiplesInBitField] for [q], which
    starts at the square of [q], passes over [n]. *)
Definition struck (q n : Z) : Prop := q * q ≤ n ∧ (q | n).

(** The positions the loop marks when it is entered with [multiple = m]. *)
Definition marked (q min max m : Z) (j : nat) : bool :=
  (m <=? min + Z.of_nat j) && (min + Z.of_nat j <=? max)
  && ((min + Z.of_nat j) mod q =? 0).

(** The bit of position [j] is cleared exactly when a number of [Q] strikes
    [min + j]. *)
Definition bits_of (bf : list bool) (min : Z) (Q : list Z) : Prop :=
  ∀ (j : nat) (b : bool), bf !! j = Some b →
    (b = false ↔ ∃ q, q ∈ Q ∧ struck q (min + Z.of_nat j)).

(** The limit of an unseeded sieve is a power of two that fits 32 bits. *)
Definition pow2 (L : Z) : Prop := ∃ k : nat, (k ≤ 31)%nat ∧ L = 2 ^ Z.of_nat k.

(** The invariant of an unseeded sieve. *)
Record SieveInv (s : SieveOfEratosthenes) : Prop := {
  inv_tested : 1 ≤ highestTestedNum s ≤ sieveLimit s;
  inv_limit : pow2 (sieveLimit s);
  inv_limit_tested : sieveLimit s ≤ 2 * highestTestedNum s;
  inv_primes : primes s = primes_between 2 (highestTestedNum s)
}.

Section Invariants.
Context {V : Type} `{Countable V}.

(** The invariant of a table constructed without seed. *)
Record TableInv (t : PrimeTable V) : Prop := {
tinv_sieve : SieveInv (sieveOfEratosthenes t);
tinv_holes : Forall (λ p, 2 ≤ p) (primeHoles t);
tinv_sorted : StronglySorted (λ a b, b ≤ a) (primeHoles t);
tinv_map : map_Forall (λ _ p, 2 ≤ p) (primeMap t);
tinv_ready :
  ∀ v, nextPrime t = Ready v →
       2 ≤ v ≤ highestTestedNum (sieveOfEratosthenes t);
tinv_primes :
  (primeMap t = ∅ ∧ primeHoles t = []) ∨
  2 ≤ highestTestedNum (sieveOfEratosthenes t)
}.

(** The forward and the reverse map are mutual inverses. *)
Definition mutual_inverses (t : PrimeTable V) : Prop :=
∀ v p, primeMap t !! v = Some p ↔ reversePrimeMap t !! p = Some v.

(** The index [add] asks the sieve for when it needs a new prime. *)
Definition requested_index (t : PrimeTable V) : Z :=
match nextPrime t with
| Pending index => index
| _ => Z.of_nat (size (primeMap t))
end.

(** The invariant of the store. *)
Definition bag_fresh (b : PrimeBag) : Prop := Bag.hash b = 1 ∧ Bag.length b = 0.

Record WorldInv (w : world V) : Prop := {
winv_tables : ∀ tp t, tables w !! tp = Some t → TableInv t;
winv_bound : ∀ bp b, bags w !! bp = Some b →
             is_Some (tables w !! Bag.globalTable b);
winv_hash : ∀ bp b, bags w !! bp = Some b → 1 ≤ Bag.hash b;
winv_length : ∀ bp b, bags w !! bp = Some b → 0 ≤ Bag.length b < 2 ^ 32;
winv_fresh : ∀ bp b t,
  bags w !! bp = Some b → tables w !! Bag.globalTable b = Some t →
  bag_fresh b ∨ 2 ≤ highestTestedNum (sieveOfEratosthenes t)
}.

(** [n] successive [operator--]. *)
Fixpoint iter_decr_n (fuel : nat) (w : world V) (n : nat)
  (it : PrimeBagIterator) : outcome PrimeBagIterator :=
match n with
| O => Done it
| S n' => it' ← iter_decr fuel w it; iter_decr_n fuel w n' it'
end.

(** The operations of a cursor, as calls made in a store. *)
Inductive cursor_op : Type :=
| Advance
| Retreat
| Dereference
| Compare (other : PrimeBagIterator).

(** What a call lets the caller see: the value of [operator*], or the
  results of [==], [!=], [<], [>], [<=] and [>=]. *)
Inductive cursor_result : Type :=
| NoResult
| Value (v : V)
| Comparison (eq ne lt gt le ge : bool).

Definition cursor_step (fuel : nat) (o : cursor_op) (w : world V)
  (it : PrimeBagIterator)
  : outcome (world V * PrimeBagIterator * cursor_result) :=
match o with
| Advance => it' ← iter_incr fuel w it; Done (w, it', NoResult)
| Retreat => it' ← iter_decr fuel w it; Done (w, it', NoResult)
| Dereference => v ← iter_deref w it; Done (w, it, Value v)
| Compare other =>
    Done (w, it,
          Comparison (iter_eq it other) (iter_ne it other)
            (iter_lt it other) (iter_gt it other)
            (iter_le it other) (iter_ge it other))
end.

End Invariants.

Arguments cursor_result V : clear implicits.

(** ** Scenarios *)

(** A table with the holes 3 and 2: a, b added, then both removed. *)
Definition two_holes_program : list (table_op string) :=
  [TAdd "a"%string; TAdd "b"%string; TRemove "a"%string; TRemove "b"%string].

Definition two_holes_table : PrimeTable string :=
  mkTable (Pending 2) (mkSieve 4 4 [2; 3]) [3; 2] ∅ ∅.

(** The scenario of the specification: a registry at address 1 to which a,
    b and c are added, then a bag at address 2 to which a, a and b are
    added.  After each [add] of the registry the worker thread may or may
    not have finished ([bg]). *)
Definition worker (bg : bool) (fuel : nat) (w : world string)
    : outcome (world string) :=
  if bg then step fuel (OnTable 1 TBackground) w else Done w.

Definition registry_add (fuel : nat) (value : string) (w : world string)
    : outcome (Z * world string) :=
  t ← load (tables w) 1%positive;
  '(prime, t') ← PrimeTable_add fuel value t;
  Done (prime, set_table 1 t' w).

Definition scenario_registry (bg1 bg2 bg3 : bool) (fuel : nat)
    : outcome (Z * Z * Z * world string) :=
  w ← step fuel (NewTable 1) empty_world;
  '(pa, w) ← registry_add fuel "a" w;
  w ← worker bg1 fuel w;
  '(pb, w) ← registry_add fuel "b" w;
  w ← worker bg2 fuel w;
  '(pc, w) ← registry_add fuel "c" w;
  w ← worker bg3 fuel w;
  Done (pa, pb, pc, w).

Definition scenario_bag (fuel : nat) (w : world string)
    : outcome (world string) :=
  run fuel [NewBag 2 1; BagAdd 2 "a"%string; BagAdd 2 "a"%string;
            BagAdd 2 "b"%string] w.

Definition one_bag_world : world string :=
  mkWorld {[1%positive := PrimeTable_new]} {[2%positive := PrimeBag_new 1]}.

Definition one_bag_world_added : world string :=
  mkWorld
    {[1%positive :=
        mkTable (Pending 1) (mkSieve 4 4 [2; 3]) []
          {["a"%string := 2]} {[2 := "a"%string]}]}
    {[2%positive := Bag.mk 1 2 1]}.


(** Two bags of one registry: a in the bag at 2, b in the bag at 3. *)
Definition two_bag_program : list (op string) :=
  [NewTable 1; NewBag 2 1; BagAdd 2 "a"%string; NewBag 3 1;
   BagAdd 3 "b"%string].

Definition two_bag_world : world string :=
  Eval vm_compute in
    match run 16 two_bag_program empty_world with
    | Done w => w
    | _ => empty_world
    end.

(** One registry, a in the bag at 2, the bag at 3 empty. *)
Definition seed_bag_program : list (op string) :=
  [NewTable 1; NewBag 2 1; BagAdd 2 "a"%string; NewBag 3 1].

Definition seed_bag_world : world string :=
  Eval vm_compute in
    match run 16 seed_bag_program empty_world with
    | Done w => w
    | _ => empty_world
    end.

(** The registry with a, b, c and the bag with a, a, b at address 2; then
    the same store after a has been removed twice from the bag. *)
Definition aab_program : list (op string) :=
  [NewTable 1; OnTable 1 (TAdd "a"%string); OnTable 1 (TAdd "b"%string);
   OnTable 1 (TAdd "c"%string); NewBag 2 1; BagAdd 2 "a"%string;
   BagAdd 2 "a"%string; BagAdd 2 "b"%string].

Definition aab_world : world string :=
  Eval vm_compute in
    match run 32 aab_program empty_world with
    | Done w => w
    | _ => empty_world
    end.

Definition aab_world_removed : world string :=
  Eval vm_compute in
    match run 32 [BagRemove 2 "a"%string; BagRemove 2 "a"%string] aab_world with
    | Done w => w
    | _ => empty_world
    end.

(** The cursor [begin()] of the bag a, a, b: a consumed, a and b left. *)
Definition aab_begin : PrimeBagIterator :=
  mkIter 2 1 (Bag.mk 1 6 2) 0 false.

(** The same cursor advanced twice: it stands on b, nothing left. *)
Definition aab_on_b : PrimeBagIterator :=
  mkIter 2 1 (Bag.mk 1 1 0) 1 false.

(** ** Further notions *)

(** The invariant of a sieve seeded with every prime up to the last of its
    seed: as [SieveInv], the limit being any 32-bit number. *)
Record SeedInv (s : SieveOfEratosthenes) : Prop := {
  seed_tested : 1 ≤ highestTestedNum s ≤ sieveLimit s;
  seed_limit : sieveLimit s < 2 ^ 32;
  seed_limit_tested : sieveLimit s ≤ 2 * highestTestedNum s;
  seed_primes : primes s = primes_between 2 (highestTestedNum s)
}.

(** Successive calls of [getPrimeNumber], the results collected. *)
Fixpoint getPrimeNumber_calls (fuel : nat) (indices : list nat)
    (s : SieveOfEratosthenes) : outcome (list Z * SieveOfEratosthenes) :=
  match indices with
  | [] => Done ([], s)
  | i :: indices' =>
      '(p, s1) ← getPrimeNumber fuel (Z.of_nat i) s;
      '(ps, s2) ← getPrimeNumber_calls fuel indices' s1;
      Done (p :: ps, s2)
  end.

Section SoundTables.
Context {V : Type} `{Countable V}.

(** The number of primes a table holds: assigned or in the pool. *)
Definition allocated (t : PrimeTable V) : nat :=
  (size (primeMap t) + length (primeHoles t))%nat.

(** The invariant of a table on which [clear] was never called with a hole
    in the pool: the maps are inverses, the holes are distinct and
    unassigned, the primes held are exactly those of the indices below
    [allocated], and the prefetch is for the index [allocated]. *)
Record TableSound (t : PrimeTable V) : Prop := {
  sound_inv : TableInv t;
  sound_inverse : mutual_inverses t;
  sound_holes_nodup : NoDup (primeHoles t);
  sound_holes_free : ∀ p, p ∈ primeHoles t → reversePrimeMap t !! p = None;
  sound_index :
    ∀ q, q ∈ primeHoles t ∨ is_Some (reversePrimeMap t !! q) →
         ∃ i, (i < allocated t)%nat ∧ IsNthPrime i q;
  sound_onto :
    ∀ i q, (i < allocated t)%nat → IsNthPrime i q →
           q ∈ primeHoles t ∨ is_Some (reversePrimeMap t !! q);
  sound_top :
    (0 < allocated t)%nat →
    ∃ q, IsNthPrime (allocated t - 1) q ∧
         q ≤ highestTestedNum (sieveOfEratosthenes t);
  sound_future :
    match nextPrime t with
    | Invalid => allocated t = 0%nat
    | Pending index => index = Z.of_nat (allocated t)
    | Ready v => IsNthPrime (allocated t) v
    end
}.

(** The states of a table constructed without seed on which [clear] is
    called only while the pool of holes is empty. *)
Inductive table_sound_reachable : PrimeTable V → Prop :=
  | table_sound_reachable_new : table_sound_reachable PrimeTable_new
  | table_sound_reachable_step t o fuel t' :
      table_sound_reachable t →
      (o = TClear → primeHoles t = []) →
      table_step fuel o t = Done t' →
      table_sound_reachable t'.

End SoundTables.

(** A table to which a and b were added, and the same after the worker
    thread finished the prefetch. *)
Definition ab_program : list (table_op string) :=
  [TAdd "a"%string; TAdd "b"%string].

Definition ab_table : PrimeTable string :=
  Eval vm_compute in
    match run_table 16 ab_program PrimeTable_new with
    | Done t => t
    | _ => PrimeTable_new
    end.

Definition ab_table_prefetched : PrimeTable string :=
  Eval vm_compute in
    match PrimeTable_background 16 ab_table with
    | Done t => t
    | _ => PrimeTable_new
    end.

Definition abc_table : PrimeTable string :=
  Eval vm_compute in
    match PrimeTable_add 16 "c"%string ab_table with
    | Done (_, t) => t
    | _ => PrimeTable_new
    end.

(** ** Decoding a bag and iterating over it *)

Section Decoding.
Context {V : Type} `{Countable V}.

(** The hash of a bag that holds the values of [l], each as often as it
    occurs in [l]: the product of their primes. *)
Definition encoding (t : PrimeTable V) (l : list V) : Z :=
  foldr (λ v acc, PrimeTable_getPrime v t * acc) 1 l.

(** A registry at address 1, a bag at address 2, and the values of [l]
    added to the bag one after the other. *)
Definition bag_of_program (l : list V) : list (op V) :=
  NewTable 1 :: NewBag 2 1 :: (BagAdd 2 <$> l).

(** The state of the store while [bag_of_program] runs: the bag at 2 holds
    the values of [acc], and the table at 1 is sound and has no hole. *)
Definition holds_values (w : world V) (acc : list V) : Prop :=
  ∃ t b, tables w !! 1%positive = Some t ∧ bags w !! 2%positive = Some b ∧
         Bag.globalTable b = 1%positive ∧
         TableSound t ∧ primeHoles t = [] ∧
         Forall (λ v, PrimeTable_getPrime v t ≠ 0) acc ∧
         Bag.hash b = encoding t acc ∧
         Bag.length b = wrap32 (Z.of_nat (length acc)).

(** The loop of a client over a bag: [for (auto it = bag.begin();
    it != bag.end(); ++it)], every iteration appending the value the
    cursor dereferences to.  [n] bounds the number of iterations. *)
Fixpoint iterate_from (n fuel : nat) (this : ptr) (w : world V)
    (it : PrimeBagIterator) : outcome (list V) :=
  match n with
  | O => OutOfFuel
  | S n' =>
      e ← PrimeBag_end fuel this w;
      if iter_ne it e then
        value ← iter_deref w it;
        it' ← iter_incr fuel w it;
        values ← iterate_from n' fuel this w it';
        Done (value :: values)
      else Done []
  end.

Definition PrimeBag_iterate (n fuel : nat) (this : ptr) (w : world V)
    : outcome (list V) :=
  it ← PrimeBag_begin fuel this w;
  iterate_from n fuel this w it.

(** The cursor of the bag at [this] that stands on the prime of index [i]
    with the values of [rest] still to come. *)
Definition cursor_on (this table : ptr) (t : PrimeTable V) (i : nat)
    (rest : list V) : PrimeBagIterator :=
  mkIter this table
    (Bag.mk table (encoding t rest) (Z.of_nat (length rest)))
    (Z.of_nat i) false.

(** [n] successive [operator++]. *)
Fixpoint iter_incr_n (fuel : nat) (w : world V) (n : nat)
    (it : PrimeBagIterator) : outcome PrimeBagIterator :=
  match n with
  | O => Done it
  | S n' => it' ← iter_incr fuel w it; iter_incr_n fuel w n' it'
  end.

(** The cursor stands on [v], the prime of index [i], in a bag of the
    values [l]: [seen] are the values before it and [rest] the values
    after it, in ascending order of the primes. *)
Definition cursor_state (t : PrimeTable V) (l : list V) (i : nat) (v : V)
    (seen rest : list V) : Prop :=
  l ≡ₚ seen ++ v :: rest ∧
  getPrimeNumbers t !! i = Some (PrimeTable_getPrime v t) ∧
  (∀ x, x ∈ seen → PrimeTable_getPrime x t ≤ PrimeTable_getPrime v t) ∧
  (∀ x, x ∈ rest → PrimeTable_getPrime v t ≤ PrimeTable_getPrime x t).

End Decoding.

(** The store with the bag a, a, b after one more [add] of a, and after
    [clear] of the bag. *)
Definition aaab_world : world string :=
  Eval vm_compute in
    match PrimeBag_add 16 2 "a"%string aab_world with
    | Done w => w
    | _ => empty_world
    end.

Definition aab_world_cleared : world string :=
  Eval vm_compute in
    match PrimeBag_clear 2 aab_world with
    | Done w => w
    | _ => empty_world
    end.

(** The bag holds a, and a is then removed from the registry: the prime
    2 is a hole of the registry and still a factor of the hash. *)
Definition stale_program : list (op string) :=
  [NewTable 1; NewBag 2 1; BagAdd 2 "a"%string;
   OnTable 1 (TRemove "a"%string)].

Definition stale_world : world string :=
  Eval vm_compute in
    match run 16 stale_program empty_world with
    | Done w => w
    | _ => empty_world
    end.

Definition stale_table : PrimeTable string :=
  Eval vm_compute in
    match tables stale_world !! 1%positive with
    | Some t => t
    | None => PrimeTable_new
    end.

(** The bag filled with a, b, a. *)
Definition aba_world : world string :=
  Eval vm_compute in
    match run 16 (bag_of_program ["a"; "b"; "a"]%string) empty_world with
    | Done w => w
    | _ => empty_world
    end.

(** The registry knows a, b and c, the bag holds c, and b is then removed
    from the registry: the prime 3 is unassigned, below the prime of c. *)
Definition gap_program : list (op string) :=
  [NewTable 1; NewBag 2 1; OnTable 1 (TAdd "a"%string);
   OnTable 1 (TAdd "b"%string); BagAdd 2 "c"%string;
   OnTable 1 (TRemove "b"%string)].

Definition gap_world : world string :=
  Eval vm_compute in
    match run 16 gap_program empty_world with
    | Done w => w
    | _ => empty_world
    end.

Definition gap_table : PrimeTable string :=
  Eval vm_compute in
    match tables gap_world !! 1%positive with
    | Some t => t
    | None => PrimeTable_new
    end.

(** The store in which the bag holds a and a was removed from the
    registry, after [add] of z to the bag; and the cursor [begin()] made
    on the bag while a was in the registry. *)
Definition stale_world_added : world string :=
  Eval vm_compute in
    match PrimeBag_add 16 2 "z"%string stale_world with
    | Done w => w
    | _ => empty_world
    end.

Definition a_begin : PrimeBagIterator :=
  mkIter 2 1 (Bag.mk 1 1 0) 0 false.

(** * Proofs *)

(** ** Outcomes and machine integers *)

Lemma bind_Done {A B} (m : outcome A) (k : A → outcome B) (b : B) :
  m ≫= k = Done b → ∃ a, m = Done a ∧ k a = Done b.
Proof. destruct m; simpl; intros Hm; try discriminate. eauto. Qed.

(** Arithmetic with the bounds of the machine integers spelled out. *)
Ltac bounds :=
  change (2 ^ 64) with 18446744073709551616 in *;
  change (2 ^ 32) with 4294967296 in *;
  change (2 ^ 31) with 2147483648 in *;
  change (2 ^ 16) with 65536 in *.
Ltac blia := bounds; lia.
Ltac bnia := bounds; nia.

Lemma wrap32_small z : 0 ≤ z < 2 ^ 32 → wrap32 z = z.
Proof. intros. unfold wrap32. apply Z.mod_small; lia. Qed.

Lemma wrap64_small z : 0 ≤ z < 2 ^ 64 → wrap64 z = z.
Proof. intros. unfold wrap64. apply Z.mod_small; lia. Qed.

Lemma wrap32_range z : 0 ≤ wrap32 z < 2 ^ 32.
Proof. unfold wrap32. apply Z.mod_pos_bound. lia. Qed.

(** ** Primality *)

Lemma forallb_false_witness {A} (f : A → bool) (l : list A) :
  forallb f l = false → ∃ x, x ∈ l ∧ f x = false.
Proof.
  induction l as [|a l IH]; simpl; [discriminate|].
  destruct (f a) eqn:Ha; simpl.
  - intros Hl. destruct (IH Hl) as (x & Hx & Hfx).
    exists x. split; [by constructor|done].
  - intros _. exists a. split; [by constructor|done].
Qed.

Lemma is_prime_spec n :
  is_prime n = true ↔ 2 ≤ n ∧ ∀ d, 2 ≤ d < n → ¬ (d | n).
Proof.
  unfold is_prime. rewrite andb_true_iff, Z.leb_le, forallb_forall. split.
  - intros [Hn Hall]. split; [done|]. intros d Hd Hdiv.
    assert (Hin : In d (seqZ 2 (n - 2))).
    { apply list_elem_of_In, elem_of_seqZ. lia. }
    specialize (Hall d Hin). apply negb_true_iff, Z.eqb_neq in Hall.
    apply Hall, Z.mod_divide; [lia|done].
  - intros [Hn Hall]. split; [done|]. intros d Hin.
    apply list_elem_of_In, elem_of_seqZ in Hin.
    apply negb_true_iff, Z.eqb_neq. intros Hmod.
    apply (Hall d); [lia|]. apply Z.mod_divide; [lia|done].
Qed.

(** [is_prime] decides the primality of the Standard Library. *)
Lemma is_prime_iff_prime n : is_prime n = true ↔ prime n.
Proof.
  rewrite is_prime_spec, <- prime_alt. unfold Z.prime. split.
  - intros [Hn Hall]. split; [lia|]. intros d Hd. apply Hall. lia.
  - intros [Hn Hall]. split; [lia|]. intros d Hd. apply Hall. lia.
Qed.

Lemma is_prime_ge_2 n : is_prime n = true → 2 ≤ n.
Proof. intros Hn. by apply is_prime_spec in Hn as [? _]. Qed.

Lemma not_prime_divisor n :
  2 ≤ n → is_prime n = false → ∃ d, 2 ≤ d < n ∧ (d | n).
Proof.
  intros Hn Hp. unfold is_prime in Hp.
  apply andb_false_iff in Hp as [Hp|Hp].
  { apply Z.leb_gt in Hp. lia. }
  apply forallb_false_witness in Hp as (d & Hin & Hd).
  apply elem_of_seqZ in Hin. apply negb_false_iff, Z.eqb_eq in Hd.
  exists d. split; [lia|]. apply Z.mod_divide; [lia|done].
Qed.

(** A composite number has a prime factor below its square root. *)
Lemma composite_prime_factor n :
  2 ≤ n → is_prime n = false →
  ∃ q, is_prime q = true ∧ q * q ≤ n ∧ (q | n).
Proof.
  intros Hn. assert (H0 : 0 ≤ n) by lia. revert Hn. pattern n.
  apply Z_lt_induction; [|done]. clear n H0. intros n IH Hn Hp.
  destruct (not_prime_divisor n Hn Hp) as (d & Hd & [e He]).
  assert (2 ≤ e < n) by nia.
  assert (Hsmall : ∃ a, 2 ≤ a < n ∧ a * a ≤ n ∧ (a | n)).
  { destruct (Z_le_gt_dec d e).
    - exists d. split; [lia|]. split; [nia|]. exists e. lia.
    - exists e. split; [lia|]. split; [nia|]. exists d. lia. }
  destruct Hsmall as (a & Ha & Hsq & Hdiv).
  destruct (is_prime a) eqn:Hpa.
  - exists a. done.
  - destruct (IH a) as (q & Hq & Hqq & Hqa); [lia|lia|done|].
    exists q. split; [done|]. split; [lia|].
    by apply Z.divide_trans with a.
Qed.

Lemma product_not_prime q c : 2 ≤ q → 2 ≤ c → is_prime (q * c) = false.
Proof.
  intros Hq Hc. destruct (is_prime (q * c)) eqn:Hp; [|done].
  apply is_prime_spec in Hp as [_ Hall].
  destruct (Hall q); [nia|]. exists c. lia.
Qed.

(** ** The ascending list of primes *)

Lemma elem_of_primes_between lo hi q :
  q ∈ primes_between lo hi ↔ lo ≤ q ≤ hi ∧ is_prime q = true.
Proof.
  unfold primes_between. rewrite list_elem_of_filter, elem_of_seqZ.
  intuition lia.
Qed.

Lemma primes_between_empty lo hi : hi < lo → primes_between lo hi = [].
Proof. intros. unfold primes_between. by rewrite seqZ_nil by lia. Qed.

Lemma primes_between_app lo mid hi :
  lo ≤ mid + 1 → mid ≤ hi →
  primes_between lo hi = primes_between lo mid ++ primes_between (mid + 1) hi.
Proof.
  intros. unfold primes_between.
  replace (hi - lo + 1) with ((mid - lo + 1) + (hi - (mid + 1) + 1)) by lia.
  rewrite seqZ_app by lia. rewrite filter_app.
  by replace (lo + (mid - lo + 1)) with (mid + 1) by lia.
Qed.

Lemma primes_between_single n :
  primes_between n n = if is_prime n then [n] else [].
Proof.
  unfold primes_between. replace (n - n + 1) with 1 by lia.
  rewrite seqZ_cons by lia. rewrite seqZ_nil by lia.
  destruct (is_prime n) eqn:Hn.
  - by rewrite filter_cons_True.
  - rewrite filter_cons_False; [done|]. by rewrite Hn.
Qed.

Lemma primes_between_snoc lo hi :
  lo ≤ hi + 1 →
  primes_between lo (hi + 1) =
  primes_between lo hi ++ (if is_prime (hi + 1) then [hi + 1] else []).
Proof.
  intros. rewrite (primes_between_app lo hi (hi + 1)) by lia.
  by rewrite primes_between_single.
Qed.

Lemma length_primes_between lo hi :
  lo ≤ hi + 1 → Z.of_nat (length (primes_between lo hi)) ≤ hi - lo + 1.
Proof.
  intros. unfold primes_between.
  pose proof (length_filter (λ n, is_prime n = true) (seqZ lo (hi - lo + 1))) as Hle.
  rewrite length_seqZ in Hle. lia.
Qed.

Lemma primes_between_ge_2 lo hi :
  Forall (λ q, 2 ≤ q) (primes_between lo hi).
Proof.
  apply Forall_forall. intros q Hq.
  apply elem_of_primes_between in Hq as [_ Hq]. by apply is_prime_ge_2.
Qed.

(** The prime of index [i] sits at index [i] of every long enough list of
    primes. *)
Lemma lookup_primes_between i p hi :
  IsNthPrime i p → p ≤ hi → primes_between 2 hi !! i = Some p.
Proof.
  intros [Hp Hi] Hle. pose proof (is_prime_ge_2 p Hp).
  rewrite (primes_between_app 2 (p - 1) hi) by lia.
  rewrite lookup_app_r by lia. rewrite Hi, Nat.sub_diag.
  replace (p - 1 + 1) with p by lia.
  rewrite (primes_between_app p p hi) by lia.
  rewrite primes_between_single, Hp. done.
Qed.

Lemma lookup_primes_between_inv i p hi :
  primes_between 2 hi !! i = Some p → IsNthPrime i p ∧ p ≤ hi.
Proof.
  intros Hl.
  assert (Hin : p ∈ primes_between 2 hi) by (by eapply list_elem_of_lookup_2).
  apply elem_of_primes_between in Hin as [Hr Hp].
  split; [|lia]. split; [done|].
  rewrite (primes_between_app 2 (p - 1) hi) in Hl by lia.
  replace (p - 1 + 1) with p in Hl by lia.
  rewrite (primes_between_app p p hi) in Hl by lia.
  rewrite primes_between_single, Hp in Hl.
  destruct (decide (i < length (primes_between 2 (p - 1)))%nat) as [Hlt|Hge].
  - rewrite lookup_app_l in Hl by done.
    apply list_elem_of_lookup_2, elem_of_primes_between in Hl. lia.
  - destruct (decide (i = length (primes_between 2 (p - 1)))) as [->|Hne]; [done|].
    rewrite lookup_app_r in Hl by lia.
    destruct (i - length (primes_between 2 (p - 1)))%nat as [|k] eqn:Hk; [lia|].
    simpl in Hl.
    apply list_elem_of_lookup_2, elem_of_primes_between in Hl. lia.
Qed.

(** An index is the index of at most one prime. *)
Lemma IsNthPrime_unique i p q : IsNthPrime i p → IsNthPrime i q → p = q.
Proof.
  intros Hp Hq.
  pose proof (lookup_primes_between i p (Z.max p q) Hp ltac:(lia)) as H1.
  pose proof (lookup_primes_between i q (Z.max p q) Hq ltac:(lia)) as H2.
  congruence.
Qed.

(** A list of primes too short to hold index [i] stops below the prime of
    index [i]. *)
Lemma short_primes_between i p h :
  IsNthPrime i p → (length (primes_between 2 h) ≤ i)%nat → h < p.
Proof.
  intros Hp Hlen. destruct (Z_lt_ge_dec h p) as [|Hge]; [done|].
  pose proof (lookup_primes_between i p h Hp ltac:(lia)) as Hl.
  apply lookup_lt_Some in Hl. lia.
Qed.

(** ** The bit field of a segment *)

Lemma marked_next q min max m j :
  0 < q → (q | m) → min + Z.of_nat j ≠ m →
  marked q min max (m + q) j = marked q min max m j.
Proof.
  intros Hq [c Hc] Hne. unfold marked.
  destruct ((min + Z.of_nat j) mod q =? 0) eqn:Hmod;
    [|by rewrite !andb_false_r].
  rewrite !andb_true_r. f_equal.
  apply Z.eqb_eq, Z.mod_divide in Hmod as [e He]; [|lia].
  destruct (Z.leb_spec (m + q) (min + Z.of_nat j)),
    (Z.leb_spec m (min + Z.of_nat j)); try done; try lia.
  assert (e < c + 1) by nia. assert (c ≤ e) by nia. nia.
Qed.

Lemma marked_past q min max m j : max < m → marked q min max m j = false.
Proof.
  intros. unfold marked.
  destruct (Z.leb_spec m (min + Z.of_nat j)),
    (Z.leb_spec (min + Z.of_nat j) max); simpl; try done; lia.
Qed.

Lemma countMultiples_loop_spec fuel : ∀ bf q min max m bf',
  0 < q < 2 ^ 32 → max < 2 ^ 32 → 0 ≤ m → (q | m) →
  countMultiples_loop fuel bf q min max m = Done bf' →
  ∀ j, bf' !! j = (λ b, b && negb (marked q min max m j)) <$> bf !! j.
Proof.
  induction fuel as [|fuel IH]; intros bf q min max m bf' Hq Hmax Hm Hdiv Hrun j;
    simpl in Hrun; [discriminate|].
  destruct (Z.leb_spec m max) as [Hle|Hgt].
  - rewrite wrap64_small in Hrun by blia.
    assert (Hdiv' : (q | m + q)).
    { apply Z.divide_add_r; [done|apply Z.divide_refl]. }
    assert (Hm' : 0 ≤ m + q) by lia.
    destruct (Z.leb_spec min m) as [Hin|Hout].
    + destruct (decide (Z.to_nat (m - min) < length bf)%nat) as [Hlt|];
        [|discriminate].
      rewrite (IH _ _ _ _ _ _ Hq Hmax Hm' Hdiv' Hrun j).
      destruct (decide (j = Z.to_nat (m - min))) as [->|Hne].
      * rewrite list_lookup_insert_eq by done.
        destruct (lookup_lt_is_Some_2 bf _ Hlt) as [b ->]. simpl.
        assert (Hmk : marked q min max m (Z.to_nat (m - min)) = true).
        { unfold marked. rewrite Z2Nat.id by blia.
          replace (min + (m - min)) with m by blia.
          rewrite !andb_true_iff, !Z.leb_le, Z.eqb_eq. repeat split; [lia..|].
          apply Z.mod_divide; [lia|done]. }
        rewrite Hmk. by rewrite andb_false_r.
      * rewrite list_lookup_insert_ne by done.
        rewrite marked_next; [done|lia|done|lia].
    + rewrite (IH _ _ _ _ _ _ Hq Hmax Hm' Hdiv' Hrun j).
      rewrite marked_next; [done|lia|done|lia].
  - injection Hrun as <-. destruct (bf !! j) as [b|]; simpl; [|done].
    rewrite marked_past by done. by rewrite andb_true_r.
Qed.

Lemma countMultiples_loop_terminates fuel : ∀ bf q min max m,
  0 < q < 2 ^ 32 → max < 2 ^ 32 → 0 ≤ m → 0 ≤ min →
  Z.of_nat (length bf) = max - min + 1 →
  (0 < fuel)%nat → max + 1 - m < Z.of_nat fuel →
  ∃ bf', countMultiples_loop fuel bf q min max m = Done bf'.
Proof.
  induction fuel as [|fuel IH]; intros bf q min max m Hq Hmax Hm Hmin Hlen Hpos Hfuel;
    [lia|]. simpl.
  destruct (Z.leb_spec m max) as [Hle|Hgt]; [|eauto].
  rewrite wrap64_small by blia.
  destruct (Z.leb_spec min m) as [Hin|Hout].
  - destruct (decide (Z.to_nat (m - min) < length bf)%nat) as [Hlt|Hge]; [|blia].
    apply IH; try blia. by rewrite length_insert.
  - apply IH; blia.
Qed.

Lemma countMultiples_length fuel bf q min max bf' :
  0 < q < 2 ^ 32 → max < 2 ^ 32 →
  countMultiplesInBitField fuel bf q min max = Done bf' →
  length bf' = length bf.
Proof.
  intros Hq Hmax Hrun. unfold countMultiplesInBitField in Hrun.
  rewrite wrap64_small in Hrun by bnia.
  pose proof (countMultiples_loop_spec fuel bf q min max (q * q) bf'
                Hq Hmax ltac:(nia) ltac:(by exists q) Hrun) as Hspec.
  apply Nat.le_antisymm.
  - destruct (decide (length bf' ≤ length bf)%nat) as [|Hgt]; [done|].
    pose proof (Hspec (length bf)) as Hj.
    rewrite (lookup_ge_None_2 bf) in Hj by lia. simpl in Hj.
    apply lookup_ge_None_1 in Hj. lia.
  - destruct (decide (length bf ≤ length bf')%nat) as [|Hgt]; [done|].
    pose proof (Hspec (length bf')) as Hj.
    rewrite (lookup_ge_None_2 bf') in Hj by lia.
    destruct (bf !! length bf') eqn:Hb; [discriminate|].
    apply lookup_ge_None_1 in Hb. lia.
Qed.

Lemma countMultiples_bits fuel bf q min max Q bf' :
  0 < q < 2 ^ 32 → max < 2 ^ 32 →
  Z.of_nat (length bf) = max - min + 1 →
  bits_of bf min Q →
  countMultiplesInBitField fuel bf q min max = Done bf' →
  length bf' = length bf ∧ bits_of bf' min (Q ++ [q]).
Proof.
  intros Hq Hmax Hlen Hbits Hrun. split; [by eapply countMultiples_length|].
  unfold countMultiplesInBitField in Hrun.
  rewrite wrap64_small in Hrun by bnia.
  pose proof (countMultiples_loop_spec fuel bf q min max (q * q) bf'
                Hq Hmax ltac:(bnia) ltac:(by exists q) Hrun) as Hspec.
  intros j b' Hb'. rewrite Hspec in Hb'.
    destruct (bf !! j) as [b|] eqn:Hb; [|discriminate].
    simpl in Hb'. injection Hb' as <-.
    pose proof (lookup_lt_Some _ _ _ Hb) as Hj.
    specialize (Hbits j b Hb).
    rewrite andb_false_iff, negb_false_iff, Hbits.
    setoid_rewrite elem_of_app. setoid_rewrite list_elem_of_singleton.
    unfold marked, struck.
    rewrite !andb_true_iff, !Z.leb_le, Z.eqb_eq.
    rewrite Z.mod_divide by blia. split.
    + intros [(q' & Hq' & Hs)|[[Hsq _] Hd]]; [by eauto|].
      exists q. eauto.
    + intros (q' & [Hq'| ->] & Hsq & Hd); [by eauto 6|].
      right. repeat split; [done|lia|done].
Qed.

Lemma countMultiples_terminates fuel bf q min max :
  0 < q < 2 ^ 32 → max < 2 ^ 32 → 0 ≤ min →
  Z.of_nat (length bf) = max - min + 1 →
  max + 1 < Z.of_nat fuel →
  ∃ bf', countMultiplesInBitField fuel bf q min max = Done bf'.
Proof.
  intros Hq Hmax Hmin Hlen Hfuel. unfold countMultiplesInBitField.
  rewrite wrap64_small by bnia.
  apply countMultiples_loop_terminates; try done; bnia.
Qed.

(** ** The limit of the sieve *)

Lemma pow2_range L : pow2 L → 1 ≤ L ≤ 2 ^ 31.
Proof.
  intros (k & Hk & ->). split.
  - pose proof (Z.pow_pos_nonneg 2 (Z.of_nat k)). lia.
  - apply Z.pow_le_mono_r; lia.
Qed.

Lemma pow2_double L : pow2 L → L < 2 ^ 31 → pow2 (2 * L).
Proof.
  intros (k & Hk & ->) Hlt.
  assert (k ≠ 31%nat) by (intros ->; simpl in Hlt; lia).
  exists (S k). split; [lia|].
  rewrite Nat2Z.inj_succ, Z.pow_succ_r; lia.
Qed.

Lemma pow2_top L : pow2 L → 2 ^ 31 ≤ L → L = 2 ^ 31.
Proof. intros HL Hle. apply pow2_range in HL. lia. Qed.

(** Once the limit has wrapped to zero the loop never leaves. *)
Lemma growLimit_zero fuel min L' : 0 ≤ min → growLimit fuel 0 min ≠ Done L'.
Proof.
  intros Hmin. induction fuel as [|fuel IH]; simpl; [done|].
  destruct (Z.leb_spec 0 min); [|lia]. done.
Qed.

Lemma growLimit_spec fuel : ∀ L min L',
  pow2 L → 0 ≤ min →
  growLimit fuel L min = Done L' →
  pow2 L' ∧ min < L' ∧ (L' = L ∨ L' ≤ 2 * min).
Proof.
  induction fuel as [|fuel IH]; intros L min L' HL Hmin Hrun; simpl in Hrun;
    [discriminate|].
  destruct (Z.leb_spec L min) as [Hle|Hgt].
  - pose proof (pow2_range L HL) as Hr.
    destruct (Z_lt_ge_dec L (2 ^ 31)) as [Hlt|Hge].
    + rewrite wrap32_small in Hrun by blia.
      replace (L * 2) with (2 * L) in Hrun by lia.
      destruct (IH _ _ _ (pow2_double L HL Hlt) Hmin Hrun) as (HL' & Hm & Hor).
      split; [done|]. split; [done|]. right. lia.
    + rewrite (pow2_top L HL) in Hrun by lia.
      change (wrap32 (2 ^ 31 * 2)) with 0 in Hrun.
      by apply growLimit_zero in Hrun.
  - injection Hrun as <-. split; [done|]. split; [lia|]. by left.
Qed.

Lemma growLimit_terminates fuel : ∀ L min,
  pow2 L → 0 ≤ min < 2 ^ 31 →
  min + 1 - L < Z.of_nat fuel → (0 < fuel)%nat →
  ∃ L', growLimit fuel L min = Done L'.
Proof.
  induction fuel as [|fuel IH]; intros L min HL Hmin Hfuel Hpos; [lia|]. simpl.
  destruct (Z.leb_spec L min) as [Hle|Hgt]; [|eauto].
  pose proof (pow2_range L HL) as Hr.
  rewrite wrap32_small by blia. replace (L * 2) with (2 * L) by lia.
  apply IH; [apply pow2_double; [done|lia]|done|lia|lia].
Qed.

(** ** One segment *)

Lemma strikeKnown_spec fuel ps : ∀ bf min max Q bf',
  Forall (λ q, 0 < q < 2 ^ 32) ps → max < 2 ^ 32 →
  Z.of_nat (length bf) = max - min + 1 →
  bits_of bf min Q →
  strikeKnown fuel ps bf min max = Done bf' →
  length bf' = length bf ∧ bits_of bf' min (Q ++ ps).
Proof.
  induction ps as [|q ps IH]; intros bf min max Q bf' Hps Hmax Hlen Hbits Hrun;
    simpl in Hrun.
  - injection Hrun as <-. by rewrite app_nil_r.
  - apply bind_Done in Hrun as (bf1 & Hq & Hrun).
    apply Forall_cons in Hps as [Hq0 Hps].
    destruct (countMultiples_bits _ _ _ _ _ _ _ Hq0 Hmax Hlen Hbits Hq)
      as [Hlen1 Hbits1].
    destruct (IH bf1 min max (Q ++ [q]) bf' Hps Hmax ltac:(lia) Hbits1 Hrun)
      as [Hlen' Hbits'].
    split; [lia|]. by rewrite <- app_assoc in Hbits'.
Qed.

Lemma strikeKnown_terminates fuel ps : ∀ bf min max,
  Forall (λ q, 0 < q < 2 ^ 32) ps → max < 2 ^ 32 → 0 ≤ min →
  Z.of_nat (length bf) = max - min + 1 →
  max + 1 < Z.of_nat fuel →
  ∃ bf', strikeKnown fuel ps bf min max = Done bf'.
Proof.
  induction ps as [|q ps IH]; intros bf min max Hps Hmax Hmin Hlen Hfuel; simpl;
    [eauto|].
  apply Forall_cons in Hps as [Hq0 Hps].
  destruct (countMultiples_terminates fuel bf q min max) as [bf1 Hq]; try done.
  rewrite Hq. simpl.
  assert (Hlen1 : length bf1 = length bf)
    by (by eapply countMultiples_length).
  apply IH; try done. lia.
Qed.

Lemma scanBitField_spec fuel n : ∀ index bf min max ps ps',
  (n + index = length bf)%nat →
  Z.of_nat (length bf) = max - min + 1 →
  2 ≤ min → max < 2 ^ 32 →
  ps = primes_between 2 (min + Z.of_nat index - 1) →
  bits_of bf min ps →
  scanBitField fuel n index bf min max ps = Done ps' →
  ps' = primes_between 2 max.
Proof.
  induction n as [|n IH]; intros index bf min max ps ps' Hn Hlen Hmin Hmax Hps
    Hbits Hrun; simpl in Hrun.
  - injection Hrun as <-. rewrite Hps. f_equal. lia.
  - destruct (bf !! index) as [b|] eqn:Hb; [|discriminate].
    pose proof (Hbits index b Hb) as Hbit.
    set (k := min + Z.of_nat index) in *.
    assert (Hk : min + Z.of_nat (S index) - 1 = k - 1 + 1) by lia.
    destruct b.
    + (* the bit is set: [k] is prime *)
      assert (Hprime : is_prime k = true).
      { destruct (is_prime k) eqn:Hpk; [done|].
        destruct (composite_prime_factor k ltac:(lia) Hpk) as (q & Hq & Hsq & Hd).
        pose proof (is_prime_ge_2 q Hq).
        assert (true = false); [|done]. apply Hbit. exists q. split; [|done].
        rewrite Hps. apply elem_of_primes_between. split; [nia|done]. }
      rewrite wrap32_small in Hrun by blia.
      replace (Z.of_nat index + min) with k in Hrun by lia.
      apply bind_Done in Hrun as (bf1 & Hstrike & Hrun).
      destruct (countMultiples_bits fuel bf k min max ps bf1) as [Hlen1 Hbits1];
        [blia|done|done|done|done|].
      apply (IH (S index) bf1 min max (ps ++ [k]) ps'); try done; [lia|lia|].
      rewrite Hk, primes_between_snoc by lia.
      replace (k - 1 + 1) with k by lia. by rewrite Hprime, Hps.
    + (* the bit is cleared: [k] is composite *)
      destruct Hbit as [Hbit _].
      destruct (Hbit eq_refl) as (q & Hq & Hsq & [c Hc]).
      rewrite Hps in Hq. apply elem_of_primes_between in Hq as [Hq2 _].
      assert (Hcomp : is_prime k = false).
      { rewrite Hc, Z.mul_comm. apply product_not_prime; nia. }
      apply (IH (S index) bf min max ps ps'); try done; [lia|].
      rewrite Hk, primes_between_snoc by lia.
      replace (k - 1 + 1) with k by lia.
      by rewrite Hcomp, app_nil_r.
Qed.

Lemma scanBitField_terminates fuel n : ∀ index bf min max ps,
  (n + index = length bf)%nat →
  Z.of_nat (length bf) = max - min + 1 →
  1 ≤ min → max < 2 ^ 32 →
  max + 1 < Z.of_nat fuel →
  ∃ ps', scanBitField fuel n index bf min max ps = Done ps'.
Proof.
  induction n as [|n IH]; intros index bf min max ps Hn Hlen Hmin Hmax Hfuel;
    simpl; [eauto|].
  destruct (lookup_lt_is_Some_2 bf index ltac:(lia)) as [b ->].
  destruct b; [|apply IH; try done; lia].
  rewrite wrap32_small by blia.
  destruct (countMultiples_terminates fuel bf (Z.of_nat index + min) min max)
    as [bf1 Hq]; try done; [blia|lia|].
  rewrite Hq. simpl.
  assert (Hlen1 : length bf1 = length bf).
  { eapply countMultiples_length; [|done|exact Hq]. blia. }
  apply IH; try done; lia.
Qed.

(** ** The invariant of an unseeded sieve *)

Lemma SieveInv_init : SieveInv Sieve_init.
Proof.
  split; simpl; [lia| |lia|done].
  exists 0%nat. split; [lia|done].
Qed.

Lemma SieveInv_tested_bound s : SieveInv s → highestTestedNum s ≤ 2 ^ 31.
Proof. intros [Ht HL _ _]. apply pow2_range in HL. lia. Qed.

Lemma SieveInv_primes_range s :
  SieveInv s → Forall (λ q, 0 < q < 2 ^ 32) (primes s).
Proof.
  intros Hs. pose proof (SieveInv_tested_bound s Hs).
  rewrite (inv_primes s Hs). apply Forall_forall. intros q Hq.
  apply elem_of_primes_between in Hq. blia.
Qed.

Lemma sqrt_limit_bound L : pow2 L → 0 ≤ Z.sqrt L < 2 ^ 16.
Proof.
  intros HL. apply pow2_range in HL. split; [apply Z.sqrt_nonneg|].
  apply Z.sqrt_lt_square; blia.
Qed.

(** A segment that returns extends the tested range and appends exactly
    the primes of the segment. *)
Lemma sieveSegment_spec fuel s s' :
  SieveInv s → sieveSegment fuel s = Done s' →
  SieveInv s' ∧ highestTestedNum s < highestTestedNum s' ∧
  highestTestedNum s' ≤ 2 * (highestTestedNum s + 1) ∧
  primes s' = primes_between 2 (highestTestedNum s').
Proof.
  intros Hs Hrun. pose proof (SieveInv_tested_bound s Hs) as Hb.
  destruct Hs as [Ht HL HLt Hps]. unfold sieveSegment in Hrun.
  rewrite wrap32_small in Hrun by blia.
  set (min := highestTestedNum s + 1) in *.
  apply bind_Done in Hrun as (L & HgL & Hrun).
  assert (Hmin0 : 0 ≤ min) by lia.
  destruct (growLimit_spec _ _ _ _ HL Hmin0 HgL) as (HL' & HminL & Hor).
  pose proof (pow2_range L HL') as HLr.
  pose proof (sqrt_limit_bound L HL') as Hroot.
  rewrite (wrap32_small (min + Z.sqrt L)) in Hrun by blia.
  set (max := Z.min L (min + Z.sqrt L)) in *.
  assert (Hmax : min ≤ max ≤ L) by lia.
  rewrite wrap32_small in Hrun by blia.
  apply bind_Done in Hrun as (bf & Hstrike & Hrun).
  apply bind_Done in Hrun as (ps & Hscan & Hrun).
  injection Hrun as <-. simpl.
  assert (Hrange : Forall (λ q, 0 < q < 2 ^ 32) (primes s)).
  { rewrite Hps. apply Forall_forall. intros q Hq.
    apply elem_of_primes_between in Hq. blia. }
  destruct (strikeKnown_spec fuel (primes s)
              (replicate (Z.to_nat (max - min + 1)) true) min max [] bf)
    as [Hlen Hbits]; try done; [blia|rewrite length_replicate; lia| |].
  { intros j b Hj. apply lookup_replicate in Hj as [-> _]. split; [done|].
    intros (q & Hq & _). by apply not_elem_of_nil in Hq. }
  rewrite length_replicate in Hlen. simpl in Hbits.
  assert (Hfinal : ps = primes_between 2 max).
  { apply (scanBitField_spec fuel (length bf) 0 bf min max (primes s) ps);
      try done; [lia|lia|blia|].
    rewrite Hps. f_equal. lia. }
  split; [|split; [lia|split; [lia|done]]].
  split; simpl; [lia|done|lia|done].
Qed.

Lemma sieveSegment_terminates fuel s :
  SieveInv s → highestTestedNum s + 1 < 2 ^ 31 →
  2 * (highestTestedNum s + 1) + 1 < Z.of_nat fuel →
  ∃ s', sieveSegment fuel s = Done s'.
Proof.
  intros Hs Hb Hfuel. pose proof (SieveInv_primes_range s Hs) as Hrange.
  destruct Hs as [Ht HL HLt Hps]. unfold sieveSegment.
  rewrite wrap32_small by blia.
  set (min := highestTestedNum s + 1) in *.
  pose proof (pow2_range _ HL) as HL0.
  destruct (growLimit_terminates fuel (sieveLimit s) min) as [L HgL];
    [done|lia|lia|lia|].
  rewrite HgL. simpl.
  assert (Hmin0 : 0 ≤ min) by lia.
  destruct (growLimit_spec _ _ _ _ HL Hmin0 HgL) as (HL' & HminL & Hor).
  pose proof (pow2_range L HL') as HLr.
  pose proof (sqrt_limit_bound L HL') as Hroot.
  rewrite (wrap32_small (min + Z.sqrt L)) by blia.
  set (max := Z.min L (min + Z.sqrt L)) in *.
  assert (Hmax : min ≤ max ≤ L) by lia.
  assert (Hmax2 : max ≤ 2 * min) by lia.
  rewrite wrap32_small by blia.
  destruct (strikeKnown_terminates fuel (primes s)
              (replicate (Z.to_nat (max - min + 1)) true) min max)
    as [bf Hstrike]; [done|blia|lia|rewrite length_replicate; lia|lia|].
  rewrite Hstrike. simpl.
  destruct (strikeKnown_spec fuel (primes s)
              (replicate (Z.to_nat (max - min + 1)) true) min max [] bf)
    as [Hlen _]; [done|blia|rewrite length_replicate; lia| |done|].
  { intros j b Hj. apply lookup_replicate in Hj as [-> _]. split; [done|].
    intros (q & Hq & _). by apply not_elem_of_nil in Hq. }
  rewrite length_replicate in Hlen.
  destruct (scanBitField_terminates fuel (length bf) 0 bf min max (primes s))
    as [ps Hscan]; [lia|lia|lia|blia|lia|].
  rewrite Hscan. simpl. eauto.
Qed.

(** ** The sieve loop and [getPrimeNumber] *)

Lemma sieve_spec fuel : ∀ numPrimes s s',
  SieveInv s → sieve fuel numPrimes s = Done s' →
  SieveInv s' ∧ highestTestedNum s ≤ highestTestedNum s' ∧
  numPrimes ≤ Z.of_nat (length (primes s')).
Proof.
  induction fuel as [|fuel IH]; intros n s s' Hs Hrun; simpl in Hrun;
    [discriminate|].
  destruct (Z.ltb_spec (Z.of_nat (length (primes s))) n) as [Hlt|Hge].
  - apply bind_Done in Hrun as (s1 & Hseg & Hrun).
    destruct (sieveSegment_spec _ _ _ Hs Hseg) as (Hs1 & Hgrow & _).
    destruct (IH _ _ _ Hs1 Hrun) as (Hs' & Hle & Hlen).
    split; [done|]. split; [lia|done].
  - injection Hrun as <-. split; [done|]. split; [lia|done].
Qed.

Lemma sieve_terminates fuel : ∀ (i : nat) p s,
  SieveInv s → IsNthPrime i p → p < 2 ^ 31 →
  2 * p + 2 + Z.max 0 (p - highestTestedNum s) < Z.of_nat fuel →
  ∃ s', sieve fuel (Z.of_nat i + 1) s = Done s'.
Proof.
  induction fuel as [|fuel IH]; intros i p s Hs Hp Hb Hfuel;
    pose proof (is_prime_ge_2 p (proj1 Hp)); [lia|]. simpl.
  destruct (Z.ltb_spec (Z.of_nat (length (primes s))) (Z.of_nat i + 1))
    as [Hlt|Hge]; [|eauto].
  assert (Hshort : highestTestedNum s < p).
  { apply (short_primes_between i); [done|].
    rewrite <- (inv_primes s Hs). lia. }
  destruct (sieveSegment_terminates fuel s) as [s1 Hseg]; [done|lia|lia|].
  rewrite Hseg. simpl.
  destruct (sieveSegment_spec _ _ _ Hs Hseg) as (Hs1 & Hgrow & _).
  apply (IH i p s1); try done. lia.
Qed.

(** Whenever [getPrimeNumber] returns, it returns the prime of the index
    asked for. *)
Lemma getPrimeNumber_spec fuel index s p s' :
  SieveInv s →
  getPrimeNumber fuel index s = Done (p, s') →
  SieveInv s' ∧ IsNthPrime (Z.to_nat index) p ∧ p ≤ highestTestedNum s' ∧
  highestTestedNum s ≤ highestTestedNum s'.
Proof.
  intros Hs Hrun. unfold getPrimeNumber in Hrun.
  apply bind_Done in Hrun as (s1 & Hsieve & Hrun).
  destruct (primes s1 !! Z.to_nat index) as [q|] eqn:Hq; [|discriminate].
  injection Hrun as <- <-.
  destruct (sieve_spec _ _ _ _ Hs Hsieve) as (Hs1 & Hle & _).
  rewrite (inv_primes s1 Hs1) in Hq.
  apply lookup_primes_between_inv in Hq as [Hn Hq]. done.
Qed.

Lemma IsNthPrime_index_le i p : IsNthPrime i p → Z.of_nat i ≤ p.
Proof.
  intros [Hp <-]. pose proof (is_prime_ge_2 p Hp).
  pose proof (length_primes_between 2 (p - 1) ltac:(lia)). lia.
Qed.

(** With enough fuel [getPrimeNumber] returns, for every index whose prime
    is below 2^31. *)
Lemma getPrimeNumber_returns fuel (i : nat) p s :
  SieveInv s → IsNthPrime i p → p < 2 ^ 31 →
  3 * p + 2 < Z.of_nat fuel →
  ∃ s', getPrimeNumber fuel (Z.of_nat i) s = Done (p, s') ∧ SieveInv s'.
Proof.
  intros Hs Hp Hb Hfuel. pose proof (IsNthPrime_index_le i p Hp) as Hi.
  pose proof (inv_tested s Hs) as Ht.
  unfold getPrimeNumber. rewrite wrap64_small by blia.
  destruct (sieve_terminates fuel i p s) as [s1 Hsieve]; [done..|lia|].
  rewrite Hsieve. simpl.
  destruct (sieve_spec _ _ _ _ Hs Hsieve) as (Hs1 & _ & Hlen).
  rewrite Nat2Z.id.
  assert (Hge : p ≤ highestTestedNum s1).
  { destruct (Z_le_gt_dec p (highestTestedNum s1)) as [|Hgt]; [done|].
    assert (Hshort : (length (primes_between 2 (highestTestedNum s1)) ≤ i)%nat).
    { destruct (decide (length (primes_between 2 (highestTestedNum s1)) ≤ i)%nat)
        as [|Hlong]; [done|].
      destruct (lookup_lt_is_Some_2 (primes_between 2 (highestTestedNum s1)) i
                  ltac:(lia)) as [q Hq].
      apply lookup_primes_between_inv in Hq as [Hq Hqle].
      pose proof (IsNthPrime_unique i p q Hp Hq). lia. }
    rewrite <- (inv_primes s1 Hs1) in Hshort. lia. }
  rewrite (inv_primes s1 Hs1), (lookup_primes_between i p _ Hp Hge). eauto.
Qed.

Lemma sieve_reachable_inv s : sieve_reachable s → SieveInv s.
Proof.
  induction 1 as [|s fuel index p s' _ IH Hi Hrun]; [apply SieveInv_init|].
  by destruct (getPrimeNumber_spec _ _ _ _ _ IH Hrun) as [? _].
Qed.

(** The list of primes of a sieve never holds 2^31 numbers. *)
Lemma SieveInv_length s :
  SieveInv s → Z.of_nat (length (primes s)) < 2 ^ 31.
Proof.
  intros Hs. pose proof (SieveInv_tested_bound s Hs).
  pose proof (inv_tested s Hs).
  rewrite (inv_primes s Hs).
  pose proof (length_primes_between 2 (highestTestedNum s) ltac:(lia)). lia.
Qed.

(** ** The priority queue of holes *)

Lemma pq_push_perm x q : pq_push x q ≡ₚ x :: q.
Proof.
  induction q as [|y q IH]; simpl; [done|].
  destruct (y <=? x); [done|]. rewrite IH. apply Permutation_swap.
Qed.

Lemma pq_push_sorted x q :
  StronglySorted (λ a b, b ≤ a) q → StronglySorted (λ a b, b ≤ a) (pq_push x q).
Proof.
  induction 1 as [|y q Hq IH Hy]; simpl.
  - repeat constructor.
  - destruct (Z.leb_spec y x) as [Hle|Hgt].
    + constructor; [by constructor|].
      constructor; [done|]. eapply Forall_impl; [exact Hy|].
      intros z Hz. simpl in Hz. lia.
    + constructor; [done|]. rewrite pq_push_perm.
      constructor; [lia|done].
Qed.

(** ** The invariant of a table constructed without seed *)

Section TableProofs.
Context {V : Type} `{Countable V}.
Implicit Types t : PrimeTable V.

Lemma TableInv_new : TableInv (PrimeTable_new (V := V)).
Proof.
  split; simpl; [apply SieveInv_init|constructor|constructor| |done|by left].
  apply map_Forall_empty.
Qed.

Lemma getPrimeNumber_ge_2 fuel index s p s' :
  SieveInv s → getPrimeNumber fuel index s = Done (p, s') →
  SieveInv s' ∧ 2 ≤ p ≤ highestTestedNum s' ∧
  highestTestedNum s ≤ highestTestedNum s'.
Proof.
  intros Hs Hrun.
  destruct (getPrimeNumber_spec _ _ _ _ _ Hs Hrun) as (Hs' & [Hp _] & Hle & Hm).
  apply is_prime_ge_2 in Hp. done.
Qed.

Lemma future_get_spec fuel t p s' :
  TableInv t →
  future_get fuel (nextPrime t) (sieveOfEratosthenes t) = Done (p, s') →
  SieveInv s' ∧ 2 ≤ p ≤ highestTestedNum s' ∧
  highestTestedNum (sieveOfEratosthenes t) ≤ highestTestedNum s'.
Proof.
  intros Ht Hrun. destruct (nextPrime t) as [|index|value] eqn:Hn;
    simpl in Hrun; [discriminate| |].
  - by apply getPrimeNumber_ge_2 in Hrun; [|apply Ht].
  - injection Hrun as <- <-. split; [apply Ht|].
    split; [by apply (tinv_ready t Ht)|lia].
Qed.

(** What [add] returns and how it leaves the table. *)
Lemma PrimeTable_add_spec fuel value t p t' :
  TableInv t → PrimeTable_add fuel value t = Done (p, t') →
  TableInv t' ∧ 2 ≤ p ∧ primeMap t' !! value = Some p ∧
  highestTestedNum (sieveOfEratosthenes t)
    ≤ highestTestedNum (sieveOfEratosthenes t') ∧
  2 ≤ highestTestedNum (sieveOfEratosthenes t').
Proof.
  intros Ht Hrun. unfold PrimeTable_add in Hrun.
  destruct (primeMap t !! value) as [q|] eqn:Hv.
  { injection Hrun as <- <-.
    pose proof (tinv_map t Ht value q Hv) as Hq. simpl in Hq.
    split; [done|]. split; [done|]. split; [done|]. split; [lia|].
    destruct (tinv_primes t Ht) as [[Hm _]|]; [|done].
    rewrite Hm in Hv. by rewrite lookup_empty in Hv. }
  apply bind_Done in Hrun as ([q t1] & Hpick & Hrun).
  injection Hrun as <- <-.
  assert (Hmid : SieveInv (sieveOfEratosthenes t1) ∧
            Forall (λ p, 2 ≤ p) (primeHoles t1) ∧
            StronglySorted (λ a b, b ≤ a) (primeHoles t1) ∧
            primeMap t1 = primeMap t ∧
            (∀ v, nextPrime t1 = Ready v →
                  2 ≤ v ≤ highestTestedNum (sieveOfEratosthenes t1)) ∧
            2 ≤ q ∧
            highestTestedNum (sieveOfEratosthenes t)
              ≤ highestTestedNum (sieveOfEratosthenes t1) ∧
            2 ≤ highestTestedNum (sieveOfEratosthenes t1)).
  { destruct (primeHoles t) as [|top rest] eqn:Hholes; simpl in Hpick.
    - apply bind_Done in Hpick as ([q' s] & Hget & Hpick).
      injection Hpick as <- <-. simpl.
      assert (Hq : SieveInv s ∧ 2 ≤ q' ≤ highestTestedNum s ∧
                highestTestedNum (sieveOfEratosthenes t) ≤ highestTestedNum s).
      { destruct (valid (nextPrime t)).
        - by apply future_get_spec in Hget.
        - by apply getPrimeNumber_ge_2 in Hget; [|apply Ht]. }
      destruct Hq as (Hs & Hq & Hle).
      split_and!; try done; try lia; constructor.
    - injection Hpick as <- <-. simpl.
      pose proof (tinv_holes t Ht) as Hh. pose proof (tinv_sorted t Ht) as Hso.
      rewrite Hholes in Hh, Hso.
      apply Forall_cons in Hh as [Htop Hrest].
      apply StronglySorted_inv in Hso as [Hso _].
      destruct (tinv_primes t Ht) as [[_ Hm]|Hp]; [congruence|].
      split_and!; try done; try lia; apply Ht. }
  destruct Hmid as (Hs & Hh & Hso & Hm & Hr & Hq & Hle & Hp).
  split_and!; simpl; try done; [|by rewrite lookup_insert_eq].
  split; simpl; try done; [|by right].
  apply map_Forall_insert_2; [done|]. rewrite Hm. apply Ht.
Qed.

Lemma PrimeTable_remove_spec value t :
  TableInv t →
  TableInv (PrimeTable_remove value t).2 ∧
  sieveOfEratosthenes (PrimeTable_remove value t).2 = sieveOfEratosthenes t.
Proof.
  intros Ht. unfold PrimeTable_remove.
  destruct (primeMap t !! value) as [q|] eqn:Hv; simpl; [|done].
  split; [|done].
  pose proof (tinv_map t Ht value q Hv) as Hq. simpl in Hq.
  split; simpl; try apply Ht.
  - rewrite pq_push_perm. constructor; [done|apply Ht].
  - apply pq_push_sorted, Ht.
  - apply map_Forall_delete, Ht.
  - right. destruct (tinv_primes t Ht) as [[Hm _]|]; [|done].
    rewrite Hm in Hv. by rewrite lookup_empty in Hv.
Qed.

Lemma PrimeTable_clear_spec fuel t t' :
  TableInv t → PrimeTable_clear fuel t = Done t' →
  TableInv t' ∧
  highestTestedNum (sieveOfEratosthenes t)
    ≤ highestTestedNum (sieveOfEratosthenes t').
Proof.
  intros Ht Hrun. unfold PrimeTable_clear in Hrun.
  apply bind_Done in Hrun as ([q s] & Hget & Hrun). injection Hrun as <-.
  apply future_get_spec in Hget as (Hs & Hq & Hle); [|done].
  split; [|done]. split; simpl; try done; try apply Ht.
  right. lia.
Qed.

Lemma PrimeTable_background_spec fuel t t' :
  TableInv t → PrimeTable_background fuel t = Done t' →
  TableInv t' ∧
  highestTestedNum (sieveOfEratosthenes t)
    ≤ highestTestedNum (sieveOfEratosthenes t').
Proof.
  intros Ht Hrun. unfold PrimeTable_background in Hrun.
  destruct (nextPrime t) as [|index|value] eqn:Hn;
    try (injection Hrun as <-; split; [done|lia]).
  apply bind_Done in Hrun as ([q s] & Hget & Hrun). injection Hrun as <-.
  apply getPrimeNumber_ge_2 in Hget as (Hs & Hq & Hle); [|apply Ht].
  split; [|done]. split; simpl; try done; try apply Ht.
  - by intros v [= <-].
  - right. lia.
Qed.

Lemma table_step_spec fuel o t t' :
  TableInv t → table_step fuel o t = Done t' →
  TableInv t' ∧
  highestTestedNum (sieveOfEratosthenes t)
    ≤ highestTestedNum (sieveOfEratosthenes t').
Proof.
  intros Ht Hrun. destruct o as [value|value| |]; simpl in Hrun.
  - apply bind_Done in Hrun as ([q t1] & Hadd & Hrun). injection Hrun as <-.
    by apply PrimeTable_add_spec in Hadd as (? & _ & _ & ? & _).
  - injection Hrun as <-.
    destruct (PrimeTable_remove_spec value t Ht) as [Ht' ->]. split; [done|lia].
  - by apply PrimeTable_clear_spec in Hrun.
  - by apply PrimeTable_background_spec in Hrun.
Qed.

Lemma table_reachable_inv t : table_reachable t → TableInv t.
Proof.
  induction 1 as [|t o fuel t' _ IH Hstep]; [apply TableInv_new|].
  by apply table_step_spec in Hstep as [? _].
Qed.

(** With a hole in the pool, [add] of a value that has no prime takes the
    first hole of the queue. *)
Lemma PrimeTable_add_hole fuel value t top rest :
  primeMap t !! value = None → primeHoles t = top :: rest →
  PrimeTable_add fuel value t =
    Done (top, mkTable (nextPrime t) (sieveOfEratosthenes t) rest
                 (<[value := top]> (primeMap t))
                 (<[top := value]> (reversePrimeMap t))).
Proof.
  intros Hv Hholes. unfold PrimeTable_add. rewrite Hv, Hholes. done.
Qed.

End TableProofs.

(** ** Bags in the store *)

Lemma containsHash_Done hash otherHash :
  otherHash ≠ 0 → containsHash hash otherHash = Done (Z.rem hash otherHash =? 0).
Proof. intros Hne. unfold containsHash. by rewrite (proj2 (Z.eqb_neq _ _) Hne). Qed.

Lemma bignum_div_Done hash divisor :
  divisor ≠ 0 → bignum_div hash divisor = Done (Z.quot hash divisor).
Proof. intros Hne. unfold bignum_div. by rewrite (proj2 (Z.eqb_neq _ _) Hne). Qed.

Lemma quot_exact_pos h d : 1 ≤ h → 1 ≤ d → Z.rem h d = 0 → 1 ≤ Z.quot h d.
Proof.
  intros Hh Hd Hrem. pose proof (Z.quot_rem' h d) as Heq.
  rewrite Hrem in Heq. nia.
Qed.

Section WorldProofs.
Context {V : Type} `{Countable V}.
Implicit Types (w : world V) (t : PrimeTable V) (b : PrimeBag).

Lemma load_Done {A} (m : gmap ptr A) p a : load m p = Done a ↔ m !! p = Some a.
Proof. unfold load. destruct (m !! p); split; intros Heq; by simplify_eq. Qed.

Lemma load_Some {A} (m : gmap ptr A) p a : m !! p = Some a → load m p = Done a.
Proof. apply load_Done. Qed.

Lemma WorldInv_empty : WorldInv (empty_world (V := V)).
Proof. split; simpl; intros *; by rewrite lookup_empty. Qed.

Lemma WorldInv_set_table w tp t' :
  WorldInv w → TableInv t' →
  (∀ t, tables w !! tp = Some t →
        highestTestedNum (sieveOfEratosthenes t)
          ≤ highestTestedNum (sieveOfEratosthenes t')) →
  WorldInv (set_table tp t' w).
Proof.
  intros Hw Ht' Hmono. split; simpl.
  - intros tp1 t1. rewrite lookup_insert. case_decide; [by intros [= <-]|].
    exact (winv_tables w Hw tp1 t1).
  - intros bp b Hb. rewrite lookup_insert. case_decide; [done|].
    by eapply winv_bound.
  - exact (winv_hash w Hw).
  - exact (winv_length w Hw).
  - intros bp b t1 Hb. rewrite lookup_insert. case_decide as Heq.
    + intros [= <-]. destruct (winv_bound w Hw bp b Hb) as [t0 Ht0].
      destruct (winv_fresh w Hw bp b t0 Hb Ht0) as [|Hp]; [by left|].
      right. rewrite <- Heq in Ht0. specialize (Hmono t0 Ht0). lia.
    + exact (winv_fresh w Hw bp b t1 Hb).
Qed.

Lemma WorldInv_set_bag w bp b' :
  WorldInv w →
  is_Some (tables w !! Bag.globalTable b') →
  1 ≤ Bag.hash b' → 0 ≤ Bag.length b' < 2 ^ 32 →
  (∀ t, tables w !! Bag.globalTable b' = Some t →
        bag_fresh b' ∨ 2 ≤ highestTestedNum (sieveOfEratosthenes t)) →
  WorldInv (set_bag bp b' w).
Proof.
  intros Hw Hb Hh Hl Hf. split; simpl.
  - exact (winv_tables w Hw).
  - intros bp1 b1. rewrite lookup_insert. case_decide; [by intros [= <-]|].
    exact (winv_bound w Hw bp1 b1).
  - intros bp1 b1. rewrite lookup_insert. case_decide; [by intros [= <-]|].
    exact (winv_hash w Hw bp1 b1).
  - intros bp1 b1. rewrite lookup_insert. case_decide; [by intros [= <-]|].
    exact (winv_length w Hw bp1 b1).
  - intros bp1 b1 t1. rewrite lookup_insert.
    case_decide; [|exact (winv_fresh w Hw bp1 b1 t1)].
    intros [= <-]. apply Hf.
Qed.

(** *** What the operations of a bag do *)

Lemma PrimeBag_add_Done fuel this value w w' :
  PrimeBag_add fuel this value w = Done w' →
  ∃ b t p t',
    bags w !! this = Some b ∧ tables w !! Bag.globalTable b = Some t ∧
    PrimeTable_add fuel value t = Done (p, t') ∧
    w' = set_bag this
           (Bag.mk (Bag.globalTable b) (Bag.hash b * p)
              (wrap32 (Bag.length b + 1)))
           (set_table (Bag.globalTable b) t' w).
Proof.
  intros Hrun. unfold PrimeBag_add in Hrun.
  apply bind_Done in Hrun as (b & Hb & Hrun).
  apply bind_Done in Hrun as (t & Ht & Hrun).
  apply bind_Done in Hrun as ([p t'] & Hadd & Hrun).
  injection Hrun as <-. apply load_Done in Hb, Ht. by exists b, t, p, t'.
Qed.

Lemma PrimeBag_add_bag_spec this bag w b o :
  bags w !! this = Some b → bags w !! bag = Some o →
  PrimeBag_add_bag this bag w =
    Done (if decide (Bag.globalTable o = Bag.globalTable b) then
            set_bag this
              (Bag.mk (Bag.globalTable b) (Bag.hash b * Bag.hash o)
                 (wrap32 (Bag.length b + Bag.length o))) w
          else w).
Proof.
  intros Hb Ho. unfold PrimeBag_add_bag.
  rewrite (load_Some _ _ _ Hb), (load_Some _ _ _ Ho). simpl.
  case_decide; [|done].
  unfold load, set_bag. simpl. rewrite lookup_insert.
  destruct (decide (this = bag)) as [->|Hneq]; simpl.
  - rewrite insert_insert_eq. by replace o with b by congruence.
  - rewrite Ho. simpl. by rewrite insert_insert_eq.
Qed.

Lemma PrimeBag_remove_bag_spec this bag w b o :
  bags w !! this = Some b → bags w !! bag = Some o → Bag.hash o ≠ 0 →
  PrimeBag_remove_bag this bag w =
    Done (if decide (Bag.globalTable o = Bag.globalTable b) then
            if (Bag.length o <=? Bag.length b)
               && (Z.rem (Bag.hash b) (Bag.hash o) =? 0) then
              (true,
               set_bag this
                 (Bag.mk (Bag.globalTable b)
                    (Z.quot (Bag.hash b) (Bag.hash o))
                    (wrap32 (Bag.length b -
                       (if decide (bag = this) then Bag.length b
                        else Bag.length o)))) w)
            else (false, w)
          else (false, w)).
Proof.
  intros Hb Ho Hne. unfold PrimeBag_remove_bag.
  rewrite (load_Some _ _ _ Hb), (load_Some _ _ _ Ho). simpl.
  case_decide; [|done].
  destruct (Bag.length o <=? Bag.length b); simpl; [|done].
  rewrite containsHash_Done by done. simpl.
  destruct (Z.rem (Bag.hash b) (Bag.hash o) =? 0); [|done].
  rewrite bignum_div_Done by done. simpl.
  unfold load, set_bag. simpl. rewrite lookup_insert.
  destruct (decide (this = bag)) as [->|Hneq]; simpl.
  - rewrite decide_True by done. by rewrite insert_insert_eq.
  - rewrite decide_False by done. rewrite Ho. simpl.
    by rewrite insert_insert_eq.
Qed.

Lemma PrimeBag_remove_spec this value w b t :
  bags w !! this = Some b → tables w !! Bag.globalTable b = Some t →
  PrimeBag_remove this value w =
    Done (if negb (PrimeTable_getPrime value t =? 0)
             && (Z.rem (Bag.hash b) (PrimeTable_getPrime value t) =? 0) then
            (true,
             set_bag this
               (Bag.mk (Bag.globalTable b)
                  (Z.quot (Bag.hash b) (PrimeTable_getPrime value t))
                  (wrap32 (Bag.length b - 1))) w)
          else (false, w)).
Proof.
  intros Hb Ht. unfold PrimeBag_remove.
  rewrite (load_Some _ _ _ Hb). simpl. rewrite (load_Some _ _ _ Ht). simpl.
  destruct (Z.eqb_spec (PrimeTable_getPrime value t) 0) as [|Hne]; simpl;
    [done|].
  rewrite containsHash_Done by done. simpl.
  destruct (Z.rem (Bag.hash b) (PrimeTable_getPrime value t) =? 0); [|done].
  by rewrite bignum_div_Done by done.
Qed.

Lemma getPrime_nonzero value t :
  TableInv t → PrimeTable_getPrime value t ≠ 0 →
  primeMap t !! value = Some (PrimeTable_getPrime value t) ∧
  2 ≤ PrimeTable_getPrime value t ∧
  2 ≤ highestTestedNum (sieveOfEratosthenes t).
Proof.
  intros Ht Hne. unfold PrimeTable_getPrime in *.
  destruct (primeMap t !! value) as [p|] eqn:Hv; [|done].
  split; [done|]. split; [exact (tinv_map t Ht value p Hv)|].
  destruct (tinv_primes t Ht) as [[Hm _]|]; [|done].
  rewrite Hm in Hv. by rewrite lookup_empty in Hv.
Qed.

Lemma rem_one_zero h : 1 ≤ h → Z.rem 1 h = 0 → h = 1.
Proof.
  intros Hh Hrem. destruct (decide (h = 1)) as [|Hne]; [done|].
  rewrite Z.rem_small in Hrem by lia. done.
Qed.

(** *** Every call preserves the invariant of the store *)

Lemma step_inv fuel o w w' : WorldInv w → step fuel o w = Done w' → WorldInv w'.
Proof.
  intros Hw Hrun.
  destruct o as [tp|bp tp|tp o|bp v|bp other|bp v|bp other|bp];
    simpl in Hrun.
  - (* NewTable *)
    destruct (tables w !! tp) eqn:Htp; [discriminate|]. injection Hrun as <-.
    apply WorldInv_set_table; [done|apply TableInv_new|].
    intros t Ht. congruence.
  - (* NewBag *)
    destruct (bags w !! bp) eqn:Hbp; [discriminate|].
    destruct (tables w !! tp) as [t|] eqn:Htp; [|discriminate].
    injection Hrun as <-.
    apply WorldInv_set_bag; simpl; [done|by eexists|lia|blia|].
    intros t0 _. by left.
  - (* OnTable *)
    apply bind_Done in Hrun as (t & Ht & Hrun). apply load_Done in Ht.
    apply bind_Done in Hrun as (t' & Hstep & Hrun). injection Hrun as <-.
    destruct (table_step_spec fuel o t t' (winv_tables w Hw tp t Ht) Hstep)
      as [Ht' Hmono].
    apply WorldInv_set_table; [done|done|].
    intros t0 Ht0. by replace t0 with t by congruence.
  - (* BagAdd *)
    apply PrimeBag_add_Done in Hrun as (b & t & p & t' & Hb & Ht & Hadd & ->).
    destruct (PrimeTable_add_spec fuel v t p t' (winv_tables w Hw _ t Ht) Hadd)
      as (Ht' & Hp & _ & Hmono & Hprimes).
    pose proof (winv_hash w Hw bp b Hb). pose proof (winv_length w Hw bp b Hb).
    apply WorldInv_set_bag; simpl.
    + apply WorldInv_set_table; [done|done|].
      intros t0 Ht0. by replace t0 with t by congruence.
    + rewrite lookup_insert_eq. by eexists.
    + nia.
    + apply wrap32_range.
    + intros t0. rewrite lookup_insert_eq. intros [= <-]. by right.
  - (* BagAddBag *)
    destruct (bags w !! bp) as [b|] eqn:Hb;
      [|unfold PrimeBag_add_bag, load in Hrun; by rewrite Hb in Hrun].
    destruct (bags w !! other) as [o|] eqn:Ho;
      [|unfold PrimeBag_add_bag, load in Hrun; by rewrite Hb, Ho in Hrun].
    rewrite (PrimeBag_add_bag_spec bp other w b o Hb Ho) in Hrun.
    injection Hrun as <-. case_decide as Hsame; [|done].
    pose proof (winv_hash w Hw bp b Hb). pose proof (winv_hash w Hw other o Ho).
    apply WorldInv_set_bag; simpl.
    + done.
    + exact (winv_bound w Hw bp b Hb).
    + nia.
    + apply wrap32_range.
    + intros t Ht.
      destruct (winv_fresh w Hw bp b t Hb Ht) as [[Hh Hl]|]; [|by right].
      rewrite <- Hsame in Ht.
      destruct (winv_fresh w Hw other o t Ho Ht) as [[Hh' Hl']|]; [|by right].
      left. split; simpl; [lia|]. by rewrite Hl, Hl'.
  - (* BagRemove *)
    apply bind_Done in Hrun as ([r w1] & Hrem & Hrun). injection Hrun as <-.
    destruct (bags w !! bp) as [b|] eqn:Hb;
      [|unfold PrimeBag_remove, load in Hrem; by rewrite Hb in Hrem].
    destruct (winv_bound w Hw bp b Hb) as [t Ht].
    rewrite (PrimeBag_remove_spec bp v w b t Hb Ht) in Hrem.
    destruct (negb (PrimeTable_getPrime v t =? 0)
              && (Z.rem (Bag.hash b) (PrimeTable_getPrime v t) =? 0)) eqn:Hc;
      injection Hrem as <- <-; [|done].
    apply andb_true_iff in Hc as [Hnz Hdiv].
    apply negb_true_iff, Z.eqb_neq in Hnz. apply Z.eqb_eq in Hdiv.
    destruct (getPrime_nonzero v t (winv_tables w Hw _ t Ht) Hnz)
      as (_ & Hp & Hprimes).
    pose proof (winv_hash w Hw bp b Hb).
    apply WorldInv_set_bag; simpl.
    + done.
    + by eexists.
    + apply quot_exact_pos; [done|lia|done].
    + apply wrap32_range.
    + intros t0 Ht0. right. by replace t0 with t by congruence.
  - (* BagRemoveBag *)
    apply bind_Done in Hrun as ([r w1] & Hrem & Hrun). injection Hrun as <-.
    destruct (bags w !! bp) as [b|] eqn:Hb;
      [|unfold PrimeBag_remove_bag, load in Hrem; by rewrite Hb in Hrem].
    destruct (bags w !! other) as [o|] eqn:Ho;
      [|unfold PrimeBag_remove_bag, load in Hrem; by rewrite Hb, Ho in Hrem].
    pose proof (winv_hash w Hw bp b Hb). pose proof (winv_hash w Hw other o Ho).
    pose proof (winv_length w Hw bp b Hb) as Hlb.
    pose proof (winv_length w Hw other o Ho) as Hlo.
    rewrite (PrimeBag_remove_bag_spec bp other w b o Hb Ho) in Hrem by lia.
    case_decide as Hsame; [|by injection Hrem as <- <-].
    destruct ((Bag.length o <=? Bag.length b)
              && (Z.rem (Bag.hash b) (Bag.hash o) =? 0)) eqn:Hc;
      injection Hrem as <- <-; [|done].
    apply andb_true_iff in Hc as [Hle Hdiv].
    apply Z.leb_le in Hle. apply Z.eqb_eq in Hdiv.
    apply WorldInv_set_bag; simpl.
    + done.
    + exact (winv_bound w Hw bp b Hb).
    + by apply quot_exact_pos.
    + apply wrap32_range.
    + intros t Ht.
      destruct (winv_fresh w Hw bp b t Hb Ht) as [[Hh Hl]|]; [|by right].
      left. rewrite Hh in Hdiv. apply rem_one_zero in Hdiv; [|done].
      split; simpl; [by rewrite Hh, Hdiv|].
      replace (Bag.length o) with 0 by lia. rewrite Hl.
      by destruct (decide (other = bp)).
  - (* BagClear *)
    apply bind_Done in Hrun as (b & Hb & Hrun). apply load_Done in Hb.
    injection Hrun as <-.
    apply WorldInv_set_bag; simpl;
      [done|exact (winv_bound w Hw bp b Hb)|lia|blia|].
    intros t0 _. by left.
Qed.

Lemma reachable_inv w : reachable w → WorldInv w.
Proof.
  induction 1 as [|w o fuel w' _ IH Hstep]; [apply WorldInv_empty|].
  by eapply step_inv.
Qed.

End WorldProofs.

(** ** Programs *)

Section ProgramProofs.
Context {V : Type} `{Countable V}.

Lemma run_table_reachable fuel ops : ∀ (t t' : PrimeTable V),
  table_reachable t → run_table fuel ops t = Done t' → table_reachable t'.
Proof.
  induction ops as [|o ops IH]; intros t t' Ht Hrun; simpl in Hrun.
  - by injection Hrun as <-.
  - apply bind_Done in Hrun as (t1 & Hstep & Hrun).
    apply (IH t1); [|done]. by eapply table_reachable_step.
Qed.

Lemma run_reachable fuel ops : ∀ (w w' : world V),
  reachable w → run fuel ops w = Done w' → reachable w'.
Proof.
  induction ops as [|o ops IH]; intros w w' Hw Hrun; simpl in Hrun.
  - by injection Hrun as <-.
  - apply bind_Done in Hrun as (w1 & Hstep & Hrun).
    apply (IH w1); [|done]. by eapply reachable_step.
Qed.

End ProgramProofs.

(** ** The limit of the sieve and of the registry *)

Lemma is_prime_not_2_31 p : is_prime p = true → p ≠ 2 ^ 31.
Proof.
  intros Hp ->. apply is_prime_spec in Hp as [_ Hall].
  apply (Hall 2); [blia|]. exists (2 ^ 30). reflexivity.
Qed.

(** From no state of an unseeded sieve does [getPrimeNumber] return on an
    index whose prime is not below 2^31. *)
Lemma getPrimeNumber_never_returns s (i : nat) p :
  SieveInv s → IsNthPrime i p → 2 ^ 31 ≤ p →
  ∀ fuel r, getPrimeNumber fuel (Z.of_nat i) s ≠ Done r.
Proof.
  intros Hs Hp Hge fuel [q s'] Hrun.
  destruct (getPrimeNumber_spec _ _ _ _ _ Hs Hrun) as (Hs' & Hq & Hle & _).
  rewrite Nat2Z.id in Hq. pose proof (IsNthPrime_unique i p q Hp Hq) as <-.
  pose proof (SieveInv_tested_bound s' Hs').
  pose proof (is_prime_not_2_31 p (proj1 Hp)). lia.
Qed.

(** Every number from 2 on has a prime divisor. *)
Lemma prime_divisor_exists n : 2 ≤ n → ∃ p, is_prime p = true ∧ (p | n).
Proof.
  intros Hn. assert (Hpos : 0 ≤ n) by lia. revert Hn. pattern n.
  apply Z_lt_induction; [|exact Hpos]. clear n Hpos. intros n IH Hn.
  destruct (is_prime n) eqn:Hp.
  - exists n. split; [exact Hp|]. apply Z.divide_refl.
  - destruct (not_prime_divisor n Hn Hp) as (d & Hd & Hdn).
    destruct (IH d ltac:(lia) ltac:(lia)) as (p & Hpp & Hpd).
    exists p. split; [exact Hpp|]. by apply (Z.divide_trans p d n).
Qed.

(** A common multiple of the numbers from 1 to [n]. *)
Lemma common_multiple (n : nat) :
  ∃ F, 0 < F ∧ ∀ k, 1 ≤ k ≤ Z.of_nat n → (k | F).
Proof.
  induction n as [|n (F & HF & Hall)].
  { exists 1. split; [lia|]. intros k Hk. lia. }
  exists (F * Z.of_nat (S n)). split; [nia|]. intros k Hk.
  destruct (decide (k = Z.of_nat (S n))) as [->|Hne].
  - apply Z.divide_factor_r.
  - apply Z.divide_mul_l. apply Hall. lia.
Qed.

(** There are primes from every bound on. *)
Lemma prime_above B : ∃ p, is_prime p = true ∧ B ≤ p.
Proof.
  destruct (common_multiple (Z.to_nat (Z.max B 2))) as (F & HF & Hall).
  destruct (prime_divisor_exists (F + 1) ltac:(lia)) as (p & Hp & Hdiv).
  exists p. split; [exact Hp|].
  destruct (Z_le_gt_dec B p) as [|Hlt]; [done|].
  pose proof (is_prime_ge_2 p Hp) as Hp2.
  assert (HpF : (p | F)) by (apply Hall; lia).
  assert (Hp1 : (p | 1)).
  { apply (Z.divide_add_cancel_r p F 1); done. }
  apply Z.divide_1_r in Hp1. lia.
Qed.

(** The first prime from a bound on, and its index. *)
Lemma first_prime_from B P :
  2 ≤ B → B ≤ P → is_prime P = true →
  ∃ (n : nat) p, IsNthPrime n p ∧ B ≤ p ∧
    ∀ i, (i < n)%nat → ∃ q, IsNthPrime i q ∧ q < B.
Proof.
  intros HB HP Hprime.
  pose proof (primes_between_app 2 (B - 1) P ltac:(lia) ltac:(lia)) as Happ.
  replace (B - 1 + 1) with B in Happ by lia.
  assert (Hin : P ∈ primes_between B P).
  { apply elem_of_primes_between. split; [lia|exact Hprime]. }
  destruct (primes_between B P) as [|p0 rest] eqn:HR.
  { by apply not_elem_of_nil in Hin. }
  assert (Hp0 : p0 ∈ primes_between B P) by (rewrite HR; by left).
  apply elem_of_primes_between in Hp0 as [Hrange _].
  exists (length (primes_between 2 (B - 1))), p0.
  assert (Hl : primes_between 2 P !! length (primes_between 2 (B - 1))
               = Some p0).
  { rewrite Happ. apply list_lookup_middle. exact eq_refl. }
  apply lookup_primes_between_inv in Hl as [Hnth _].
  split; [exact Hnth|]. split; [lia|].
  intros i Hi.
  destruct (lookup_lt_is_Some_2 (primes_between 2 (B - 1)) i Hi) as [q Hq].
  apply lookup_primes_between_inv in Hq as [Hq Hle].
  exists q. split; [exact Hq|lia].
Qed.

(** There is an index whose prime is not below 2^31; the indices before
    the first of them have their primes below 2^31. *)
Lemma first_index_beyond :
  ∃ (n : nat) p, IsNthPrime n p ∧ 2 ^ 31 ≤ p ∧
    ∀ i, (i < n)%nat → ∃ q, IsNthPrime i q ∧ q < 2 ^ 31.
Proof.
  destruct (prime_above (2 ^ 31)) as (P & HP & Hge).
  apply (first_prime_from (2 ^ 31) P); [blia|exact Hge|exact HP].
Qed.

(** * The properties of the specification *)

(** ** The sieve *)

(** C1, as the code has it.  From every state an unseeded sieve reaches,
    whatever indices were asked for before, consider the index [i] and
    its prime [p], the prime of index [i] of the sequence 2, 3, 5, 7, 11,
    13, ....  If [p] is below 2^31, [getPrimeNumber] called with enough
    fuel on [i] returns [p], and the sieve it leaves is again such a
    state, so that a repeated call returns the same prime.  If [p] is not
    below 2^31, [getPrimeNumber] on [i] does not return, with whatever
    fuel. *)
Theorem getPrimeNumber_nth_prime (s : SieveOfEratosthenes) (i : nat) (p : Z) :
  sieve_reachable s → IsNthPrime i p →
  (p < 2 ^ 31 →
   ∀ fuel : nat, 3 * p + 2 < Z.of_nat fuel →
     ∃ s', getPrimeNumber fuel (Z.of_nat i) s = Done (p, s') ∧
           sieve_reachable s') ∧
  (2 ^ 31 ≤ p → ∀ fuel r, getPrimeNumber fuel (Z.of_nat i) s ≠ Done r).
Proof.
  intros Hs Hp. split.
  - intros Hb fuel Hfuel.
    destruct (getPrimeNumber_returns fuel i p s (sieve_reachable_inv s Hs)
                Hp Hb Hfuel) as (s' & Hrun & _).
    exists s'. split; [done|].
    pose proof (IsNthPrime_index_le i p Hp).
    apply (sieve_reachable_call s fuel (Z.of_nat i) p s'); [done|blia|done].
  - intros Hge.
    exact (getPrimeNumber_never_returns s i p (sieve_reachable_inv s Hs) Hp
             Hge).
Qed.

Lemma getPrimeNumber_nth_prime_witness :
  sieve_reachable Sieve_init ∧ IsNthPrime 5 13 ∧
  (∃ s', getPrimeNumber 42 (Z.of_nat 5) Sieve_init = Done (13, s') ∧
         sieve_reachable s') ∧
  (2 ^ 31 ≤ 13 →
   ∀ fuel r, getPrimeNumber fuel (Z.of_nat 5) Sieve_init ≠ Done r).
Proof.
  assert (Hs : sieve_reachable Sieve_init) by constructor.
  assert (Hp : IsNthPrime 5 13) by (split; reflexivity).
  assert (Hb : 13 < 2 ^ 31) by reflexivity.
  assert (Hfuel : 3 * 13 + 2 < Z.of_nat 42) by reflexivity.
  split; [exact Hs|]. split; [exact Hp|].
  split; [|exact (proj2 (getPrimeNumber_nth_prime Sieve_init 5 13 Hs Hp))].
  exact (proj1 (getPrimeNumber_nth_prime Sieve_init 5 13 Hs Hp) Hb 42%nat Hfuel).
Defined.

(** The second case of C1 is not empty: the sequence has primes that are
    not below 2^31, and on the index of such a prime the call does not
    return from the first state of the sieve. *)
Example getPrimeNumber_beyond_never_returns :
  ∃ (i : nat) p, IsNthPrime i p ∧ 2 ^ 31 ≤ p ∧
    ∀ fuel r, getPrimeNumber fuel (Z.of_nat i) Sieve_init ≠ Done r.
Proof.
  destruct first_index_beyond as (n & p & Hp & Hge & _).
  exists n, p. split; [done|]. split; [done|].
  exact (getPrimeNumber_never_returns Sieve_init n p SieveInv_init Hp Hge).
Qed.

(** The sequence starts 2, 3, 5, 7, 11, 13, and the sieve returns it. *)
Example first_primes :
  IsNthPrime 0 2 ∧ IsNthPrime 1 3 ∧ IsNthPrime 2 5 ∧ IsNthPrime 3 7 ∧
  IsNthPrime 4 11 ∧ IsNthPrime 5 13.
Proof. repeat split; reflexivity. Qed.

Example getPrimeNumber_first_primes :
  (λ i, match getPrimeNumber 42 i Sieve_init with
        | Done (p, _) => Some p
        | _ => None
        end) <$> [0; 1; 2; 3; 4; 5]
  = Some <$> [2; 3; 5; 7; 11; 13].
Proof. reflexivity. Qed.

(** C1, as stated, fails: on the index 2^31 the call never returns, with
    whatever fuel. *)
Lemma getPrimeNumber_index_2_31_never_returns :
  ¬ ∃ fuel p s', getPrimeNumber fuel (2 ^ 31) Sieve_init = Done (p, s').
Proof.
  intros (fuel & p & s' & Hrun). unfold getPrimeNumber in Hrun.
  apply bind_Done in Hrun as (s1 & Hsieve & Hrun).
  destruct (primes s1 !! Z.to_nat (2 ^ 31)) as [q|] eqn:Hq; [|discriminate].
  destruct (sieve_spec _ _ _ _ SieveInv_init Hsieve) as (Hs1 & _ & _).
  apply lookup_lt_Some in Hq. pose proof (SieveInv_length s1 Hs1). lia.
Qed.

(** ** The prime table *)

(** C7.  In every state a table reaches, [add] of a value that has no
    prime, the pool of holes holding at least one, returns the largest
    prime of the pool and takes it out of the pool. *)
Theorem add_takes_largest_hole {V : Type} `{Countable V}
    (t : PrimeTable V) (value : V) (fuel : nat) :
  table_reachable t → primeMap t !! value = None → primeHoles t ≠ [] →
  ∃ p t', PrimeTable_add fuel value t = Done (p, t') ∧
          p ∈ primeHoles t ∧ (∀ q, q ∈ primeHoles t → q ≤ p) ∧
          primeHoles t ≡ₚ p :: primeHoles t'.
Proof.
  intros Ht Hv Hne. apply table_reachable_inv in Ht.
  destruct (primeHoles t) as [|top rest] eqn:Hholes; [done|].
  rewrite (PrimeTable_add_hole fuel value t top rest Hv Hholes).
  eexists _, _. split; [done|]. simpl.
  split; [by left|]. split; [|done].
  pose proof (tinv_sorted t Ht) as Hso. rewrite Hholes in Hso.
  apply StronglySorted_inv in Hso as [_ Hall].
  intros q [->|Hq]%elem_of_cons; [lia|].
  by apply (proj1 (Forall_forall _ _) Hall).
Qed.

Lemma two_holes_table_run :
  run_table 16 two_holes_program PrimeTable_new = Done two_holes_table.
Proof. vm_compute. reflexivity. Qed.

Lemma add_takes_largest_hole_witness :
  table_reachable two_holes_table ∧
  primeMap two_holes_table !! "c"%string = None ∧
  primeHoles two_holes_table ≠ [] ∧
  ∃ p t', PrimeTable_add 0 "c"%string two_holes_table = Done (p, t') ∧
          p ∈ primeHoles two_holes_table ∧
          (∀ q, q ∈ primeHoles two_holes_table → q ≤ p) ∧
          primeHoles two_holes_table ≡ₚ p :: primeHoles t'.
Proof.
  assert (Hr : table_reachable two_holes_table).
  { apply (run_table_reachable 16 two_holes_program PrimeTable_new);
      [constructor|vm_compute; reflexivity]. }
  assert (Hv : primeMap two_holes_table !! "c"%string = None) by reflexivity.
  assert (Hne : primeHoles two_holes_table ≠ []) by discriminate.
  split; [exact Hr|]. split; [exact Hv|]. split; [exact Hne|].
  exact (add_takes_largest_hole two_holes_table "c"%string 0 Hr Hv Hne).
Defined.

Example add_takes_largest_hole_value :
  ∃ t', PrimeTable_add 0 "c"%string two_holes_table = Done (3, t') ∧
        primeHoles t' = [2].
Proof. eexists. split; reflexivity. Qed.

(** C6: what [clear] does.  After a, b added and b removed, [clear] returns
    and empties both maps, but the pool still holds the hole 3, which the
    next [add] hands out again.  On a table that has no prefetch to join,
    newly constructed or just cleared, [clear] does not return: the [get]
    of a future without shared state faults. *)
Theorem clear_keeps_holes :
  ∃ t t',
    run_table 16 [TAdd "a"%string; TAdd "b"%string; TRemove "b"%string]
      PrimeTable_new = Done t ∧
    primeHoles t = [3] ∧
    PrimeTable_clear 16 t = Done t' ∧
    primeMap t' = ∅ ∧ reversePrimeMap t' = ∅ ∧
    primeHoles t' = [3] ∧
    (∃ t'', PrimeTable_add 16 "c"%string t' = Done (3, t'')) ∧
    PrimeTable_clear 16 t' = Fault NoSharedState ∧
    PrimeTable_clear 16 (PrimeTable_new (V := string)) = Fault NoSharedState.
Proof.
  eexists _, _. split; [vm_compute; reflexivity|].
  split; [reflexivity|]. split; [vm_compute; reflexivity|].
  split; [reflexivity|]. split; [reflexivity|]. split; [reflexivity|].
  split; [eexists; vm_compute; reflexivity|].
  split; reflexivity.
Qed.

(** C2: where the maps stop being inverses.  After a, b added, b removed,
    [clear], then c and d added, both c and d hold the prime 3 and the
    reverse map sends 3 to d only. *)
Theorem clear_breaks_mutual_inverses :
  ∃ t,
    run_table 16
      [TAdd "a"%string; TAdd "b"%string; TRemove "b"%string; TClear;
       TAdd "c"%string; TAdd "d"%string] PrimeTable_new = Done t ∧
    table_reachable t ∧
    primeMap t !! "c"%string = Some 3 ∧
    primeMap t !! "d"%string = Some 3 ∧
    reversePrimeMap t !! 3 = Some "d"%string ∧
    ¬ mutual_inverses t.
Proof.
  assert (Hrun : ∃ t, run_table 16
      [TAdd "a"%string; TAdd "b"%string; TRemove "b"%string; TClear;
       TAdd "c"%string; TAdd "d"%string] PrimeTable_new = Done t ∧
      primeMap t !! "c"%string = Some 3 ∧
      primeMap t !! "d"%string = Some 3 ∧
      reversePrimeMap t !! 3 = Some "d"%string).
  { eexists. split; [vm_compute; reflexivity|]. repeat split; reflexivity. }
  destruct Hrun as (t & Hrun & Hc & Hd & Hrev).
  exists t. split; [done|].
  split; [by eapply run_table_reachable; [constructor|]|].
  split; [done|]. split; [done|]. split; [done|].
  intros Hinv. apply Hinv in Hc. congruence.
Qed.

(** ** The bag *)

(** C3.  From an empty registry, [add] of a, b and c returns 2, 3 and 5;
    the bag built by adding a, a, b has the encoding 12 and the size 3;
    [asVector] on it yields a, a, b; [count] of a is 2; [remove] of b
    returns true and leaves the encoding 4 and the size 2. *)
Theorem scenario_a_a_b (bg1 bg2 bg3 : bool) :
  ∃ w_registry w_bag w_removed,
    scenario_registry bg1 bg2 bg3 32 = Done (2, 3, 5, w_registry) ∧
    scenario_bag 32 w_registry = Done w_bag ∧
    bags w_bag !! 2%positive = Some (Bag.mk 1 12 3) ∧
    PrimeBag_size 2 w_bag = Done 3 ∧
    PrimeBag_asVector 32 2 w_bag = Done ["a"; "a"; "b"]%string ∧
    PrimeBag_count 32 2 "a"%string w_bag = Done 2 ∧
    PrimeBag_remove 2 "b"%string w_bag = Done (true, w_removed) ∧
    bags w_removed !! 2%positive = Some (Bag.mk 1 4 2).
Proof.
  destruct bg1, bg2, bg3;
    (eexists _, _, _; split; [vm_compute; reflexivity|];
     split; [vm_compute; reflexivity|];
     split; [reflexivity|]; split; [reflexivity|];
     split; [vm_compute; reflexivity|];
     split; [vm_compute; reflexivity|];
     split; [vm_compute; reflexivity|]; reflexivity).
Qed.

Section BagClaims.
Context {V : Type} `{Countable V}.
Implicit Types (w : world V) (b : PrimeBag).


(** [add] on a table returns, with enough fuel, as long as the prime it
    asks the sieve for is below 2^31. *)
Lemma PrimeTable_add_returns fuel (value : V) (t : PrimeTable V) (i : nat) p :
  TableInv t → requested_index t = Z.of_nat i → IsNthPrime i p →
  p < 2 ^ 31 → 3 * p + 2 < Z.of_nat fuel →
  ∃ q t', PrimeTable_add fuel value t = Done (q, t').
Proof.
  intros Ht Hi Hp Hb Hfuel. unfold PrimeTable_add.
  destruct (primeMap t !! value); [by eauto|].
  destruct (primeHoles t) as [|top rest]; simpl; [|by eauto].
  unfold requested_index in Hi.
  destruct (nextPrime t) as [|index|v]; simpl; [| |by eauto].
  - rewrite Hi.
    destruct (getPrimeNumber_returns fuel i p _ (tinv_sieve t Ht) Hp Hb Hfuel)
      as (s' & -> & _). simpl. by eauto.
  - rewrite Hi.
    destruct (getPrimeNumber_returns fuel i p _ (tinv_sieve t Ht) Hp Hb Hfuel)
      as (s' & -> & _). simpl. by eauto.
Qed.

Lemma PrimeBag_add_returns w (this : ptr) (value : V) b t fuel (i : nat) p :
  reachable w →
  bags w !! this = Some b → tables w !! Bag.globalTable b = Some t →
  requested_index t = Z.of_nat i → IsNthPrime i p →
  p < 2 ^ 31 → 3 * p + 2 < Z.of_nat fuel →
  ∃ w1, PrimeBag_add fuel this value w = Done w1.
Proof.
  intros Hw Hb Ht Hi Hp Hlt Hfuel. apply reachable_inv in Hw.
  destruct (PrimeTable_add_returns fuel value t i p
              (winv_tables w Hw _ t Ht) Hi Hp Hlt Hfuel) as (q & t' & Hadd).
  unfold PrimeBag_add. rewrite (load_Some _ _ _ Hb). simpl.
  rewrite (load_Some _ _ _ Ht). simpl. rewrite Hadd. simpl. by eauto.
Qed.



(** C5, as the code has it.  In every store a program reaches, for two
    distinct bags of one registry whose sizes add up to less than 2^32,
    the union [add(bag)] followed by the difference [remove(bag)]: the
    [remove] returns true and the bag, with every other bag, is as it was
    before the union. *)
Theorem add_bag_remove_bag_roundtrip w (this bag : ptr) b o :
  reachable w → this ≠ bag →
  bags w !! this = Some b → bags w !! bag = Some o →
  Bag.globalTable o = Bag.globalTable b →
  Bag.length b + Bag.length o < 2 ^ 32 →
  ∃ w1 w2, PrimeBag_add_bag this bag w = Done w1 ∧
           PrimeBag_remove_bag this bag w1 = Done (true, w2) ∧
           bags w2 = bags w.
Proof.
  intros Hw Hne Hb Ho Hsame Hsum. apply reachable_inv in Hw.
  pose proof (winv_hash w Hw bag o Ho) as Hho.
  pose proof (winv_length w Hw this b Hb) as Hlb.
  pose proof (winv_length w Hw bag o Ho) as Hlo.
  rewrite (PrimeBag_add_bag_spec this bag w b o Hb Ho).
  rewrite decide_True by done.
  set (b1 := Bag.mk (Bag.globalTable b) (Bag.hash b * Bag.hash o)
               (wrap32 (Bag.length b + Bag.length o))).
  assert (Hb1 : bags (set_bag this b1 w) !! this = Some b1)
    by apply lookup_insert_eq.
  assert (Ho1 : bags (set_bag this b1 w) !! bag = Some o).
  { simpl. by rewrite lookup_insert_ne. }
  eexists _, _. split; [done|].
  rewrite (PrimeBag_remove_bag_spec this bag _ b1 o Hb1 Ho1) by lia.
  rewrite decide_True by done. simpl.
  rewrite wrap32_small by lia.
  rewrite (proj2 (Z.leb_le _ _)) by lia.
  rewrite Z.rem_mul by lia. simpl.
  rewrite decide_False by done.
  rewrite Z.quot_mul by lia.
  replace (Bag.length b + Bag.length o - Bag.length o) with (Bag.length b)
    by lia.
  rewrite wrap32_small by lia.
  split; [done|]. simpl. rewrite insert_insert_eq.
  destruct b. by apply insert_id.
Qed.

End BagClaims.

Lemma one_bag_world_reachable : reachable one_bag_world.
Proof.
apply (run_reachable 0 [NewTable 1; NewBag 2 1] empty_world);
  [constructor|vm_compute; reflexivity].
Qed.


Lemma two_bag_world_reachable : reachable two_bag_world.
Proof.
apply (run_reachable 16 two_bag_program empty_world);
  [constructor|vm_compute; reflexivity].
Qed.

Lemma add_bag_remove_bag_roundtrip_witness :
reachable two_bag_world ∧ 2%positive ≠ 3%positive ∧
bags two_bag_world !! 2%positive = Some (Bag.mk 1 2 1) ∧
bags two_bag_world !! 3%positive = Some (Bag.mk 1 3 1) ∧
Bag.globalTable (Bag.mk 1 3 1) = Bag.globalTable (Bag.mk 1 2 1) ∧
Bag.length (Bag.mk 1 2 1) + Bag.length (Bag.mk 1 3 1) < 2 ^ 32 ∧
∃ w1 w2, PrimeBag_add_bag 2 3 two_bag_world = Done w1 ∧
         PrimeBag_remove_bag 2 3 w1 = Done (true, w2) ∧
         bags w2 = bags two_bag_world.
Proof.
assert (Hne : 2%positive ≠ 3%positive) by discriminate.
assert (Hb : bags two_bag_world !! 2%positive = Some (Bag.mk 1 2 1))
  by reflexivity.
assert (Ho : bags two_bag_world !! 3%positive = Some (Bag.mk 1 3 1))
  by reflexivity.
assert (Hsame : Bag.globalTable (Bag.mk 1 3 1) = Bag.globalTable (Bag.mk 1 2 1))
  by reflexivity.
assert (Hsum : Bag.length (Bag.mk 1 2 1) + Bag.length (Bag.mk 1 3 1) < 2 ^ 32)
  by reflexivity.
split; [exact two_bag_world_reachable|]. split; [exact Hne|].
split; [exact Hb|]. split; [exact Ho|]. split; [exact Hsame|].
split; [exact Hsum|].
exact (add_bag_remove_bag_roundtrip two_bag_world 2 3 _ _
         two_bag_world_reachable Hne Hb Ho Hsame Hsum).
Defined.

(** A bag of one registry doubled [k] times by union with itself. *)
Lemma doubled_bag_reachable (k : nat) :
(k ≤ 31)%nat →
∃ (w : world string) h,
  reachable w ∧ 1 ≤ h ∧
  bags w !! 2%positive = Some (Bag.mk 1 h (2 ^ Z.of_nat k)) ∧
  bags w !! 3%positive = Some (Bag.mk 1 1 0).
Proof.
induction k as [|k IH]; intros Hk.
- exists seed_bag_world, 2.
  split; [|split; [lia|split; reflexivity]].
  apply (run_reachable 16 seed_bag_program empty_world);
    [constructor|vm_compute; reflexivity].
- destruct (IH ltac:(lia)) as (w & h & Hw & Hh & Hb & Ho).
  exists (set_bag 2 (Bag.mk 1 (h * h)
                       (wrap32 (2 ^ Z.of_nat k + 2 ^ Z.of_nat k))) w), (h * h).
  split; [|split; [nia|split]].
  + apply (reachable_step w (BagAddBag 2 2) 0); [done|]. simpl.
    rewrite (PrimeBag_add_bag_spec 2 2 w _ _ Hb Hb). simpl.
    done.
  + simpl. rewrite lookup_insert_eq. do 2 f_equal.
    rewrite Nat2Z.inj_succ, Z.pow_succ_r by lia.
    assert (2 ^ Z.of_nat k ≤ 2 ^ 30) by (apply Z.pow_le_mono_r; lia).
    pose proof (Z.pow_pos_nonneg 2 (Z.of_nat k)).
    rewrite wrap32_small; [lia|].
    change (2 ^ 30) with 1073741824 in *. blia.
  + simpl. by rewrite lookup_insert_ne.
Qed.

(** C5, as stated, fails twice.  When the bag united with is the bag itself,
  the difference empties the bag: from the encoding 2 and the size 1 it
  leaves the encoding 1 and the size 0.  When the sizes of two distinct
  bags add up to 2^32, here 2^31 each, the size wraps to 0 and the
  difference returns false, the union left in place. *)
Lemma union_difference_counterexample :
(∃ (w w1 w2 : world string),
   reachable w ∧
   bags w !! 2%positive = Some (Bag.mk 1 2 1) ∧
   PrimeBag_add_bag 2 2 w = Done w1 ∧
   PrimeBag_remove_bag 2 2 w1 = Done (true, w2) ∧
   bags w2 !! 2%positive = Some (Bag.mk 1 1 0)) ∧
(∃ (w w1 : world string) h,
   reachable w ∧
   bags w !! 2%positive = Some (Bag.mk 1 h (2 ^ 31)) ∧
   bags w !! 3%positive = Some (Bag.mk 1 h (2 ^ 31)) ∧
   PrimeBag_add_bag 2 3 w = Done w1 ∧
   bags w1 !! 2%positive = Some (Bag.mk 1 (h * h) 0) ∧
   PrimeBag_remove_bag 2 3 w1 = Done (false, w1)).
Proof.
split.
- exists one_bag_world_added. eexists _, _.
  split; [|split; [reflexivity|split; [vm_compute; reflexivity|
                                       split; [vm_compute; reflexivity|
                                               reflexivity]]]].
  apply (reachable_step one_bag_world (BagAdd 2 "a"%string) 16);
    [exact one_bag_world_reachable|vm_compute; reflexivity].
- destruct (doubled_bag_reachable 31 ltac:(lia)) as (w & h & Hw & Hh & Hb & Ho).
  change (2 ^ Z.of_nat 31) with (2 ^ 31) in Hb.
  set (b3 := Bag.mk 1 (1 * h) (wrap32 (0 + 2 ^ 31))).
  assert (Hb3 : b3 = Bag.mk 1 h (2 ^ 31)).
  { unfold b3. f_equal. lia. }
  set (w' := set_bag 3 b3 w).
  assert (Hw' : reachable w').
  { apply (reachable_step w (BagAddBag 3 2) 0); [done|]. simpl.
    rewrite (PrimeBag_add_bag_spec 3 2 w _ _ Ho Hb). simpl.
    done. }
  assert (Hb' : bags w' !! 2%positive = Some (Bag.mk 1 h (2 ^ 31))).
  { unfold w'. simpl. by rewrite lookup_insert_ne. }
  assert (Ho' : bags w' !! 3%positive = Some (Bag.mk 1 h (2 ^ 31))).
  { unfold w'. simpl. by rewrite lookup_insert_eq, Hb3. }
  exists w', (set_bag 2 (Bag.mk 1 (h * h) 0) w'), h.
  split; [done|]. split; [done|]. split; [done|].
  split; [|split].
  + rewrite (PrimeBag_add_bag_spec 2 3 w' _ _ Hb' Ho'). simpl.
    done.
  + simpl. by rewrite lookup_insert_eq.
  + erewrite (PrimeBag_remove_bag_spec 2 3 _ (Bag.mk 1 (h * h) 0)
                (Bag.mk 1 h (2 ^ 31))); simpl.
    * done.
    * by rewrite lookup_insert_eq.
    * rewrite lookup_insert_ne by done. exact Ho'.
    * lia.
Qed.

(** ** Values that were never added *)

Section NeverAdded.
Context {V : Type} `{Countable V}.
Implicit Types (w : world V) (t : PrimeTable V) (b : PrimeBag).

Lemma PrimeTable_add_map fuel value t p t' :
  PrimeTable_add fuel value t = Done (p, t') →
  primeMap t' = <[value := p]> (primeMap t).
Proof.
  intros Hrun. unfold PrimeTable_add in Hrun.
  destruct (primeMap t !! value) as [q|] eqn:Hv.
  { injection Hrun as <- <-. by rewrite insert_id. }
  apply bind_Done in Hrun as ([q t1] & Hpick & Hrun).
  injection Hrun as <- <-. simpl. f_equal.
  destruct (0 <? pq_size (primeHoles t)).
  - destruct (pq_top (primeHoles t)); [|discriminate].
    by injection Hpick as <- <-.
  - apply bind_Done in Hpick as ([q' s] & _ & Hpick).
    by injection Hpick as <- <-.
Qed.

Lemma table_step_unmapped fuel o t t' (value : V) :
  table_step fuel o t = Done t' → o ≠ TAdd value →
  primeMap t !! value = None → primeMap t' !! value = None.
Proof.
  intros Hrun Ho Hv. destruct o as [v'|v'| |]; simpl in Hrun.
  - apply bind_Done in Hrun as ([q t1] & Hadd & Hrun). injection Hrun as <-.
    rewrite (PrimeTable_add_map _ _ _ _ _ Hadd).
    rewrite lookup_insert_ne; [done|congruence].
  - injection Hrun as <-. unfold PrimeTable_remove.
    destruct (primeMap t !! v'); simpl; [|done].
    rewrite lookup_delete. by case_decide.
  - unfold PrimeTable_clear in Hrun.
    apply bind_Done in Hrun as ([q s] & _ & Hrun). by injection Hrun as <-.
  - unfold PrimeTable_background in Hrun.
    destruct (nextPrime t); try by injection Hrun as <-.
    apply bind_Done in Hrun as ([q s] & _ & Hrun). by injection Hrun as <-.
Qed.

Lemma never_added_reachable table value w :
  never_added table value w → reachable w.
Proof.
  induction 1 as [|w o fuel w' _ IH _ Hstep]; [constructor|].
  by eapply reachable_step.
Qed.

(** A value never handed to [add] has no entry in the forward map. *)
Lemma never_added_unmapped table value w t :
  never_added table value w → tables w !! table = Some t →
  primeMap t !! value = None.
Proof.
  intros Hna. revert t.
  induction Hna as [|w o fuel w' Hna IH Hno Hstep]; intros t' Ht';
    [unfold empty_world in Ht'; simpl in Ht'; by rewrite lookup_empty in Ht'|].
  destruct o as [tp|bp tp|tp o|bp v|bp other|bp v|bp other|bp];
    simpl in Hstep, Hno.
  - destruct (tables w !! tp) eqn:Htp; [discriminate|].
    injection Hstep as <-. simpl in Ht'. rewrite lookup_insert in Ht'.
    case_decide; [|by apply IH]. injection Ht' as <-. apply lookup_empty.
  - destruct (bags w !! bp); [discriminate|].
    destruct (tables w !! tp); [|discriminate].
    injection Hstep as <-. by apply IH.
  - apply bind_Done in Hstep as (t & Ht & Hstep). apply load_Done in Ht.
    apply bind_Done in Hstep as (t1 & Hts & Hstep). injection Hstep as <-.
    simpl in Ht'. rewrite lookup_insert in Ht'.
    case_decide as Heq; [|by apply IH]. injection Ht' as <-. subst tp.
    apply (table_step_unmapped fuel o t); [done| |by apply IH].
    intros ->. by apply Hno.
  - apply PrimeBag_add_Done in Hstep
      as (b & t & p & t1 & Hb & Ht & Hadd & ->).
    simpl in Ht'. rewrite lookup_insert in Ht'.
    case_decide as Heq; [|by apply IH]. injection Ht' as <-.
    rewrite (PrimeTable_add_map _ _ _ _ _ Hadd).
    rewrite lookup_insert_ne; [rewrite Heq in Ht; by apply IH|].
    intros ->. apply Hno. split; [done|]. by exists b.
  - assert (Htab : tables w' = tables w); [|rewrite Htab in Ht'; by apply IH].
    unfold PrimeBag_add_bag in Hstep.
    apply bind_Done in Hstep as (b & Hb & Hstep).
    apply bind_Done in Hstep as (o & Ho & Hstep).
    case_decide; [|by injection Hstep as <-].
    apply bind_Done in Hstep as (o1 & _ & Hstep). by injection Hstep as <-.
  - assert (Htab : tables w' = tables w); [|rewrite Htab in Ht'; by apply IH].
    apply bind_Done in Hstep as ([r w1] & Hrem & Hstep).
    injection Hstep as <-. unfold PrimeBag_remove in Hrem.
    apply bind_Done in Hrem as (b & Hb & Hrem).
    apply bind_Done in Hrem as (t & Ht & Hrem).
    destruct (negb _); [|by injection Hrem as <- <-].
    apply bind_Done in Hrem as (c & _ & Hrem).
    destruct c; [|by injection Hrem as <- <-].
    apply bind_Done in Hrem as (q & _ & Hrem). by injection Hrem as <- <-.
  - assert (Htab : tables w' = tables w); [|rewrite Htab in Ht'; by apply IH].
    apply bind_Done in Hstep as ([r w1] & Hrem & Hstep).
    injection Hstep as <-. unfold PrimeBag_remove_bag in Hrem.
    apply bind_Done in Hrem as (b & Hb & Hrem).
    apply bind_Done in Hrem as (o & Ho & Hrem).
    case_decide; [|by injection Hrem as <- <-].
    destruct (_ <=? _); [|by injection Hrem as <- <-].
    apply bind_Done in Hrem as (c & _ & Hrem).
    destruct c; [|by injection Hrem as <- <-].
    apply bind_Done in Hrem as (q & _ & Hrem).
    apply bind_Done in Hrem as (o1 & _ & Hrem). by injection Hrem as <- <-.
  - assert (Htab : tables w' = tables w); [|rewrite Htab in Ht'; by apply IH].
    apply bind_Done in Hstep as (b & _ & Hstep). by injection Hstep as <-.
Qed.

Lemma count_loop_no_zero_modulus fuel : ∀ hashCopy prime result,
  prime ≠ 0 → count_loop fuel hashCopy prime result ≠ Fault DivisionByZero.
Proof.
  induction fuel as [|fuel IH]; intros h p r Hp; simpl; [done|].
  rewrite containsHash_Done by done. simpl.
  destruct (Z.rem h p =? 0); [|done].
  rewrite bignum_div_Done by done. simpl. by apply IH.
Qed.

(** In every store whatsoever, reachable or not, for every value: the
    three queries test the prime before they divide by it. *)
Lemma queries_no_zero_modulus w (this : ptr) (value : V) (fuel : nat) :
  PrimeBag_contains this value w ≠ Fault DivisionByZero ∧
  PrimeBag_count fuel this value w ≠ Fault DivisionByZero ∧
  PrimeBag_remove this value w ≠ Fault DivisionByZero.
Proof.
  unfold PrimeBag_contains, PrimeBag_count, PrimeBag_remove, load.
  destruct (bags w !! this) as [b|]; simpl; [|done].
  destruct (tables w !! Bag.globalTable b) as [t|]; simpl; [|done].
  destruct (Z.eqb_spec (PrimeTable_getPrime value t) 0) as [|Hne]; simpl;
    [done|].
  rewrite containsHash_Done by done. simpl.
  split; [done|]. split; [by apply count_loop_no_zero_modulus|].
  destruct (Z.rem _ _ =? 0); [|done].
  by rewrite bignum_div_Done by done.
Qed.

(** C9.  For a value never handed to the [add] of the registry of a bag:
    [getPrime] returns 0, [contains] returns false, [count] returns 0
    with whatever fuel and [remove] returns false and leaves the store as
    it is.  All three return, so that none stops on the fault of a zero
    modulus or divisor. *)
Theorem never_added_value_absent w (table this : ptr) (value : V) b :
  never_added table value w →
  bags w !! this = Some b → Bag.globalTable b = table →
  (∃ t, tables w !! table = Some t ∧ PrimeTable_getPrime value t = 0) ∧
  PrimeBag_contains this value w = Done false ∧
  (∀ fuel, PrimeBag_count fuel this value w = Done 0) ∧
  PrimeBag_remove this value w = Done (false, w).
Proof.
  intros Hna Hb <-.
  pose proof (reachable_inv w (never_added_reachable _ _ _ Hna)) as Hw.
  destruct (winv_bound w Hw this b Hb) as [t Ht].
  pose proof (never_added_unmapped _ _ _ _ Hna Ht) as Hv.
  assert (Hget : PrimeTable_getPrime value t = 0).
  { unfold PrimeTable_getPrime. by rewrite Hv. }
  split; [by exists t|].
  unfold PrimeBag_contains, PrimeBag_count, PrimeBag_remove.
  rewrite (load_Some _ _ _ Hb). simpl. rewrite (load_Some _ _ _ Ht). simpl.
  by rewrite Hget.
Qed.

End NeverAdded.

Lemma one_bag_world_added_never_z :
never_added 1 "z"%string one_bag_world_added.
Proof.
apply (never_added_step 1 "z"%string one_bag_world (BagAdd 2 "a"%string) 16);
  [|by intros [? _]|vm_compute; reflexivity].
apply (never_added_step 1 "z"%string
         (mkWorld {[1%positive := PrimeTable_new]} ∅) (NewBag 2 1) 0);
  [|by intros []|vm_compute; reflexivity].
apply (never_added_step 1 "z"%string empty_world (NewTable 1) 0);
  [constructor|by intros []|vm_compute; reflexivity].
Qed.

Lemma never_added_value_absent_witness :
never_added 1 "z"%string one_bag_world_added ∧
bags one_bag_world_added !! 2%positive = Some (Bag.mk 1 2 1) ∧
Bag.globalTable (Bag.mk 1 2 1) = 1%positive ∧
(∃ t, tables one_bag_world_added !! 1%positive = Some t ∧
      PrimeTable_getPrime "z"%string t = 0) ∧
PrimeBag_contains 2 "z"%string one_bag_world_added = Done false ∧
(∀ fuel, PrimeBag_count fuel 2 "z"%string one_bag_world_added = Done 0) ∧
PrimeBag_remove 2 "z"%string one_bag_world_added
  = Done (false, one_bag_world_added).
Proof.
assert (Hb : bags one_bag_world_added !! 2%positive = Some (Bag.mk 1 2 1))
  by reflexivity.
assert (Ht : Bag.globalTable (Bag.mk 1 2 1) = 1%positive) by reflexivity.
split; [exact one_bag_world_added_never_z|]. split; [exact Hb|].
split; [exact Ht|].
exact (never_added_value_absent one_bag_world_added 1 2 "z"%string _
         one_bag_world_added_never_z Hb Ht).
Defined.

(** ** The iterator *)

Section Cursor.
Context {V : Type} `{Countable V}.
Implicit Types (w : world V) (b : PrimeBag) (it : PrimeBagIterator).

Lemma getPrimeAtTableIndex_tables w w' it :
  tables w' = tables w →
  getPrimeAtTableIndex w' it = getPrimeAtTableIndex w it.
Proof. intros Ht. unfold getPrimeAtTableIndex. by rewrite Ht. Qed.

Lemma nextFactor_loop_tables fuel w w' : ∀ it prime,
  tables w' = tables w →
  nextFactor_loop fuel w' it prime = nextFactor_loop fuel w it prime.
Proof.
  induction fuel as [|fuel IH]; intros it prime Ht; simpl; [done|].
  destruct (containsHash _ _) as [[]| |]; simpl; try done.
  rewrite (getPrimeAtTableIndex_tables w w') by done.
  destruct (getPrimeAtTableIndex w _); simpl; try done. by apply IH.
Qed.

Lemma previousFactor_loop_tables fuel w w' : ∀ it prime,
  tables w' = tables w →
  bags w' !! refPrimeBag it = bags w !! refPrimeBag it →
  previousFactor_loop fuel w' it prime = previousFactor_loop fuel w it prime.
Proof.
  induction fuel as [|fuel IH]; intros it prime Ht Hb; simpl; [done|].
  unfold load. rewrite Hb.
  destruct (bags w !! refPrimeBag it) as [ref|] eqn:Href; simpl; [|done].
  destruct (containsHash _ _) as [[]| |]; simpl; try done.
  rewrite (getPrimeAtTableIndex_tables w w') by done.
  destruct (getPrimeAtTableIndex w _); simpl; try done.
  apply IH; [done|]. simpl. by rewrite Hb, Href.
Qed.

Lemma iter_incr_tables fuel w w' it :
  tables w' = tables w → iter_incr fuel w' it = iter_incr fuel w it.
Proof.
  intros Ht. unfold iter_incr, getNextPrimeFactor.
  rewrite (getPrimeAtTableIndex_tables w w') by done.
  destruct (getPrimeAtTableIndex w it); simpl; try done.
  by rewrite (nextFactor_loop_tables fuel w w').
Qed.

Lemma iter_deref_tables w w' it :
  tables w' = tables w → iter_deref w' it = iter_deref w it.
Proof.
  intros Ht. unfold iter_deref.
  rewrite (getPrimeAtTableIndex_tables w w') by done. by rewrite Ht.
Qed.

Lemma iter_decr_tables fuel w w' it :
  tables w' = tables w →
  bags w' !! refPrimeBag it = bags w !! refPrimeBag it →
  iter_decr fuel w' it = iter_decr fuel w it.
Proof.
  intros Ht Hb. unfold iter_decr, getPreviousPrimeFactor.
  rewrite (getPrimeAtTableIndex_tables w w') by done.
  destruct (getPrimeAtTableIndex w it) as [prime| |]; simpl; try done.
  unfold load. rewrite Hb.
  destruct (bags w !! refPrimeBag it) as [ref|] eqn:Hw; simpl; [|done].
  destruct (_ <? _); [|done].
  set (it1 := if end_ it then _ else _).
  assert (Href : refPrimeBag it1 = refPrimeBag it)
    by (unfold it1; by destruct (end_ it)).
  rewrite (getPrimeAtTableIndex_tables w w') by done.
  destruct (getPrimeAtTableIndex w it1); simpl; try done.
  rewrite (previousFactor_loop_tables fuel w w'); [done|done|].
  by rewrite Href, Hb, Hw.
Qed.

Lemma nextFactor_loop_refs fuel w : ∀ it prime p it',
  nextFactor_loop fuel w it prime = Done (p, it') →
  refPrimeBag it' = refPrimeBag it ∧ primeTable it' = primeTable it.
Proof.
  induction fuel as [|fuel IH]; intros it prime p it' Hrun; simpl in Hrun;
    [discriminate|].
  destruct (containsHash _ _) as [[]| |]; simpl in Hrun; try discriminate.
  { by injection Hrun as _ <-. }
  destruct (getPrimeAtTableIndex w _); simpl in Hrun; try discriminate.
  by apply IH in Hrun.
Qed.

Lemma previousFactor_loop_refs fuel w : ∀ it prime p it',
  previousFactor_loop fuel w it prime = Done (p, it') →
  refPrimeBag it' = refPrimeBag it ∧ primeTable it' = primeTable it.
Proof.
  induction fuel as [|fuel IH]; intros it prime p it' Hrun; simpl in Hrun;
    [discriminate|].
  destruct (load _ _); simpl in Hrun; try discriminate.
  destruct (containsHash _ _) as [[]| |]; simpl in Hrun; try discriminate.
  { by injection Hrun as _ <-. }
  destruct (getPrimeAtTableIndex w _); simpl in Hrun; try discriminate.
  by apply IH in Hrun.
Qed.

(** [operator++] and [operator--] write the copy, the index and the end
    flag of the cursor: the cursor refers to the same bag and the same
    table as before. *)
Lemma iter_incr_refs fuel w it it' :
  iter_incr fuel w it = Done it' →
  refPrimeBag it' = refPrimeBag it ∧ primeTable it' = primeTable it.
Proof.
  intros Hrun. unfold iter_incr, getNextPrimeFactor in Hrun.
  destruct (end_ it); simpl in Hrun; [by injection Hrun as <-|].
  destruct (0 <? _); [|by injection Hrun as <-].
  apply bind_Done in Hrun as ([p it1] & Hnext & Hrun).
  apply bind_Done in Hnext as (prime & _ & Hnext).
  apply nextFactor_loop_refs in Hnext.
  apply bind_Done in Hrun as (q & _ & Hrun). by injection Hrun as <-.
Qed.

Lemma iter_decr_refs fuel w it it' :
  iter_decr fuel w it = Done it' →
  refPrimeBag it' = refPrimeBag it ∧ primeTable it' = primeTable it.
Proof.
  intros Hrun. unfold iter_decr, getPreviousPrimeFactor in Hrun.
  apply bind_Done in Hrun as (prime & _ & Hrun).
  apply bind_Done in Hrun as (ref & _ & Hrun).
  destruct (_ <? _); [|by injection Hrun as <-].
  apply bind_Done in Hrun as ([p it2] & Hprev & Hrun). injection Hrun as <-.
  apply bind_Done in Hprev as (prime' & _ & Hprev).
  apply previousFactor_loop_refs in Hprev. by destruct (end_ it).
Qed.

(** C8, as the code has it.  No operation of a cursor changes the store:
    the bag it was made from, like every other object, is as before, and
    the cursor refers to the same bag and the same table as before.
    What [operator++], [operator*] and the comparisons do is the same in
    every store that has the same tables, whatever was done to the bags
    since the cursor was made.  What [operator--] does is the same only
    if, besides, the bag the cursor was made from has the hash and the
    length it has now: it reads them from the live bag. *)
Theorem cursor_frame_and_snapshot (fuel : nat) (o : cursor_op) w w' it :
  tables w' = tables w →
  (o = Retreat → bags w' !! refPrimeBag it = bags w !! refPrimeBag it) →
  (∀ w1 it1 r, cursor_step fuel o w it = Done (w1, it1, r) →
     w1 = w ∧ refPrimeBag it1 = refPrimeBag it ∧
     primeTable it1 = primeTable it) ∧
  cursor_step fuel o w' it
  = (λ x : world V * PrimeBagIterator * cursor_result V, (w', x.1.2, x.2))
      <$> cursor_step fuel o w it.
Proof.
  intros Ht Hb. split.
  - intros w1 it1 r Hrun. destruct o; simpl in Hrun.
    + apply bind_Done in Hrun as (it' & Hincr & [= <- <- _]).
      split; [done|]. by apply (iter_incr_refs fuel w).
    + apply bind_Done in Hrun as (it' & Hdecr & [= <- <- _]).
      split; [done|]. by apply (iter_decr_refs fuel w).
    + apply bind_Done in Hrun as (? & _ & [= <- <- _]). done.
    + by injection Hrun as <- <- _.
  - destruct o; simpl.
    + rewrite (iter_incr_tables fuel w w') by done.
      by destruct (iter_incr fuel w it).
    + rewrite (iter_decr_tables fuel w w') by auto.
      by destruct (iter_decr fuel w it).
    + rewrite (iter_deref_tables w w') by done.
      by destruct (iter_deref w it).
    + done.
Qed.

(** The calls on a bag that leave every registry as it is: [remove],
    [clear], union and difference, and [add] of a value that has a
    prime. *)
Lemma bag_call_keeps_tables fuel (o : op V) w w' :
  step fuel o w = Done w' →
  match o with
  | BagAddBag _ _ | BagRemove _ _ | BagRemoveBag _ _ | BagClear _ => True
  | BagAdd bag value =>
      ∃ b t, bags w !! bag = Some b ∧
             tables w !! Bag.globalTable b = Some t ∧
             is_Some (primeMap t !! value)
  | _ => False
  end →
  tables w' = tables w.
Proof.
  intros Hrun Ho.
  destruct o as [tp|bp tp|tp o|bp v|bp other|bp v|bp other|bp];
    simpl in Hrun; try done.
  - destruct Ho as (b & t & Hb & Ht & [p Hp]).
    apply PrimeBag_add_Done in Hrun as (b' & t0 & q & t' & Hb' & Ht0 & Hadd & ->).
    replace b' with b in * by congruence.
    replace t0 with t in * by congruence.
    unfold PrimeTable_add in Hadd. rewrite Hp in Hadd.
    injection Hadd as _ <-. simpl. by apply insert_id.
  - unfold PrimeBag_add_bag in Hrun.
    apply bind_Done in Hrun as (b & _ & Hrun).
    apply bind_Done in Hrun as (o & _ & Hrun).
    case_decide; [|by injection Hrun as <-].
    apply bind_Done in Hrun as (o1 & _ & Hrun). by injection Hrun as <-.
  - apply bind_Done in Hrun as ([r w1] & Hrem & Hrun). injection Hrun as <-.
    unfold PrimeBag_remove in Hrem.
    apply bind_Done in Hrem as (b & _ & Hrem).
    apply bind_Done in Hrem as (t & _ & Hrem).
    destruct (_ =? 0); simpl in Hrem; [by injection Hrem as _ <-|].
    apply bind_Done in Hrem as ([] & _ & Hrem); [|by injection Hrem as _ <-].
    apply bind_Done in Hrem as (q & _ & Hrem). by injection Hrem as _ <-.
  - apply bind_Done in Hrun as ([r w1] & Hrem & Hrun). injection Hrun as <-.
    unfold PrimeBag_remove_bag in Hrem.
    apply bind_Done in Hrem as (b & _ & Hrem).
    apply bind_Done in Hrem as (o & _ & Hrem).
    case_decide; [|by injection Hrem as _ <-].
    destruct (_ <=? _); simpl in Hrem; [|by injection Hrem as _ <-].
    apply bind_Done in Hrem as ([] & _ & Hrem); [|by injection Hrem as _ <-].
    repeat (apply bind_Done in Hrem as (? & _ & Hrem)).
    by injection Hrem as _ <-.
  - apply bind_Done in Hrun as (b & _ & Hrun). by injection Hrun as <-.
Qed.

End Cursor.

Lemma aab_world_reachable : reachable aab_world.
Proof.
apply (run_reachable 32 aab_program empty_world);
  [constructor|vm_compute; reflexivity].
Qed.

Lemma cursor_frame_and_snapshot_witness :
  tables aab_world_removed = tables aab_world ∧
  (Advance = Retreat →
   bags aab_world_removed !! refPrimeBag aab_begin
   = bags aab_world !! refPrimeBag aab_begin) ∧
  (∀ w1 it1 r,
     cursor_step 32 Advance aab_world aab_begin = Done (w1, it1, r) →
     w1 = aab_world ∧ refPrimeBag it1 = refPrimeBag aab_begin ∧
     primeTable it1 = primeTable aab_begin) ∧
  cursor_step 32 Advance aab_world_removed aab_begin
  = (λ x : world string * PrimeBagIterator * cursor_result string,
       (aab_world_removed, x.1.2, x.2))
      <$> cursor_step 32 Advance aab_world aab_begin.
Proof.
  assert (Ht : tables aab_world_removed = tables aab_world) by reflexivity.
  assert (Hb : Advance = Retreat →
               bags aab_world_removed !! refPrimeBag aab_begin
               = bags aab_world !! refPrimeBag aab_begin) by discriminate.
  split; [exact Ht|]. split; [exact Hb|].
  exact (cursor_frame_and_snapshot 32 Advance aab_world aab_world_removed
           aab_begin Ht Hb).
Defined.

Lemma stale_world_reachable : reachable stale_world.
Proof.
  apply (run_reachable 16 stale_program empty_world);
    [constructor|vm_compute; reflexivity].
Qed.

(** C8, as stated, fails, in two ways.

    [operator--] reads the live bag.  A cursor is made by [begin()] on
    the bag a, a, b and advanced twice, onto b.  With the bag untouched,
    [operator--] steps back onto a.  After a has been removed twice from
    the live bag, the same [operator--] on the same cursor does nothing:
    the cursor stays on b.

    [add] of a new value to the live bag changes the registry, and with
    it what [operator*] returns.  A cursor is made by [begin()] on the bag
    that holds a; a is then removed from the registry, so that
    [operator*] throws.  After [add] of z to the live bag, which takes
    the prime a had, [operator*] on the same cursor returns z. *)
Lemma cursor_reads_live_store :
  (reachable aab_world ∧
   run 32 [BagRemove 2 "a"%string; BagRemove 2 "a"%string] aab_world
     = Done aab_world_removed ∧
   tables aab_world_removed = tables aab_world ∧
   PrimeBag_begin 32 2 aab_world = Done aab_begin ∧
   (iter_incr 32 aab_world aab_begin ≫= iter_incr 32 aab_world)
     = Done aab_on_b ∧
   (iter_incr 32 aab_world_removed aab_begin
      ≫= iter_incr 32 aab_world_removed) = Done aab_on_b ∧
   iter_decr 32 aab_world aab_on_b
     = Done (mkIter 2 1 (Bag.mk 1 3 1) 0 false) ∧
   iter_decr 32 aab_world_removed aab_on_b = Done aab_on_b ∧
   (iter_decr 32 aab_world aab_on_b ≫= iter_deref aab_world)
     = Done "a"%string ∧
   (iter_decr 32 aab_world_removed aab_on_b ≫= iter_deref aab_world_removed)
     = Done "b"%string) ∧
  (reachable stale_world ∧
   PrimeBag_begin 32 2 one_bag_world_added = Done a_begin ∧
   iter_deref one_bag_world_added a_begin = Done "a"%string ∧
   step 16 (OnTable 1 (TRemove "a"%string)) one_bag_world_added
     = Done stale_world ∧
   iter_deref stale_world a_begin = Fault OutOfRange ∧
   step 16 (BagAdd 2 "z"%string) stale_world = Done stale_world_added ∧
   tables stale_world_added ≠ tables stale_world ∧
   iter_deref stale_world_added a_begin = Done "z"%string).
Proof.
  split.
  - split; [exact aab_world_reachable|].
    repeat split; vm_compute; reflexivity.
  - split; [exact stale_world_reachable|].
    split; [vm_compute; reflexivity|]. split; [vm_compute; reflexivity|].
    split; [vm_compute; reflexivity|]. split; [vm_compute; reflexivity|].
    split; [vm_compute; reflexivity|]. split; [|vm_compute; reflexivity].
    intros Heq.
    assert (Hl : tables stale_world_added !! 1%positive
                 ≫= (λ t, primeMap t !! "z"%string)
                 = tables stale_world !! 1%positive
                   ≫= (λ t, primeMap t !! "z"%string)) by (by rewrite Heq).
    vm_compute in Hl. discriminate.
Qed.

Section Retreat.
Context {V : Type} `{Countable V}.
Implicit Types (w : world V) (b : PrimeBag) (it : PrimeBagIterator).

Lemma iter_decr_changes fuel w it it' :
  iter_decr fuel w it = Done it' → it' ≠ it →
  ∃ ref, bags w !! refPrimeBag it = Some ref ∧
         Bag.length (primeBagCopy it) < wrap32 (Bag.length ref - 1).
Proof.
  intros Hrun Hne. unfold iter_decr in Hrun.
  apply bind_Done in Hrun as (prime & _ & Hrun).
  apply bind_Done in Hrun as (ref & Href & Hrun). apply load_Done in Href.
  destruct (Z.ltb_spec (Bag.length (primeBagCopy it))
              (wrap32 (Bag.length ref - 1))) as [Hlt|Hge].
  - by exists ref.
  - injection Hrun as <-. done.
Qed.

(** C10.  In every store a program reaches, for a bag of size 1: the
    cursor [end()] is made, is terminal, and [operator--] on it, once or
    [n] times over, returns it unchanged, so that it stays terminal and
    [operator*] on it throws.  In general [operator--] changes a cursor
    only if the size of its snapshot is below the size of the live bag
    minus one, computed in 32 bits. *)
Theorem retreat_from_end_of_singleton w (this : ptr) b (fuel : nat) :
  reachable w → bags w !! this = Some b → Bag.length b = 1 →
  (∃ it, PrimeBag_end fuel this w = Done it ∧ end_ it = true ∧
         iter_decr fuel w it = Done it ∧
         (∀ n, iter_decr_n fuel w n it = Done it) ∧
         iter_deref w it = Fault OutOfRange) ∧
  (∀ it it', iter_decr fuel w it = Done it' → it' ≠ it →
     ∃ ref, bags w !! refPrimeBag it = Some ref ∧
            Bag.length (primeBagCopy it) < wrap32 (Bag.length ref - 1)).
Proof.
  intros Hw Hb Hlen. apply reachable_inv in Hw.
  split; [|intros it it'; apply iter_decr_changes].
  destruct (winv_bound w Hw this b Hb) as [t Ht].
  pose proof (winv_tables w Hw _ t Ht) as Htinv.
  pose proof (tinv_sieve t Htinv) as Hs.
  assert (Hprimes : 2 ≤ highestTestedNum (sieveOfEratosthenes t)).
  { destruct (winv_fresh w Hw this b t Hb Ht) as [[_ Hl]|]; [lia|done]. }
  assert (Hnonempty : (0 < length (getPrimeNumbers t))%nat).
  { unfold getPrimeNumbers, getCalculatedPrimes. rewrite (inv_primes _ Hs).
    assert (Hin : 2 ∈ primes_between 2
                        (highestTestedNum (sieveOfEratosthenes t))).
    { apply elem_of_primes_between. split; [lia|reflexivity]. }
    destruct (primes_between 2 _); [by apply not_elem_of_nil in Hin|].
    simpl. lia. }
  pose proof (SieveInv_length _ Hs) as Hshort.
  set (index := wrap32 (wrap64 (Z.of_nat (length (getPrimeNumbers t)) - 1))).
  assert (Hindex : index = Z.of_nat (length (getPrimeNumbers t)) - 1).
  { unfold index. unfold getPrimeNumbers, getCalculatedPrimes in *.
    rewrite wrap64_small by blia. apply wrap32_small. blia. }
  set (it := mkIter this (Bag.globalTable b) (Bag.mk (Bag.globalTable b) 1 0)
               index true).
  assert (Hend : PrimeBag_end fuel this w = Done it).
  { unfold PrimeBag_end, PrimeBagIterator_new.
    rewrite (load_Some _ _ _ Hb). simpl. rewrite orb_true_r. simpl.
    by rewrite (load_Some _ _ _ Ht). }
  assert (Hdecr : iter_decr fuel w it = Done it).
  { unfold iter_decr, getPrimeAtTableIndex. simpl.
    rewrite (load_Some _ _ _ Ht). simpl.
    destruct (lookup_lt_is_Some_2 (getPrimeNumbers t) (Z.to_nat index)
                ltac:(lia)) as [prime ->]. simpl.
    rewrite (load_Some _ _ _ Hb). simpl. by rewrite Hlen. }
  exists it. split; [done|]. split; [done|]. split; [done|].
  split; [|done].
  induction n as [|n IH]; simpl; [done|]. rewrite Hdecr. simpl. exact IH.
Qed.

End Retreat.

Lemma retreat_from_end_of_singleton_witness :
reachable one_bag_world_added ∧
bags one_bag_world_added !! 2%positive = Some (Bag.mk 1 2 1) ∧
Bag.length (Bag.mk 1 2 1) = 1 ∧
(∃ it, PrimeBag_end 8 2 one_bag_world_added = Done it ∧ end_ it = true ∧
       iter_decr 8 one_bag_world_added it = Done it ∧
       (∀ n, iter_decr_n 8 one_bag_world_added n it = Done it) ∧
       iter_deref one_bag_world_added it = Fault OutOfRange) ∧
(∀ it it', iter_decr 8 one_bag_world_added it = Done it' → it' ≠ it →
   ∃ ref, bags one_bag_world_added !! refPrimeBag it = Some ref ∧
          Bag.length (primeBagCopy it) < wrap32 (Bag.length ref - 1)).
Proof.
assert (Hw : reachable one_bag_world_added).
{ apply (reachable_step one_bag_world (BagAdd 2 "a"%string) 16);
    [exact one_bag_world_reachable|vm_compute; reflexivity]. }
assert (Hb : bags one_bag_world_added !! 2%positive = Some (Bag.mk 1 2 1))
  by reflexivity.
assert (Hl : Bag.length (Bag.mk 1 2 1) = 1) by reflexivity.
split; [exact Hw|]. split; [exact Hb|]. split; [exact Hl|].
exact (retreat_from_end_of_singleton one_bag_world_added 2 _ 8 Hw Hb Hl).
Defined.

Example end_of_singleton_value :
PrimeBag_end 8 2 one_bag_world_added
  = Done (mkIter 2 1 (Bag.mk 1 1 0) 1 true) ∧
iter_decr 8 one_bag_world_added (mkIter 2 1 (Bag.mk 1 1 0) 1 true)
  = Done (mkIter 2 1 (Bag.mk 1 1 0) 1 true).
Proof. split; vm_compute; reflexivity. Qed.

(** * Further properties of the code *)

(** ** The sieve, seeded or not *)

Lemma SieveInv_SeedInv s : SieveInv s → SeedInv s.
Proof.
  intros [Ht HL HLt Hps]. apply pow2_range in HL.
  split; [done|blia|done|done].
Qed.

Lemma growLimit_bounded_spec fuel : ∀ L min L',
  1 ≤ L < 2 ^ 32 → 0 ≤ min < 2 ^ 31 →
  growLimit fuel L min = Done L' →
  min < L' < 2 ^ 32 ∧ (L' = L ∨ L' ≤ 2 * min).
Proof.
  induction fuel as [|fuel IH]; intros L min L' HL Hmin Hrun; simpl in Hrun;
    [discriminate|].
  destruct (Z.leb_spec L min) as [Hle|Hgt].
  - rewrite wrap32_small in Hrun by blia.
    assert (HL2 : 1 ≤ L * 2 < 2 ^ 32) by blia.
    destruct (IH _ _ _ HL2 Hmin Hrun) as [Hr Hor].
    split; [done|]. right. lia.
  - injection Hrun as <-. split; [lia|]. by left.
Qed.

Lemma growLimit_bounded_terminates fuel : ∀ L min,
  1 ≤ L → 0 ≤ min < 2 ^ 31 →
  min + 1 - L < Z.of_nat fuel → (0 < fuel)%nat →
  ∃ L', growLimit fuel L min = Done L'.
Proof.
  induction fuel as [|fuel IH]; intros L min HL Hmin Hfuel Hpos; [lia|]. simpl.
  destruct (Z.leb_spec L min) as [Hle|Hgt]; [|eauto].
  rewrite wrap32_small by blia. apply IH; lia.
Qed.

Lemma sqrt_uint_bound L : 0 ≤ L < 2 ^ 32 → 0 ≤ Z.sqrt L < 2 ^ 16.
Proof.
  intros HL. split; [apply Z.sqrt_nonneg|]. apply Z.sqrt_lt_square; blia.
Qed.

Lemma no_bits_struck n min : bits_of (replicate n true) min [].
Proof.
  intros j b Hj. apply lookup_replicate in Hj as [-> _]. split; [done|].
  intros (q & Hq & _). by apply not_elem_of_nil in Hq.
Qed.

(** One segment of a seeded sieve whose tested range ends below 2^31 - 1. *)
Lemma sieveSegment_seeded fuel s :
  SeedInv s → highestTestedNum s + 1 < 2 ^ 31 →
  2 * (highestTestedNum s + 1) + 1 < Z.of_nat fuel →
  ∃ s', sieveSegment fuel s = Done s' ∧ SeedInv s' ∧
        highestTestedNum s < highestTestedNum s' ∧
        primes s `prefix_of` primes s'.
Proof.
  intros [Ht HL HLt Hps] Hb Hfuel. unfold sieveSegment.
  rewrite wrap32_small by blia.
  set (min := highestTestedNum s + 1) in *.
  assert (Hmin0 : 0 ≤ min < 2 ^ 31) by lia.
  destruct (growLimit_bounded_terminates fuel (sieveLimit s) min) as [L HgL];
    [lia|done|lia|lia|].
  rewrite HgL. simpl.
  assert (HL1 : 1 ≤ sieveLimit s < 2 ^ 32) by lia.
  destruct (growLimit_bounded_spec _ _ _ _ HL1 Hmin0 HgL) as [HLr Hor].
  pose proof (sqrt_uint_bound L ltac:(lia)) as Hroot.
  rewrite (wrap32_small (min + Z.sqrt L)) by blia.
  set (max := Z.min L (min + Z.sqrt L)) in *.
  assert (Hmax : min ≤ max ≤ L) by lia.
  assert (Hmax2 : max ≤ 2 * min) by lia.
  assert (Hmax32 : max < 2 ^ 32) by lia.
  rewrite wrap32_small by blia.
  assert (Hrange : Forall (λ q, 0 < q < 2 ^ 32) (primes s)).
  { rewrite Hps. apply Forall_forall. intros q Hq.
    apply elem_of_primes_between in Hq. blia. }
  assert (Hlen0 : Z.of_nat (length (replicate (Z.to_nat (max - min + 1)) true))
                  = max - min + 1) by (rewrite length_replicate; lia).
  destruct (strikeKnown_terminates fuel (primes s)
              (replicate (Z.to_nat (max - min + 1)) true) min max)
    as [bf Hstrike]; [done|done|lia|done|lia|].
  rewrite Hstrike. simpl.
  destruct (strikeKnown_spec fuel (primes s)
              (replicate (Z.to_nat (max - min + 1)) true) min max [] bf)
    as [Hlen Hbits]; [done|done|done|apply no_bits_struck|done|].
  rewrite length_replicate in Hlen. simpl in Hbits.
  assert (Hlenbf : Z.of_nat (length bf) = max - min + 1) by lia.
  destruct (scanBitField_terminates fuel (length bf) 0 bf min max (primes s))
    as [ps Hscan]; [lia|done|lia|done|lia|].
  rewrite Hscan. simpl.
  assert (Hfinal : ps = primes_between 2 max).
  { apply (scanBitField_spec fuel (length bf) 0 bf min max (primes s) ps);
      [lia|done|lia|done| |done|done].
    rewrite Hps. f_equal. lia. }
  eexists. split; [done|]. simpl.
  split; [split; simpl; [lia|lia|lia|done]|]. split; [lia|].
  rewrite Hfinal, Hps.
  rewrite (primes_between_app 2 (highestTestedNum s) max) by lia.
  by apply prefix_app_r.
Qed.

Lemma sieve_seeded fuel : ∀ (i : nat) p s,
  SeedInv s → IsNthPrime i p → p < 2 ^ 31 →
  2 * p + 2 + Z.max 0 (p - highestTestedNum s) < Z.of_nat fuel →
  ∃ s', sieve fuel (Z.of_nat i + 1) s = Done s' ∧ SeedInv s' ∧
        Z.of_nat i + 1 ≤ Z.of_nat (length (primes s')) ∧
        primes s `prefix_of` primes s'.
Proof.
  induction fuel as [|fuel IH]; intros i p s Hs Hp Hb Hfuel;
    pose proof (is_prime_ge_2 p (proj1 Hp)); [lia|]. simpl.
  destruct (Z.ltb_spec (Z.of_nat (length (primes s))) (Z.of_nat i + 1))
    as [Hlt|Hge]; [|by eauto].
  assert (Hshort : highestTestedNum s < p).
  { apply (short_primes_between i); [done|].
    rewrite <- (seed_primes s Hs). lia. }
  destruct (sieveSegment_seeded fuel s) as (s1 & Hseg & Hs1 & Hgrow & Hpre);
    [done|lia|lia|].
  rewrite Hseg. simpl.
  destruct (IH i p s1) as (s' & Hrun & Hs' & Hlen & Hpre'); [done..|lia|].
  exists s'. split; [done|]. split; [done|]. split; [done|].
  by etrans.
Qed.

Lemma getPrimeNumber_seeded fuel (i : nat) p s :
  SeedInv s → IsNthPrime i p → p < 2 ^ 31 →
  3 * p + 2 < Z.of_nat fuel →
  ∃ s', getPrimeNumber fuel (Z.of_nat i) s = Done (p, s') ∧ SeedInv s' ∧
        primes s `prefix_of` primes s'.
Proof.
  intros Hs Hp Hb Hfuel. pose proof (IsNthPrime_index_le i p Hp) as Hi.
  pose proof (seed_tested s Hs) as Ht.
  unfold getPrimeNumber. rewrite wrap64_small by blia.
  destruct (sieve_seeded fuel i p s) as (s1 & Hsieve & Hs1 & Hlen & Hpre);
    [done..|lia|].
  rewrite Hsieve. simpl. rewrite Nat2Z.id.
  destruct (lookup_lt_is_Some_2 (primes s1) i ltac:(lia)) as [q Hq].
  rewrite Hq. rewrite (seed_primes s1 Hs1) in Hq.
  apply lookup_primes_between_inv in Hq as [Hq _].
  rewrite (IsNthPrime_unique i q p Hq Hp). eauto.
Qed.

Lemma StronglySorted_seqZ_nat (k : nat) : ∀ m,
  StronglySorted Z.lt (seqZ m (Z.of_nat k)).
Proof.
  induction k as [|k IH]; intros m; [constructor|].
  rewrite seqZ_cons by lia. replace (Z.pred (Z.of_nat (S k))) with (Z.of_nat k)
    by lia.
  constructor; [apply IH|]. apply Forall_forall. intros x Hx.
  apply elem_of_seqZ in Hx. lia.
Qed.

Lemma StronglySorted_filter_lt (P : Z → Prop) `{∀ x, Decision (P x)} l :
  StronglySorted Z.lt l → StronglySorted Z.lt (filter P l).
Proof.
  induction 1 as [|x l Hl IH Hx]; [constructor|].
  rewrite filter_cons. destruct (decide (P x)); [|done].
  constructor; [done|]. apply Forall_forall. intros y Hy.
  apply list_elem_of_filter in Hy as [_ Hy].
  by apply (proj1 (Forall_forall _ _) Hx).
Qed.

Lemma primes_between_sorted lo hi : StronglySorted Z.lt (primes_between lo hi).
Proof.
  unfold primes_between. apply StronglySorted_filter_lt.
  destruct (Z_le_gt_dec 0 (hi - lo + 1)) as [Hle|Hgt].
  - rewrite <- (Z2Nat.id (hi - lo + 1)) by done. apply StronglySorted_seqZ_nat.
  - rewrite seqZ_nil by lia. constructor.
Qed.

(** X1.  In every state an unseeded sieve reaches, the calculated primes
    are exactly the primes up to the highest tested number, in strictly
    ascending order, and there are fewer than 2^31 of them. *)
Theorem calculated_primes_exact (s : SieveOfEratosthenes) :
  sieve_reachable s →
  (∀ q, q ∈ getCalculatedPrimes s ↔ prime q ∧ q ≤ highestTestedNum s) ∧
  StronglySorted Z.lt (getCalculatedPrimes s) ∧
  getNumCalculatedPrimes s < 2 ^ 31.
Proof.
  intros Hs. apply sieve_reachable_inv in Hs.
  unfold getCalculatedPrimes, getNumCalculatedPrimes.
  split; [|split; [|by apply SieveInv_length]].
  - intros q. rewrite (inv_primes s Hs), elem_of_primes_between,
      is_prime_iff_prime. split.
    + intros [[_ ?] ?]. done.
    + intros [Hq ?]. split; [|done]. split; [|done].
      apply is_prime_iff_prime, is_prime_ge_2 in Hq. done.
  - rewrite (inv_primes s Hs). apply primes_between_sorted.
Qed.

Lemma sieve_reachable_after_5 :
  sieve_reachable (mkSieve 16 16 [2; 3; 5; 7; 11; 13]).
Proof.
  apply (sieve_reachable_call Sieve_init 42 5 13); [constructor|done|].
  vm_compute. reflexivity.
Qed.

Lemma calculated_primes_exact_witness :
  sieve_reachable (mkSieve 16 16 [2; 3; 5; 7; 11; 13]) ∧
  (∀ q, q ∈ getCalculatedPrimes (mkSieve 16 16 [2; 3; 5; 7; 11; 13])
        ↔ prime q ∧ q ≤ highestTestedNum (mkSieve 16 16 [2; 3; 5; 7; 11; 13])) ∧
  StronglySorted Z.lt (getCalculatedPrimes (mkSieve 16 16 [2; 3; 5; 7; 11; 13])) ∧
  getNumCalculatedPrimes (mkSieve 16 16 [2; 3; 5; 7; 11; 13]) < 2 ^ 31.
Proof.
  split; [exact sieve_reachable_after_5|].
  exact (calculated_primes_exact _ sieve_reachable_after_5).
Defined.

(** X2.  A call of [getPrimeNumber] that returns, made on an unseeded sieve
    in any state it reaches, only appends: the primes calculated before the
    call are a prefix of the primes calculated after it, and the prime
    returned is among these. *)
Theorem getPrimeNumber_appends (s : SieveOfEratosthenes) (fuel : nat)
    (index p : Z) (s' : SieveOfEratosthenes) :
  sieve_reachable s →
  getPrimeNumber fuel index s = Done (p, s') →
  getCalculatedPrimes s `prefix_of` getCalculatedPrimes s' ∧
  p ∈ getCalculatedPrimes s'.
Proof.
  intros Hs Hrun. apply sieve_reachable_inv in Hs.
  destruct (getPrimeNumber_spec _ _ _ _ _ Hs Hrun) as (Hs' & [Hp _] & Hle & Hm).
  unfold getCalculatedPrimes. pose proof (inv_tested s Hs).
  rewrite (inv_primes s Hs), (inv_primes s' Hs'). split.
  - rewrite (primes_between_app 2 (highestTestedNum s) (highestTestedNum s'))
      by lia.
    by apply prefix_app_r.
  - apply elem_of_primes_between. pose proof (is_prime_ge_2 p Hp). done.
Qed.

Lemma getPrimeNumber_appends_witness :
  sieve_reachable (mkSieve 16 16 [2; 3; 5; 7; 11; 13]) ∧
  getPrimeNumber 64 8 (mkSieve 16 16 [2; 3; 5; 7; 11; 13])
    = Done (23, mkSieve 28 32 [2; 3; 5; 7; 11; 13; 17; 19; 23]) ∧
  getCalculatedPrimes (mkSieve 16 16 [2; 3; 5; 7; 11; 13])
    `prefix_of`
    getCalculatedPrimes (mkSieve 28 32 [2; 3; 5; 7; 11; 13; 17; 19; 23]) ∧
  23 ∈ getCalculatedPrimes (mkSieve 28 32 [2; 3; 5; 7; 11; 13; 17; 19; 23]).
Proof.
  assert (Hrun : getPrimeNumber 64 8 (mkSieve 16 16 [2; 3; 5; 7; 11; 13])
                 = Done (23, mkSieve 28 32 [2; 3; 5; 7; 11; 13; 17; 19; 23]))
    by (vm_compute; reflexivity).
  split; [exact sieve_reachable_after_5|]. split; [exact Hrun|].
  exact (getPrimeNumber_appends _ 64 8 23 _ sieve_reachable_after_5 Hrun).
Defined.

(** X3.  On an unseeded sieve in any state it reaches, [getPrimeNumber] on
    an index below the number of calculated primes returns at once, the
    loop of [sieve] not entered: one unit of fuel is enough, the sieve is
    left as it is, and the result is the prime of that index. *)
Theorem getPrimeNumber_cached (s : SieveOfEratosthenes) (i : nat) :
  sieve_reachable s →
  Z.of_nat i < getNumCalculatedPrimes s →
  ∃ p, getPrimeNumber 1 (Z.of_nat i) s = Done (p, s) ∧ IsNthPrime i p.
Proof.
  intros Hs Hi. apply sieve_reachable_inv in Hs.
  unfold getNumCalculatedPrimes in Hi. pose proof (SieveInv_length s Hs).
  unfold getPrimeNumber. rewrite wrap64_small by blia. simpl.
  destruct (Z.ltb_spec (Z.of_nat (length (primes s))) (Z.of_nat i + 1));
    [lia|]. simpl. rewrite Nat2Z.id.
  destruct (lookup_lt_is_Some_2 (primes s) i ltac:(lia)) as [p Hp].
  rewrite Hp. exists p. split; [done|].
  rewrite (inv_primes s Hs) in Hp.
  by apply lookup_primes_between_inv in Hp as [? _].
Qed.

Lemma getPrimeNumber_cached_witness :
  sieve_reachable (mkSieve 16 16 [2; 3; 5; 7; 11; 13]) ∧
  Z.of_nat 4 < getNumCalculatedPrimes (mkSieve 16 16 [2; 3; 5; 7; 11; 13]) ∧
  ∃ p, getPrimeNumber 1 (Z.of_nat 4) (mkSieve 16 16 [2; 3; 5; 7; 11; 13])
       = Done (p, mkSieve 16 16 [2; 3; 5; 7; 11; 13]) ∧ IsNthPrime 4 p.
Proof.
  assert (Hi : Z.of_nat 4 < getNumCalculatedPrimes
                              (mkSieve 16 16 [2; 3; 5; 7; 11; 13]))
    by reflexivity.
  split; [exact sieve_reachable_after_5|]. split; [exact Hi|].
  exact (getPrimeNumber_cached _ 4 sieve_reachable_after_5 Hi).
Defined.

Lemma getPrimeNumber_calls_seeded fuel (indices : list nat) : ∀ ps s,
  SeedInv s → Forall2 IsNthPrime indices ps →
  Forall (λ p, p < 2 ^ 31 ∧ 3 * p + 2 < Z.of_nat fuel) ps →
  ∃ s', getPrimeNumber_calls fuel indices s = Done (ps, s') ∧
        primes s `prefix_of` primes s'.
Proof.
  induction indices as [|i indices IH]; intros ps s Hs Hall Hb.
  - apply Forall2_nil_inv_l in Hall as ->. simpl. by eauto.
  - apply Forall2_cons_inv_l in Hall as (p & ps' & Hp & Hall & ->).
    apply Forall_cons in Hb as [[Hlt Hfuel] Hb]. simpl.
    destruct (getPrimeNumber_seeded fuel i p s Hs Hp Hlt Hfuel)
      as (s1 & -> & Hs1 & Hpre1). simpl.
    destruct (IH ps' s1 Hs1 Hall Hb) as (s2 & -> & Hpre2). simpl.
    exists s2. split; [done|]. by etrans.
Qed.

(** X4.  A sieve constructed from a seed that lists every prime up to its
    last element: whatever indices are asked for, in whatever order,
    [getPrimeNumber] returns the prime of each index as long as these
    primes are below 2^31 and the fuel suffices, and the seed stays the
    head of the calculated primes. *)
Theorem seeded_sieve_calls (seed : list Z) (b : Z) (indices : list nat)
    (ps : list Z) (fuel : nat) :
  last seed = Some b → b < 2 ^ 32 → seed = primes_between 2 b →
  Forall2 IsNthPrime indices ps →
  Forall (λ p, p < 2 ^ 31 ∧ 3 * p + 2 < Z.of_nat fuel) ps →
  ∃ s', (Sieve_new (Some seed) ≫= getPrimeNumber_calls fuel indices)
          = Done (ps, s') ∧
        seed `prefix_of` getCalculatedPrimes s'.
Proof.
  intros Hlast Hb Hseed Hall Hfuel. simpl. rewrite Hlast. simpl.
  assert (Hin : b ∈ primes_between 2 b).
  { rewrite <- Hseed. apply last_Some in Hlast as [l' ->].
    apply elem_of_app. right. by apply list_elem_of_singleton. }
  apply elem_of_primes_between in Hin as [Hb2 _].
  assert (Hs : SeedInv (mkSieve b b seed)) by (split; simpl; [lia|done|lia|done]).
  destruct (getPrimeNumber_calls_seeded fuel indices ps _ Hs Hall Hfuel)
    as (s' & Hrun & Hpre).
  by exists s'.
Qed.

Lemma seeded_sieve_calls_witness :
  last [2; 3; 5; 7] = Some 7 ∧ 7 < 2 ^ 32 ∧
  [2; 3; 5; 7] = primes_between 2 7 ∧
  Forall2 IsNthPrime [5; 0; 6]%nat [13; 2; 17] ∧
  Forall (λ p, p < 2 ^ 31 ∧ 3 * p + 2 < Z.of_nat 64) [13; 2; 17] ∧
  ∃ s', (Sieve_new (Some [2; 3; 5; 7]) ≫= getPrimeNumber_calls 64 [5; 0; 6]%nat)
          = Done ([13; 2; 17], s') ∧
        [2; 3; 5; 7] `prefix_of` getCalculatedPrimes s'.
Proof.
  assert (Hlast : last [2; 3; 5; 7] = Some 7) by reflexivity.
  assert (Hb : 7 < 2 ^ 32) by reflexivity.
  assert (Hseed : [2; 3; 5; 7] = primes_between 2 7) by reflexivity.
  assert (Hall : Forall2 IsNthPrime [5; 0; 6]%nat [13; 2; 17]).
  { repeat constructor; reflexivity. }
  assert (Hfuel : Forall (λ p, p < 2 ^ 31 ∧ 3 * p + 2 < Z.of_nat 64)
                    [13; 2; 17]).
  { repeat constructor; reflexivity. }
  split; [exact Hlast|]. split; [exact Hb|]. split; [exact Hseed|].
  split; [exact Hall|]. split; [exact Hfuel|].
  exact (seeded_sieve_calls _ 7 _ _ 64 Hlast Hb Hseed Hall Hfuel).
Defined.

(** ** The prime table kept sound *)

Lemma IsNthPrime_index_unique i j p : IsNthPrime i p → IsNthPrime j p → i = j.
Proof. intros [_ <-] [_ <-]. done. Qed.

Section SoundTableProofs.
Context {V : Type} `{Countable V}.
Implicit Types t : PrimeTable V.

Lemma inverse_insert (m : gmap V Z) (r : gmap Z V) v p :
  (∀ v' p', m !! v' = Some p' ↔ r !! p' = Some v') →
  m !! v = None → r !! p = None →
  ∀ v' p', <[v := p]> m !! v' = Some p' ↔ <[p := v]> r !! p' = Some v'.
Proof.
  intros Hinv Hv Hp v' p'. rewrite !lookup_insert_Some. split.
  - intros [[<- <-]|[Hne Hm]]; [by left|]. right.
    split; [|by apply Hinv]. intros <-. apply Hinv in Hm. congruence.
  - intros [[<- <-]|[Hne Hr]]; [by left|]. right.
    split; [|by apply Hinv]. intros <-. apply Hinv in Hr. congruence.
Qed.

Lemma inverse_delete (m : gmap V Z) (r : gmap Z V) v p :
  (∀ v' p', m !! v' = Some p' ↔ r !! p' = Some v') →
  m !! v = Some p →
  ∀ v' p', delete v m !! v' = Some p' ↔ delete p r !! p' = Some v'.
Proof.
  intros Hinv Hv v' p'. rewrite !lookup_delete_Some. split.
  - intros [Hne Hm]. split; [|by apply Hinv].
    intros <-. apply Hinv in Hm, Hv. congruence.
  - intros [Hne Hr]. split; [|by apply Hinv].
    intros <-. apply Hinv in Hr. congruence.
Qed.

Lemma TableSound_new : TableSound (PrimeTable_new (V := V)).
Proof.
  split; simpl.
  - apply TableInv_new.
  - intros v p. unfold PrimeTable_new. simpl. by rewrite !lookup_empty.
  - constructor.
  - intros p Hp. by apply not_elem_of_nil in Hp.
  - intros q [Hq|[v Hq]]; [by apply not_elem_of_nil in Hq|].
    by rewrite lookup_empty in Hq.
  - unfold allocated. simpl. rewrite map_size_empty. lia.
  - unfold allocated. simpl. rewrite map_size_empty. lia.
  - unfold allocated. simpl. by rewrite map_size_empty.
Qed.

Lemma allocated_bound t :
  TableSound t → Z.of_nat (allocated t) ≤ 2 ^ 31 + 1.
Proof.
  intros Ht. destruct (decide (allocated t = 0)%nat) as [->|Hne]; [done|].
  destruct (sound_top t Ht ltac:(lia)) as (q & Hq & Hle).
  apply IsNthPrime_index_le in Hq.
  pose proof (SieveInv_tested_bound _ (tinv_sieve t (sound_inv t Ht))). lia.
Qed.

(** The prime a sound table takes from the sieve is the prime of the index
    [allocated]. *)
Lemma sound_fresh_prime fuel t p s :
  TableSound t → primeHoles t = [] →
  (if valid (nextPrime t)
   then future_get fuel (nextPrime t) (sieveOfEratosthenes t)
   else getPrimeNumber fuel (Z.of_nat (size (primeMap t)))
          (sieveOfEratosthenes t)) = Done (p, s) →
  IsNthPrime (size (primeMap t)) p ∧ SieveInv s ∧
  p ≤ highestTestedNum s ∧
  highestTestedNum (sieveOfEratosthenes t) ≤ highestTestedNum s.
Proof.
  intros Ht Hholes Hget.
  pose proof (tinv_sieve t (sound_inv t Ht)) as Hs.
  pose proof (sound_future t Ht) as Hf.
  assert (Hall : allocated t = size (primeMap t)).
  { unfold allocated. rewrite Hholes. simpl. lia. }
  destruct (nextPrime t) as [|index|v] eqn:Hn; simpl in Hget.
  - apply getPrimeNumber_spec in Hget as (Hs' & Hp & Hle & Hm); [|done].
    rewrite Nat2Z.id in Hp. done.
  - apply getPrimeNumber_spec in Hget as (Hs' & Hp & Hle & Hm); [|done].
    rewrite Hf, Nat2Z.id, Hall in Hp. done.
  - injection Hget as <- <-. rewrite Hall in Hf.
    split; [done|]. split; [done|].
    split; [apply (tinv_ready t (sound_inv t Ht) _ Hn)|lia].
Qed.

Lemma PrimeTable_add_sound fuel value t p t' :
  TableSound t → PrimeTable_add fuel value t = Done (p, t') →
  TableSound t' ∧
  (primeMap t !! value = None → primeHoles t = [] →
   IsNthPrime (size (primeMap t)) p).
Proof.
  intros Ht Hrun.
  pose proof (PrimeTable_add_spec fuel value t p t' (sound_inv t Ht) Hrun)
    as (Hinv' & _).
  unfold PrimeTable_add in Hrun.
  destruct (primeMap t !! value) as [q|] eqn:Hv.
  { injection Hrun as <- <-. split; [done|]. done. }
  apply bind_Done in Hrun as ([q t1] & Hpick & Hrun).
  injection Hrun as <- <-.
  destruct (primeHoles t) as [|top rest] eqn:Hholes; simpl in Hpick.
  - (* a new prime from the sieve *)
    apply bind_Done in Hpick as ([q' s] & Hget & Hpick).
    injection Hpick as <- <-. simpl in *.
    destruct (sound_fresh_prime fuel t q' s Ht Hholes Hget)
      as (Hq & Hs & Hqle & Hmono).
    assert (Hall : allocated t = size (primeMap t)).
    { unfold allocated. rewrite Hholes. simpl. lia. }
    assert (Hfree : reversePrimeMap t !! q' = None).
    { destruct (reversePrimeMap t !! q') as [v|] eqn:Hr; [|done].
      destruct (sound_index t Ht q' (or_intror (mk_is_Some _ _ Hr)))
        as (i & Hi & Hiq).
      pose proof (IsNthPrime_index_unique _ _ _ Hq Hiq). lia. }
    assert (Hall' : ∀ np, allocated
              (mkTable np s [] (<[value := q']> (primeMap t))
                 (<[q' := value]> (reversePrimeMap t)))
              = S (size (primeMap t))).
    { intros np. unfold allocated. simpl.
      rewrite map_size_insert_None by done. lia. }
    split; [|done]. split; simpl.
    + done.
    + intros v' p'. simpl. by apply inverse_insert; [apply Ht|..].
    + constructor.
    + intros p' Hp'. by apply not_elem_of_nil in Hp'.
    + rewrite Hall'. intros q [Hq0|Hq0]; [by apply not_elem_of_nil in Hq0|].
      destruct (decide (q = q')) as [->|Hne]; [exists (size (primeMap t)); split; [lia|done]|].
      rewrite lookup_insert_ne in Hq0 by done.
      destruct (sound_index t Ht q (or_intror Hq0)) as (i & Hi & Hiq).
      exists i. split; [lia|done].
    + rewrite Hall'. intros i q Hi Hiq.
      destruct (decide (i = size (primeMap t))) as [->|Hne].
      * right. rewrite (IsNthPrime_unique _ _ _ Hiq Hq).
        rewrite lookup_insert_eq. by eexists.
      * destruct (sound_onto t Ht i q ltac:(lia) Hiq) as [Hin|Hin].
        -- rewrite Hholes in Hin. by apply not_elem_of_nil in Hin.
        -- right. rewrite lookup_insert_ne; [done|].
           intros <-. pose proof (IsNthPrime_index_unique _ _ _ Hiq Hq). lia.
    + rewrite Hall'. intros _. exists q'.
      replace (S (size (primeMap t)) - 1)%nat with (size (primeMap t)) by lia.
      done.
    + rewrite Hall'. pose proof (allocated_bound t Ht).
      rewrite wrap64_small by blia. lia.
  - (* a hole *)
    injection Hpick as <- <-. simpl in *.
    pose proof (sound_holes_nodup t Ht) as Hnd. rewrite Hholes in Hnd.
    apply NoDup_cons in Hnd as [Hnotin Hnd].
    assert (Hfree : reversePrimeMap t !! top = None).
    { apply (sound_holes_free t Ht). rewrite Hholes. by left. }
    assert (Hall' : allocated
              (mkTable (nextPrime t) (sieveOfEratosthenes t) rest
                 (<[value := top]> (primeMap t))
                 (<[top := value]> (reversePrimeMap t)))
              = allocated t).
    { unfold allocated. simpl. rewrite map_size_insert_None by done.
      rewrite Hholes. simpl. lia. }
    split; [|done]. split; simpl.
    + done.
    + intros v' p'. simpl. by apply inverse_insert; [apply Ht|..].
    + done.
    + intros p' Hp'. rewrite lookup_insert_ne by (intros <-; done).
      apply (sound_holes_free t Ht). rewrite Hholes. by right.
    + rewrite Hall'. intros q [Hq0|Hq0].
      * apply (sound_index t Ht). left. rewrite Hholes. by right.
      * destruct (decide (q = top)) as [->|Hne].
        -- apply (sound_index t Ht). left. rewrite Hholes. by left.
        -- rewrite lookup_insert_ne in Hq0 by done.
           apply (sound_index t Ht). by right.
    + rewrite Hall'. intros i q Hi Hiq.
      destruct (sound_onto t Ht i q Hi Hiq) as [Hin|Hin].
      * rewrite Hholes in Hin. apply elem_of_cons in Hin as [->|Hin];
          [|by left].
        right. rewrite lookup_insert_eq. by eexists.
      * right. destruct (decide (q = top)) as [->|Hne];
          [rewrite lookup_insert_eq; by eexists|].
        by rewrite lookup_insert_ne.
    + rewrite Hall'. apply (sound_top t Ht).
    + rewrite Hall'. apply (sound_future t Ht).
Qed.

Lemma PrimeTable_remove_sound value t :
  TableSound t → TableSound (PrimeTable_remove value t).2.
Proof.
  intros Ht. pose proof (PrimeTable_remove_spec value t (sound_inv t Ht))
    as [Hinv' Hsieve].
  unfold PrimeTable_remove in *.
  destruct (primeMap t !! value) as [p|] eqn:Hv; simpl in *; [|done].
  assert (Hr : reversePrimeMap t !! p = Some value) by (by apply Ht).
  assert (Hnotin : p ∉ primeHoles t).
  { intros Hin. apply (sound_holes_free t Ht) in Hin. congruence. }
  assert (Hall' : allocated
            (mkTable (nextPrime t) (sieveOfEratosthenes t)
               (pq_push p (primeHoles t)) (delete value (primeMap t))
               (delete p (reversePrimeMap t)))
            = allocated t).
  { unfold allocated. simpl. rewrite pq_push_perm. simpl.
    rewrite map_size_delete_Some by done.
    assert (size (primeMap t) ≠ 0)%nat; [|lia].
    apply map_size_ne_0_lookup. by exists value. }
  split; simpl.
  - done.
  - intros v' p'. simpl. by apply inverse_delete; [apply Ht|].
  - rewrite pq_push_perm. constructor; [done|apply Ht].
  - intros q Hq. rewrite pq_push_perm in Hq. apply lookup_delete_None.
    apply elem_of_cons in Hq as [->|Hq]; [by left|].
    right. by apply (sound_holes_free t Ht).
  - rewrite Hall'. intros q [Hq|Hq].
    + rewrite pq_push_perm in Hq. apply elem_of_cons in Hq as [->|Hq].
      * apply (sound_index t Ht). right. by eexists.
      * apply (sound_index t Ht). by left.
    + apply (sound_index t Ht). right.
      destruct Hq as [v' Hq]. apply lookup_delete_Some in Hq as [_ Hq].
      by eexists.
  - rewrite Hall'. intros i q Hi Hiq. rewrite pq_push_perm.
    destruct (sound_onto t Ht i q Hi Hiq) as [Hin|Hin].
    + left. by right.
    + destruct (decide (q = p)) as [->|Hne]; [left; by left|].
      right. by rewrite lookup_delete_ne.
  - rewrite Hall'. apply (sound_top t Ht).
  - rewrite Hall'. apply (sound_future t Ht).
Qed.

Lemma PrimeTable_background_sound fuel t t' :
  TableSound t → PrimeTable_background fuel t = Done t' → TableSound t'.
Proof.
  intros Ht Hrun.
  pose proof (PrimeTable_background_spec fuel t t' (sound_inv t Ht) Hrun)
    as [Hinv' Hmono].
  pose proof (sound_future t Ht) as Hf.
  unfold PrimeTable_background in Hrun.
  destruct (nextPrime t) as [|index|v] eqn:Hn; try by injection Hrun as <-.
  apply bind_Done in Hrun as ([q s] & Hget & Hrun). injection Hrun as <-.
  apply getPrimeNumber_spec in Hget as (Hs' & Hq & Hle & Hm);
    [|apply Ht].
  split; simpl; try apply Ht; [done| |].
  - intros Hpos. destruct (sound_top t Ht Hpos) as (q0 & Hq0 & Hle0).
    exists q0. split; [done|]. simpl in *. lia.
  - unfold allocated in *. simpl. by rewrite Hf, Nat2Z.id in Hq.
Qed.

Lemma PrimeTable_clear_sound fuel t t' :
  TableSound t → primeHoles t = [] →
  PrimeTable_clear fuel t = Done t' → TableSound t'.
Proof.
  intros Ht Hholes Hrun.
  pose proof (PrimeTable_clear_spec fuel t t' (sound_inv t Ht) Hrun)
    as [Hinv' _].
  unfold PrimeTable_clear in Hrun.
  apply bind_Done in Hrun as ([q s] & _ & Hrun). injection Hrun as <-.
  rewrite Hholes in *. split; simpl.
  - done.
  - intros v p. simpl. by rewrite !lookup_empty.
  - constructor.
  - intros p Hp. by apply not_elem_of_nil in Hp.
  - intros q0 [Hq0|[v Hq0]]; [by apply not_elem_of_nil in Hq0|].
    by rewrite lookup_empty in Hq0.
  - unfold allocated. simpl. rewrite map_size_empty. lia.
  - unfold allocated. simpl. rewrite map_size_empty. lia.
  - unfold allocated. simpl. by rewrite map_size_empty.
Qed.

Lemma table_sound_reachable_sound t : table_sound_reachable t → TableSound t.
Proof.
  induction 1 as [|t o fuel t' _ IH Hclear Hstep]; [apply TableSound_new|].
  destruct o as [value|value| |]; simpl in Hstep.
  - apply bind_Done in Hstep as ([q t1] & Hadd & Hstep). injection Hstep as <-.
    by apply PrimeTable_add_sound in Hadd as [? _].
  - injection Hstep as <-. by apply PrimeTable_remove_sound.
  - apply (PrimeTable_clear_sound fuel t); [done|by apply Hclear|done].
  - by apply (PrimeTable_background_sound fuel t).
Qed.

Lemma table_sound_reachable_reachable t :
  table_sound_reachable t → table_reachable t.
Proof.
  induction 1 as [|t o fuel t' _ IH _ Hstep]; [constructor|].
  by eapply table_reachable_step.
Qed.

Lemma run_table_sound_reachable fuel ops : ∀ t t',
  TClear ∉ ops → table_sound_reachable t →
  run_table fuel ops t = Done t' → table_sound_reachable t'.
Proof.
  induction ops as [|o ops IH]; intros t t' Hno Ht Hrun; simpl in Hrun.
  - by injection Hrun as <-.
  - apply bind_Done in Hrun as (t1 & Hstep & Hrun).
    apply not_elem_of_cons in Hno as [Hne Hno].
    apply (IH t1); [done| |done].
    apply (table_sound_reachable_step t o fuel); [done|congruence|done].
Qed.

End SoundTableProofs.

Lemma ab_program_no_clear : TClear ∉ ab_program.
Proof.
  intros Hin. repeat (apply elem_of_cons in Hin as [Hin|Hin]; [discriminate|]).
  by apply not_elem_of_nil in Hin.
Qed.

Lemma ab_table_sound_reachable : table_sound_reachable ab_table.
Proof.
  apply (run_table_sound_reachable 16 ab_program PrimeTable_new);
    [exact ab_program_no_clear|constructor|vm_compute; reflexivity].
Qed.

Lemma two_holes_table_sound_reachable : table_sound_reachable two_holes_table.
Proof.
  apply (run_table_sound_reachable 16 two_holes_program PrimeTable_new);
    [|constructor|vm_compute; reflexivity].
  intros Hin. repeat (apply elem_of_cons in Hin as [Hin|Hin]; [discriminate|]).
  by apply not_elem_of_nil in Hin.
Qed.

(** X5.  On a table on which [clear] is called only while the pool of holes
    is empty, at every point: the forward and the reverse map are mutual
    inverses, no prime is the prime of two values, the holes are distinct
    and none of them is assigned, and every prime held, assigned or hole,
    is a prime number. *)
Theorem sound_table_bijection {V : Type} `{Countable V} (t : PrimeTable V) :
  table_sound_reachable t →
  mutual_inverses t ∧
  (∀ v1 v2 p, primeMap t !! v1 = Some p → primeMap t !! v2 = Some p → v1 = v2) ∧
  NoDup (primeHoles t) ∧
  (∀ p, p ∈ primeHoles t → containsPrime p t = false) ∧
  (∀ v p, primeMap t !! v = Some p → prime p) ∧
  (∀ p, p ∈ primeHoles t → prime p).
Proof.
  intros Ht. apply table_sound_reachable_sound in Ht.
  split; [apply Ht|]. split; [|split; [apply Ht|split; [|split]]].
  - intros v1 v2 p H1 H2. apply (sound_inverse t Ht) in H1, H2. congruence.
  - intros p Hp. unfold containsPrime.
    rewrite (sound_holes_free t Ht p Hp). apply bool_decide_eq_false.
    by intros [? ?].
  - intros v p Hv. apply (sound_inverse t Ht) in Hv.
    destruct (sound_index t Ht p (or_intror (mk_is_Some _ _ Hv)))
      as (i & _ & [Hp _]).
    by apply is_prime_iff_prime.
  - intros p Hp.
    destruct (sound_index t Ht p (or_introl Hp)) as (i & _ & [Hq _]).
    by apply is_prime_iff_prime.
Qed.

Lemma sound_table_bijection_witness :
  table_sound_reachable two_holes_table ∧
  mutual_inverses two_holes_table ∧
  (∀ v1 v2 p, primeMap two_holes_table !! v1 = Some p →
              primeMap two_holes_table !! v2 = Some p → v1 = v2) ∧
  NoDup (primeHoles two_holes_table) ∧
  (∀ p, p ∈ primeHoles two_holes_table →
        containsPrime p two_holes_table = false) ∧
  (∀ v p, primeMap two_holes_table !! v = Some p → prime p) ∧
  (∀ p, p ∈ primeHoles two_holes_table → prime p).
Proof.
  split; [exact two_holes_table_sound_reachable|].
  exact (sound_table_bijection two_holes_table two_holes_table_sound_reachable).
Defined.

Section RegistryLimit.
Context {V : Type} `{Countable V}.
Implicit Types (t : PrimeTable V) (w : world V).

(** On a sound table without holes [add] asks the sieve for the index that
    is the number of values. *)
Lemma sound_requested_index t :
  TableSound t → primeHoles t = [] →
  requested_index t = Z.of_nat (size (primeMap t)).
Proof.
  intros Ht Hholes. pose proof (sound_future t Ht) as Hf.
  unfold requested_index, allocated in *. rewrite Hholes in Hf. simpl in Hf.
  destruct (nextPrime t); [done| |done]. rewrite Hf. f_equal. lia.
Qed.

(** [add] of a new value, no hole being free, does not return once the
    next prime is not below 2^31. *)
Lemma PrimeTable_add_never_returns (value : V) t p :
  TableSound t → primeMap t !! value = None → primeHoles t = [] →
  IsNthPrime (size (primeMap t)) p → 2 ^ 31 ≤ p →
  ∀ fuel r, PrimeTable_add fuel value t ≠ Done r.
Proof.
  intros Ht Hv Hholes Hp Hge fuel r Hrun. unfold PrimeTable_add in Hrun.
  rewrite Hv, Hholes in Hrun. simpl in Hrun.
  apply bind_Done in Hrun as ([q t1] & Hpick & _).
  apply bind_Done in Hpick as ([q' s] & Hget & _).
  destruct (sound_fresh_prime fuel t q' s Ht Hholes Hget)
    as (Hq & Hs & Hle & _).
  pose proof (IsNthPrime_unique _ _ _ Hp Hq) as <-.
  pose proof (SieveInv_tested_bound s Hs).
  pose proof (is_prime_not_2_31 p (proj1 Hp)). lia.
Qed.

(** [add] of a new value, no hole being free, returns the next prime when
    that is below 2^31. *)
Lemma PrimeTable_add_next (value : V) t p (fuel : nat) :
  TableSound t → primeMap t !! value = None → primeHoles t = [] →
  IsNthPrime (size (primeMap t)) p → p < 2 ^ 31 →
  3 * p + 2 < Z.of_nat fuel →
  ∃ t', PrimeTable_add fuel value t = Done (p, t') ∧
        size (primeMap t') = S (size (primeMap t)).
Proof.
  intros Ht Hv Hholes Hp Hlt Hfuel.
  destruct (PrimeTable_add_returns fuel value t _ p (sound_inv t Ht)
              (sound_requested_index t Ht Hholes) Hp Hlt Hfuel)
    as (q & t' & Hadd).
  destruct (PrimeTable_add_sound fuel value t q t' Ht Hadd) as [_ Hq].
  pose proof (IsNthPrime_unique _ _ _ Hp (Hq Hv Hholes)) as <-.
  exists t'. split; [done|].
  rewrite (PrimeTable_add_map _ _ _ _ _ Hadd).
  by apply map_size_insert_None.
Qed.


End RegistryLimit.

(** X6.  On a table on which [clear] is called only while the pool of
    holes is empty, while the pool is empty, [add] of a value that has no
    prime is asked for the prime [p] whose index is the number of values
    that have one.  If [p] is below 2^31, [add] returns [p], with enough
    fuel, and one value more has a prime: values get 2, 3, 5, 7, ... in
    the order they come.  If [p] is not below 2^31, [add] does not
    return, with whatever fuel.  Whenever [add] returns, with whatever
    fuel, it returns [p]. *)
Theorem add_takes_next_prime {V : Type} `{Countable V} (t : PrimeTable V)
    (value : V) (p : Z) :
  table_sound_reachable t →
  primeMap t !! value = None → primeHoles t = [] →
  IsNthPrime (size (primeMap t)) p →
  (p < 2 ^ 31 →
   ∀ fuel : nat, 3 * p + 2 < Z.of_nat fuel →
     ∃ t', PrimeTable_add fuel value t = Done (p, t') ∧
           size (primeMap t') = S (size (primeMap t))) ∧
  (2 ^ 31 ≤ p → ∀ fuel r, PrimeTable_add fuel value t ≠ Done r) ∧
  (∀ fuel q t', PrimeTable_add fuel value t = Done (q, t') → q = p).
Proof.
  intros Ht Hv Hholes Hp. apply table_sound_reachable_sound in Ht.
  split; [|split].
  - intros Hlt fuel Hfuel.
    by apply (PrimeTable_add_next value t p fuel).
  - intros Hge. by apply (PrimeTable_add_never_returns value t p).
  - intros fuel q t' Hadd.
    destruct (PrimeTable_add_sound fuel value t q t' Ht Hadd) as [_ Hq].
    symmetry. exact (IsNthPrime_unique _ _ _ Hp (Hq Hv Hholes)).
Qed.

Lemma add_takes_next_prime_witness :
  table_sound_reachable ab_table ∧
  primeMap ab_table !! "c"%string = None ∧ primeHoles ab_table = [] ∧
  IsNthPrime (size (primeMap ab_table)) 5 ∧
  (∃ t', PrimeTable_add 18 "c"%string ab_table = Done (5, t') ∧
         size (primeMap t') = S (size (primeMap ab_table))) ∧
  (2 ^ 31 ≤ 5 →
   ∀ fuel r, PrimeTable_add fuel "c"%string ab_table ≠ Done r) ∧
  (∀ fuel q t', PrimeTable_add fuel "c"%string ab_table = Done (q, t') →
                q = 5).
Proof.
  assert (Hv : primeMap ab_table !! "c"%string = None) by reflexivity.
  assert (Hholes : primeHoles ab_table = []) by reflexivity.
  assert (Hp : IsNthPrime (size (primeMap ab_table)) 5)
    by (split; reflexivity).
  assert (Hlt : 5 < 2 ^ 31) by reflexivity.
  assert (Hfuel : 3 * 5 + 2 < Z.of_nat 18) by reflexivity.
  split; [exact ab_table_sound_reachable|]. split; [exact Hv|].
  split; [exact Hholes|]. split; [exact Hp|].
  split;
    [|exact (proj2 (add_takes_next_prime ab_table "c"%string 5
                      ab_table_sound_reachable Hv Hholes Hp))].
  exact (proj1 (add_takes_next_prime ab_table "c"%string 5
                  ab_table_sound_reachable Hv Hholes Hp) Hlt 18%nat Hfuel).
Defined.

(** X7.  [add] is idempotent on every table whatsoever: once it has
    returned a prime for a value, [add] of the same value returns the same
    prime with any fuel and leaves the table as it is, and [getPrime]
    returns that prime. *)
Theorem add_idempotent {V : Type} `{Countable V} (t : PrimeTable V)
    (value : V) (fuel : nat) (p : Z) (t' : PrimeTable V) :
  PrimeTable_add fuel value t = Done (p, t') →
  (∀ fuel', PrimeTable_add fuel' value t' = Done (p, t')) ∧
  PrimeTable_getPrime value t' = p.
Proof.
  intros Hadd.
  assert (Hv : primeMap t' !! value = Some p).
  { rewrite (PrimeTable_add_map _ _ _ _ _ Hadd). apply lookup_insert_eq. }
  split.
  - intros fuel'. unfold PrimeTable_add. by rewrite Hv.
  - unfold PrimeTable_getPrime. by rewrite Hv.
Qed.

Lemma add_idempotent_witness :
  PrimeTable_add 16 "c"%string ab_table = Done (5, abc_table) ∧
  (∀ fuel', PrimeTable_add fuel' "c"%string abc_table = Done (5, abc_table)) ∧
  PrimeTable_getPrime "c"%string abc_table = 5.
Proof.
  assert (Hadd : PrimeTable_add 16 "c"%string ab_table = Done (5, abc_table))
    by (vm_compute; reflexivity).
  split; [exact Hadd|].
  exact (add_idempotent ab_table "c"%string 16 5 abc_table Hadd).
Defined.

Lemma pq_push_top x q :
  Forall (λ y, y ≤ x) q → pq_push x q = x :: q.
Proof.
  intros Hq. destruct q as [|y q]; simpl; [done|].
  apply Forall_cons in Hq as [Hy _].
  by rewrite (proj2 (Z.leb_le y x)).
Qed.

(** X8.  On such a table, [add] of a value that has no prime followed by
    [remove] of that value: [remove] returns the prime [add] returned, both
    maps are as they were before the [add], and the pool of holes is as it
    was if the prime came from it, and holds just that prime if the pool
    was empty. *)
Theorem table_add_remove_roundtrip {V : Type} `{Countable V}
    (t : PrimeTable V) (value : V) (fuel : nat) (p : Z) (t' : PrimeTable V) :
  table_sound_reachable t → primeMap t !! value = None →
  PrimeTable_add fuel value t = Done (p, t') →
  (PrimeTable_remove value t').1 = p ∧
  primeMap (PrimeTable_remove value t').2 = primeMap t ∧
  reversePrimeMap (PrimeTable_remove value t').2 = reversePrimeMap t ∧
  primeHoles (PrimeTable_remove value t').2
  = match primeHoles t with [] => [p] | _ => primeHoles t end.
Proof.
  intros Ht Hv Hadd. apply table_sound_reachable_sound in Ht.
  assert (Hfree : reversePrimeMap t !! p = None ∧
            reversePrimeMap t' = <[p := value]> (reversePrimeMap t) ∧
            pq_push p (primeHoles t')
            = match primeHoles t with [] => [p] | _ => primeHoles t end).
  { pose proof Hadd as Hadd0. unfold PrimeTable_add in Hadd. rewrite Hv in Hadd.
    apply bind_Done in Hadd as ([q t1] & Hpick & Hadd).
    injection Hadd as <- <-.
    destruct (primeHoles t) as [|top rest] eqn:Hholes; simpl in Hpick.
    - apply bind_Done in Hpick as ([q' s] & Hget & Hpick).
      injection Hpick as <- <-. simpl.
      destruct (sound_fresh_prime fuel t q' s Ht Hholes Hget) as (Hq & _).
      split; [|done].
      destruct (reversePrimeMap t !! q') as [v|] eqn:Hr; [|done].
      destruct (sound_index t Ht q' (or_intror (mk_is_Some _ _ Hr)))
        as (i & Hi & Hiq).
      pose proof (IsNthPrime_index_unique _ _ _ Hq Hiq).
      unfold allocated in Hi. rewrite Hholes in Hi. simpl in Hi. lia.
    - injection Hpick as <- <-. simpl.
      split; [apply (sound_holes_free t Ht); rewrite Hholes; by left|].
      split; [done|].
      apply pq_push_top.
      pose proof (tinv_sorted t (sound_inv t Ht)) as Hso. rewrite Hholes in Hso.
      by apply StronglySorted_inv in Hso as [_ Hall]. }
  destruct Hfree as (Hfree & Hrev & Hpush).
  pose proof (PrimeTable_add_map _ _ _ _ _ Hadd) as Hmap.
  unfold PrimeTable_remove. rewrite Hmap, lookup_insert_eq. simpl.
  rewrite Hrev. split; [done|].
  split; [by apply delete_insert_id|]. split; [by apply delete_insert_id|done].
Qed.

Lemma table_add_remove_roundtrip_witness :
  table_sound_reachable ab_table ∧ primeMap ab_table !! "c"%string = None ∧
  PrimeTable_add 16 "c"%string ab_table = Done (5, abc_table) ∧
  (PrimeTable_remove "c"%string abc_table).1 = 5 ∧
  primeMap (PrimeTable_remove "c"%string abc_table).2 = primeMap ab_table ∧
  reversePrimeMap (PrimeTable_remove "c"%string abc_table).2
  = reversePrimeMap ab_table ∧
  primeHoles (PrimeTable_remove "c"%string abc_table).2
  = match primeHoles ab_table with [] => [5] | _ => primeHoles ab_table end.
Proof.
  assert (Hv : primeMap ab_table !! "c"%string = None) by reflexivity.
  assert (Hadd : PrimeTable_add 16 "c"%string ab_table = Done (5, abc_table))
    by (vm_compute; reflexivity).
  split; [exact ab_table_sound_reachable|]. split; [exact Hv|].
  split; [exact Hadd|].
  exact (table_add_remove_roundtrip ab_table "c"%string 16 5 abc_table
           ab_table_sound_reachable Hv Hadd).
Defined.

(** X9.  On such a table the two lookups are inverse to each other: for a
    value with a prime, [getValue] of the prime [getPrime] returns is that
    value and [containsPrime] of it is true; for a prime [containsPrime]
    accepts, [getPrime] of the value [getValue] returns is that prime; for
    a prime it rejects, [getValue] throws. *)
Theorem getValue_getPrime {V : Type} `{Countable V} (t : PrimeTable V) :
  table_sound_reachable t →
  (∀ v, PrimeTable_getPrime v t ≠ 0 →
        getValue (PrimeTable_getPrime v t) t = Done v ∧
        containsPrime (PrimeTable_getPrime v t) t = true) ∧
  (∀ p, containsPrime p t = true →
        ∃ v, getValue p t = Done v ∧ PrimeTable_getPrime v t = p) ∧
  (∀ p, containsPrime p t = false → getValue p t = Fault OutOfRange).
Proof.
  intros Ht. apply table_sound_reachable_sound in Ht.
  split; [|split].
  - intros v Hne. unfold PrimeTable_getPrime in *.
    destruct (primeMap t !! v) as [p|] eqn:Hv; [|done].
    apply (sound_inverse t Ht) in Hv. unfold getValue, containsPrime.
    rewrite Hv. split; [done|]. by apply bool_decide_eq_true.
  - intros p Hp. unfold containsPrime in Hp.
    apply bool_decide_eq_true in Hp as [v Hv]. exists v.
    unfold getValue, PrimeTable_getPrime. rewrite Hv.
    apply (sound_inverse t Ht) in Hv. by rewrite Hv.
  - intros p Hp. unfold containsPrime in Hp. apply bool_decide_eq_false in Hp.
    unfold getValue. destruct (reversePrimeMap t !! p) eqn:Hr; [|done].
    destruct Hp. by eexists.
Qed.

Lemma getValue_getPrime_witness :
  table_sound_reachable ab_table ∧
  (∀ v, PrimeTable_getPrime v ab_table ≠ 0 →
        getValue (PrimeTable_getPrime v ab_table) ab_table = Done v ∧
        containsPrime (PrimeTable_getPrime v ab_table) ab_table = true) ∧
  (∀ p, containsPrime p ab_table = true →
        ∃ v, getValue p ab_table = Done v ∧ PrimeTable_getPrime v ab_table = p) ∧
  (∀ p, containsPrime p ab_table = false →
        getValue p ab_table = Fault OutOfRange).
Proof.
  split; [exact ab_table_sound_reachable|].
  exact (getValue_getPrime ab_table ab_table_sound_reachable).
Defined.

(** X10.  When the worker thread finishes the prefetch does not show: in
    every state a table reaches, if [add] returns a prime, then [add] made
    after the worker has run returns the same prime and leaves the same
    maps and the same pool of holes. *)
Theorem background_transparent {V : Type} `{Countable V} (t tb : PrimeTable V)
    (value : V) (fuel0 fuel : nat) (p : Z) (t' : PrimeTable V) :
  table_reachable t →
  PrimeTable_background fuel0 t = Done tb →
  PrimeTable_add fuel value t = Done (p, t') →
  ∃ tb', PrimeTable_add fuel value tb = Done (p, tb') ∧
         primeMap tb' = primeMap t' ∧
         reversePrimeMap tb' = reversePrimeMap t' ∧
         primeHoles tb' = primeHoles t'.
Proof.
  intros Ht Hbg Hadd. apply table_reachable_inv in Ht.
  unfold PrimeTable_background in Hbg.
  destruct (nextPrime t) as [|index|v] eqn:Hn;
    try (injection Hbg as <-; by eauto).
  apply bind_Done in Hbg as ([q s0] & Hget0 & Hbg). injection Hbg as <-.
  unfold PrimeTable_add in *. simpl.
  destruct (primeMap t !! value) as [q'|] eqn:Hv.
  { injection Hadd as <- <-. by eauto. }
  apply bind_Done in Hadd as ([q1 t1] & Hpick & Hadd).
  injection Hadd as <- <-.
  destruct (primeHoles t) as [|top rest] eqn:Hholes; simpl in *.
  - apply bind_Done in Hpick as ([q2 s] & Hget & Hpick).
    injection Hpick as <- <-. rewrite Hn in Hget. simpl in *.
    apply getPrimeNumber_spec in Hget0 as (_ & Hq & _); [|apply Ht].
    apply getPrimeNumber_spec in Hget as (_ & Hq2 & _); [|apply Ht].
    rewrite (IsNthPrime_unique _ _ _ Hq Hq2). by eauto.
  - injection Hpick as <- <-. simpl. by eauto.
Qed.

Lemma background_transparent_witness :
  table_reachable ab_table ∧
  PrimeTable_background 16 ab_table = Done ab_table_prefetched ∧
  PrimeTable_add 16 "c"%string ab_table = Done (5, abc_table) ∧
  ∃ tb', PrimeTable_add 16 "c"%string ab_table_prefetched = Done (5, tb') ∧
         primeMap tb' = primeMap abc_table ∧
         reversePrimeMap tb' = reversePrimeMap abc_table ∧
         primeHoles tb' = primeHoles abc_table.
Proof.
  assert (Ht : table_reachable ab_table)
    by exact (table_sound_reachable_reachable _ ab_table_sound_reachable).
  assert (Hbg : PrimeTable_background 16 ab_table = Done ab_table_prefetched)
    by (vm_compute; reflexivity).
  assert (Hadd : PrimeTable_add 16 "c"%string ab_table = Done (5, abc_table))
    by (vm_compute; reflexivity).
  split; [exact Ht|]. split; [exact Hbg|]. split; [exact Hadd|].
  exact (background_transparent ab_table ab_table_prefetched "c"%string 16 16 5
           abc_table Ht Hbg Hadd).
Defined.

(** ** Counting in a bag *)

Lemma log2_quot_lt h p : 1 ≤ h → 2 ≤ p → Z.rem h p = 0 →
  Z.log2 (Z.quot h p) < Z.log2 h.
Proof.
  intros Hh Hp Hrem. pose proof (quot_exact_pos h p Hh ltac:(lia) Hrem) as Hq.
  pose proof (Z.quot_rem' h p) as Heq. rewrite Hrem in Heq.
  pose proof (Z.log2_double (Z.quot h p) ltac:(lia)) as Hd.
  pose proof (Z.log2_le_mono (2 * Z.quot h p) h ltac:(nia)). lia.
Qed.

Lemma wrap32_add_l a b : wrap32 (wrap32 a + b) = wrap32 (a + b).
Proof. unfold wrap32. by rewrite Z.add_mod_idemp_l by done. Qed.

(** The loop of [count] divides out the prime as often as it divides. *)
Lemma count_loop_multiplicity fuel : ∀ h p r,
  2 ≤ p → 1 ≤ h → Z.log2 h < Z.of_nat fuel →
  ∃ k : nat,
    count_loop fuel h p r = Done (if k is O then r else wrap32 (r + Z.of_nat k)) ∧
    (p ^ Z.of_nat k | h) ∧ ¬ (p ^ (Z.of_nat k + 1) | h).
Proof.
  induction fuel as [|fuel IH]; intros h p r Hp Hh Hfuel.
  { pose proof (Z.log2_nonneg h). lia. }
  simpl. rewrite containsHash_Done by lia. simpl.
  destruct (Z.eqb_spec (Z.rem h p) 0) as [Hrem|Hrem].
  - rewrite bignum_div_Done by lia. simpl.
    pose proof (log2_quot_lt h p Hh Hp Hrem).
    destruct (IH (Z.quot h p) p (wrap32 (r + 1)) Hp
                (quot_exact_pos h p Hh ltac:(lia) Hrem) ltac:(lia))
      as (k & Hrun & Hdiv & Hndiv).
    pose proof (Z.quot_rem' h p) as Heq. rewrite Hrem, Z.add_0_r in Heq.
    exists (S k). rewrite Hrun. clear Hrun. revert Hdiv Hndiv Heq.
    generalize (Z.quot h p). intros q Hdiv Hndiv ->. split; [|split].
    + destruct k; [done|]. rewrite wrap32_add_l. do 2 f_equal. lia.
    + rewrite Nat2Z.inj_succ, Z.pow_succ_r by lia.
      by apply Z.mul_divide_mono_l.
    + rewrite Nat2Z.inj_succ.
      replace (Z.succ (Z.of_nat k) + 1) with (Z.succ (Z.of_nat k + 1)) by lia.
      rewrite Z.pow_succ_r by lia.
      intros Hd. apply Hndiv. by apply Z.mul_divide_cancel_l in Hd; [|lia].
  - exists 0%nat. split; [done|]. split; [apply Z.divide_1_l|].
    simpl. rewrite Z.pow_1_r. intros Hd. apply Hrem.
    by apply Z.rem_divide; [lia|].
Qed.

Lemma count_loop_shift fuel : ∀ h p r c,
  count_loop fuel h p r = Done c →
  count_loop fuel h p (wrap32 (r + 1)) = Done (wrap32 (c + 1)).
Proof.
  induction fuel as [|fuel IH]; intros h p r c Hrun; simpl in *;
    [discriminate|].
  destruct (containsHash h p) as [[]| |]; simpl in *; try discriminate.
  - destruct (bignum_div h p); simpl in *; try discriminate. by apply IH.
  - by injection Hrun as <-.
Qed.

Section BagCounting.
Context {V : Type} `{Countable V}.
Implicit Types (w : world V) (b : PrimeBag).

(** X11.  In every store a program reaches, [count] of a value the
    registry knows returns, with fuel above the binary logarithm of the
    hash, the multiplicity of the prime of the value in the hash: the [k],
    taken in 32 bits, such that the [k]-th power of the prime divides the
    hash and the next power does not. *)
Theorem count_is_multiplicity w (this : ptr) (value : V) b t (fuel : nat) :
  reachable w →
  bags w !! this = Some b → tables w !! Bag.globalTable b = Some t →
  PrimeTable_getPrime value t ≠ 0 →
  Z.log2 (Bag.hash b) < Z.of_nat fuel →
  ∃ k : nat,
    PrimeBag_count fuel this value w = Done (wrap32 (Z.of_nat k)) ∧
    (PrimeTable_getPrime value t ^ Z.of_nat k | Bag.hash b) ∧
    ¬ (PrimeTable_getPrime value t ^ (Z.of_nat k + 1) | Bag.hash b).
Proof.
  intros Hw Hb Ht Hne Hfuel. apply reachable_inv in Hw.
  destruct (getPrime_nonzero value t (winv_tables w Hw _ t Ht) Hne)
    as (_ & Hp & _).
  destruct (count_loop_multiplicity fuel (Bag.hash b)
              (PrimeTable_getPrime value t) 0 Hp (winv_hash w Hw this b Hb)
              Hfuel) as (k & Hrun & Hdiv & Hndiv).
  exists k. split; [|done].
  unfold PrimeBag_count. rewrite (load_Some _ _ _ Hb). simpl.
  rewrite (load_Some _ _ _ Ht). simpl.
  rewrite (proj2 (Z.eqb_neq _ _) Hne). simpl. rewrite Hrun.
  by destruct k.
Qed.

(** X12.  In every store a program reaches, after [add] of a value to a
    bag: the size of the bag is one more, in 32 bits; [contains] of the
    value returns true; and if the registry knew the value before, [count]
    of it returns one more, in 32 bits, than [count] returned before. *)
Theorem add_then_count w (this : ptr) (value : V) (fuel0 fuel : nat) w1 b t
    (c : Z) :
  reachable w →
  PrimeBag_add fuel0 this value w = Done w1 →
  bags w !! this = Some b → tables w !! Bag.globalTable b = Some t →
  PrimeTable_getPrime value t ≠ 0 →
  PrimeBag_count fuel this value w = Done c →
  PrimeBag_size this w1 = Done (wrap32 (Bag.length b + 1)) ∧
  PrimeBag_contains this value w1 = Done true ∧
  PrimeBag_count (S fuel) this value w1 = Done (wrap32 (c + 1)).
Proof.
  intros Hw Hadd Hb Ht Hne Hc. apply reachable_inv in Hw.
  apply PrimeBag_add_Done in Hadd as (b' & t0 & p & t' & Hb' & Ht0 & Hadd & ->).
  replace b' with b in * by congruence. replace t0 with t in * by congruence.
  destruct (getPrime_nonzero value t (winv_tables w Hw _ t Ht) Hne)
    as (Hv & Hp & _).
  assert (Hpe : p = PrimeTable_getPrime value t).
  { unfold PrimeTable_add in Hadd. rewrite Hv in Hadd. by injection Hadd as <- _. }
  assert (Ht' : t' = t).
  { unfold PrimeTable_add in Hadd. rewrite Hv in Hadd. by injection Hadd as _ <-. }
  subst t'. rewrite <- Hpe in *.
  unfold PrimeBag_size, PrimeBag_contains, PrimeBag_count in *.
  rewrite (load_Some _ _ _ Hb) in Hc. simpl in Hc.
  rewrite (load_Some _ _ _ Ht) in Hc. simpl in Hc.
  rewrite <- Hpe, (proj2 (Z.eqb_neq p 0)) in Hc by lia. simpl in Hc.
  unfold load. simpl. rewrite !lookup_insert_eq. simpl.
  rewrite lookup_insert_eq. simpl.
  rewrite <- Hpe, (proj2 (Z.eqb_neq p 0)) by lia. simpl.
  rewrite containsHash_Done by lia. rewrite Z.rem_mul by lia. simpl.
  split; [done|]. split; [done|].
  rewrite bignum_div_Done by lia. simpl. rewrite Z.quot_mul by lia.
  by apply count_loop_shift.
Qed.

(** X13.  In every store a program reaches, [remove] of a value from a bag
    returns what [contains] returns.  When that is false the store is left
    as it is and [count] returns 0; when it is true the hash is divided by
    the prime of the value, the size is one less, in 32 bits, and [count]
    before the [remove] was one more, in 32 bits, than after it. *)
Theorem remove_agrees_with_contains w (this : ptr) (value : V) b t
    (present : bool) (fuel : nat) :
  reachable w →
  bags w !! this = Some b → tables w !! Bag.globalTable b = Some t →
  PrimeBag_contains this value w = Done present →
  ∃ w',
    PrimeBag_remove this value w = Done (present, w') ∧
    tables w' = tables w ∧
    if present then
      bags w' !! this
      = Some (Bag.mk (Bag.globalTable b)
                (Z.quot (Bag.hash b) (PrimeTable_getPrime value t))
                (wrap32 (Bag.length b - 1))) ∧
      ∀ c, PrimeBag_count fuel this value w' = Done c →
           PrimeBag_count (S fuel) this value w = Done (wrap32 (c + 1))
    else
      w' = w ∧ PrimeBag_count (S fuel) this value w = Done 0.
Proof.
  intros Hw Hb Ht Hc. apply reachable_inv in Hw.
  rewrite (PrimeBag_remove_spec this value w b t Hb Ht).
  unfold PrimeBag_contains, PrimeBag_count in *.
  rewrite (load_Some _ _ _ Hb) in *. simpl in *.
  rewrite (load_Some _ _ _ Ht) in *. simpl in *.
  destruct (Z.eqb_spec (PrimeTable_getPrime value t) 0) as [Hz|Hne];
    simpl in *.
  { injection Hc as <-. by eauto. }
  rewrite containsHash_Done in * by done. simpl. injection Hc as <-.
  destruct (Z.eqb_spec (Z.rem (Bag.hash b) (PrimeTable_getPrime value t)) 0)
    as [Hrem|Hrem]; [|by eauto].
  eexists. split; [done|]. split; [done|]. simpl.
  rewrite lookup_insert_eq. split; [done|].
  intros c Hcount. unfold load in Hcount. simpl in Hcount.
  rewrite lookup_insert_eq in Hcount. simpl in Hcount.
  rewrite Ht in Hcount. simpl in Hcount.
  rewrite (proj2 (Z.eqb_neq _ _) Hne) in Hcount. simpl in Hcount.
  rewrite bignum_div_Done by done. simpl. by apply count_loop_shift.
Qed.

(** X14.  In every store a program reaches, after [clear] of a bag the
    registry is as before, the size is 0, [contains] is false and [count]
    is 0 for every value, [asVector] is empty, and [begin()] is the cursor
    [end()]. *)
Theorem clear_empties_bag w (this : ptr) w' :
  reachable w → PrimeBag_clear this w = Done w' →
  tables w' = tables w ∧
  PrimeBag_size this w' = Done 0 ∧
  (∀ value, PrimeBag_contains this value w' = Done false) ∧
  (∀ value fuel, PrimeBag_count (S fuel) this value w' = Done 0) ∧
  (∀ fuel, PrimeBag_asVector fuel this w' = Done []) ∧
  (∀ fuel, PrimeBag_begin fuel this w' = PrimeBag_end fuel this w').
Proof.
  intros Hw Hrun. apply reachable_inv in Hw.
  apply bind_Done in Hrun as (b & Hb & Hrun). apply load_Done in Hb.
  injection Hrun as <-.
  destruct (winv_bound w Hw this b Hb) as [t Ht].
  pose proof (winv_tables w Hw _ t Ht) as Htinv.
  unfold PrimeBag_size, PrimeBag_contains, PrimeBag_count, PrimeBag_asVector,
    PrimeBag_begin, PrimeBag_end, PrimeBagIterator_new, load.
  simpl. rewrite lookup_insert_eq. simpl. rewrite Ht. simpl.
  split; [done|]. split; [done|].
  assert (Hrem : ∀ value, PrimeTable_getPrime value t ≠ 0 →
            containsHash 1 (PrimeTable_getPrime value t) = Done false).
  { intros value Hne.
    destruct (getPrime_nonzero value t Htinv Hne) as (_ & Hp & _).
    rewrite containsHash_Done by done. by rewrite Z.rem_small by lia. }
  split; [|split; [|split; [|done]]].
  - intros value.
    destruct (Z.eqb_spec (PrimeTable_getPrime value t) 0); simpl; [done|].
    by apply Hrem.
  - intros value fuel.
    destruct (Z.eqb_spec (PrimeTable_getPrime value t) 0); simpl; [done|].
    by rewrite Hrem.
  - intros fuel. by destruct (getPrimeNumbers t).
Qed.

(** X15.  Bags are not told when the registry recycles a prime.  In every
    store, if the hash of a bag is divisible by the prime that heads the
    pool of holes, then after the registry's [add] of a value that has no
    prime the bag [contains] that value, which was never added to it. *)
Theorem recycled_prime_aliases w (this : ptr) (value : V) b t top rest
    (fuel : nat) :
  bags w !! this = Some b → tables w !! Bag.globalTable b = Some t →
  primeMap t !! value = None → primeHoles t = top :: rest →
  top ≠ 0 → Z.rem (Bag.hash b) top = 0 →
  PrimeBag_contains this value w = Done false ∧
  ∃ w', step fuel (OnTable (Bag.globalTable b) (TAdd value)) w = Done w' ∧
        bags w' = bags w ∧
        PrimeBag_contains this value w' = Done true.
Proof.
  intros Hb Ht Hv Hholes Hne Hrem. split.
  - unfold PrimeBag_contains. rewrite (load_Some _ _ _ Hb). simpl.
    rewrite (load_Some _ _ _ Ht). simpl.
    unfold PrimeTable_getPrime. by rewrite Hv.
  - simpl. rewrite (load_Some _ _ _ Ht). simpl.
    rewrite (PrimeTable_add_hole fuel value t top rest Hv Hholes). simpl.
    eexists. split; [done|]. split; [done|].
    unfold PrimeBag_contains, load. simpl. rewrite Hb. simpl.
    rewrite lookup_insert_eq. simpl.
    unfold PrimeTable_getPrime. simpl. rewrite lookup_insert_eq.
    rewrite (proj2 (Z.eqb_neq _ _) Hne). simpl.
    rewrite containsHash_Done by done. by rewrite Hrem.
Qed.

End BagCounting.

(** ** Decoding a bag *)

Lemma IsNthPrime_lt i j q q' :
  IsNthPrime i q → IsNthPrime j q' → (i < j)%nat → q < q'.
Proof.
  intros [Hq Hi] [Hq' Hj] Hlt. destruct (Z_lt_ge_dec q q') as [|Hge]; [done|].
  pose proof (is_prime_ge_2 q' Hq').
  rewrite (primes_between_app 2 (q' - 1) (q - 1)) in Hi by lia.
  rewrite length_app in Hi. lia.
Qed.

Lemma replicate_sorted_le {A} (f : A → Z) (k : nat) (x : A) :
  StronglySorted (λ a b, f a ≤ f b) (replicate k x).
Proof.
  induction k as [|k IH]; simpl; constructor; [done|].
  apply Forall_forall. intros y Hy. apply elem_of_replicate in Hy as [-> _].
  lia.
Qed.

Section DecodingProofs.
Context {V : Type} `{Countable V}.
Implicit Types (w : world V) (t : PrimeTable V) (b : PrimeBag) (l : list V).

Lemma encoding_app t l1 l2 :
  encoding t (l1 ++ l2) = encoding t l1 * encoding t l2.
Proof.
  induction l1 as [|v l1 IH]; simpl; [lia|].
  unfold encoding in *. simpl. rewrite IH. ring.
Qed.

Lemma encoding_perm t l1 l2 : l1 ≡ₚ l2 → encoding t l1 = encoding t l2.
Proof.
  induction 1 as [|v l1 l2 _ IH|v1 v2 l|l1 l2 l3 _ IH1 _ IH2];
    unfold encoding in *; simpl; [done| |ring|congruence].
  by rewrite IH.
Qed.

Lemma encoding_replicate t (k : nat) v :
  encoding t (replicate k v) = PrimeTable_getPrime v t ^ Z.of_nat k.
Proof.
  induction k as [|k IH]; [done|].
  rewrite Nat2Z.inj_succ, Z.pow_succ_r by lia.
  unfold encoding in *. simpl. by rewrite IH.
Qed.

Lemma encoding_ext t t' l :
  Forall (λ v, PrimeTable_getPrime v t' = PrimeTable_getPrime v t) l →
  encoding t' l = encoding t l.
Proof.
  induction 1 as [|v l Hv _ IH]; [done|].
  unfold encoding in *. simpl. by rewrite Hv, IH.
Qed.

Lemma prime_not_divide_encoding t q l :
  prime q →
  Forall (λ v, prime (PrimeTable_getPrime v t) ∧ PrimeTable_getPrime v t ≠ q) l →
  ¬ (q | encoding t l).
Proof.
  intros Hq. induction 1 as [|v l [Hp Hne] _ IH]; unfold encoding in *; simpl.
  - intros Hd. apply Z.divide_1_r in Hd. destruct Hq as [Hq1 _]. lia.
  - intros Hd. apply prime_mult in Hd as [Hd|Hd]; [|done|done].
    apply Hne. symmetry. by apply prime_div_prime.
Qed.

(** The inner loop of [asVector] on a hash that holds the prime [k]
    times. *)
Lemma asVector_inner_spec (k : nat) : ∀ fuel (v : V) q h' c r,
  2 ≤ q → ¬ (q | h') → Z.of_nat k ≤ c < 2 ^ 32 → (k < fuel)%nat →
  asVector_inner fuel v q (q ^ Z.of_nat k * h') c r
  = Done (h', c - Z.of_nat k, r ++ replicate k v).
Proof.
  induction k as [|k IH]; intros fuel v q h' c r Hq Hnd Hc Hfuel;
    (destruct fuel as [|fuel]; [lia|]).
  - rewrite Z.pow_0_r, Z.mul_1_l. cbn [asVector_inner].
    rewrite containsHash_Done by lia.
    rewrite (proj2 (Z.eqb_neq (Z.rem h' q) 0)).
    + cbn. by rewrite Z.sub_0_r, app_nil_r.
    + intros Hrem. apply Hnd. by apply Z.rem_divide; [lia|].
  - replace (q ^ Z.of_nat (S k) * h') with (q ^ Z.of_nat k * h' * q).
    2:{ rewrite Nat2Z.inj_succ, Z.pow_succ_r by lia. ring. }
    cbn [asVector_inner].
    rewrite containsHash_Done by lia. rewrite Z.rem_mul by lia.
    cbn [mbind outcome_bind Z.eqb].
    rewrite bignum_div_Done by lia. cbn [mbind outcome_bind].
    rewrite Z.quot_mul by lia.
    rewrite wrap32_small by lia.
    rewrite (IH fuel v q h' (c - 1) (r ++ [v])) by (done || lia).
    do 2 f_equal; [f_equal; lia|]. by rewrite <- app_assoc.
Qed.

Lemma all_equal_replicate {A} (l : list A) (x : A) :
  (∀ y, y ∈ l → y = x) → l = replicate (length l) x.
Proof. intros Hall. symmetry. by apply replicate_as_elem_of. Qed.

(** The loop of [asVector] over a strictly ascending list of primes that
    holds the primes of all the values of the bag, no prime up to the
    largest of these being unassigned. *)
Lemma asVector_loop_decode fuel t : ∀ ps l r,
  mutual_inverses t →
  StronglySorted Z.lt ps → Forall (λ q, is_prime q = true) ps →
  Forall (λ v, PrimeTable_getPrime v t ∈ ps) l →
  Z.of_nat (length l) < 2 ^ 32 → (length l < fuel)%nat →
  (∀ q v, q ∈ ps → v ∈ l → q ≤ PrimeTable_getPrime v t →
          is_Some (reversePrimeMap t !! q)) →
  ∃ l', asVector_loop fuel t ps (encoding t l) (Z.of_nat (length l)) r
          = Done (r ++ l') ∧
        l' ≡ₚ l ∧
        StronglySorted
          (λ x y, PrimeTable_getPrime x t ≤ PrimeTable_getPrime y t) l'.
Proof.
  intros ps. induction ps as [|q ps IH]; intros l r Hinv Hso Hpr Hl Hlen Hfuel Hgap.
  { destruct l as [|v l].
    - exists []. simpl. rewrite app_nil_r. split; [done|]. split; [done|constructor].
    - apply Forall_cons in Hl as [Hv _]. by apply not_elem_of_nil in Hv. }
  destruct l as [|v0 l0] eqn:Hl0.
  { exists []. simpl. rewrite app_nil_r. split; [done|]. split; [done|constructor]. }
  rewrite <- Hl0 in *. assert (Hv0 : v0 ∈ l) by (rewrite Hl0; by left).
  clear Hl0 l0.
  apply StronglySorted_inv in Hso as [Hso Hq_lt].
  apply Forall_cons in Hpr as [Hq Hpr].
  pose proof (is_prime_ge_2 q Hq) as Hq2.
  assert (Hge : ∀ v, v ∈ l → q ≤ PrimeTable_getPrime v t).
  { intros v Hv. apply (proj1 (Forall_forall _ _) Hl) in Hv.
    apply elem_of_cons in Hv as [->|Hv]; [lia|].
    apply (proj1 (Forall_forall _ _) Hq_lt) in Hv. lia. }
  destruct (Hgap q v0 ltac:(by left) Hv0 (Hge v0 Hv0)) as [vq Hvq].
  assert (Hpq : PrimeTable_getPrime vq t = q).
  { unfold PrimeTable_getPrime. apply Hinv in Hvq. by rewrite Hvq. }
  set (lq := filter (λ v, PrimeTable_getPrime v t = q) l).
  set (lr := filter (λ v, ¬ PrimeTable_getPrime v t = q) l).
  assert (Hperm : lq ++ lr ≡ₚ l) by apply filter_app_complement.
  assert (Hlq : lq = replicate (length lq) vq).
  { apply all_equal_replicate. intros v Hv.
    apply list_elem_of_filter in Hv as [Hv _].
    unfold PrimeTable_getPrime in Hv.
    destruct (primeMap t !! v) as [p|] eqn:Hm; [|lia]. subst p.
    apply Hinv in Hm. congruence. }
  assert (Hlr : Forall (λ v, PrimeTable_getPrime v t ∈ ps) lr).
  { apply Forall_forall. intros v Hv.
    apply list_elem_of_filter in Hv as [Hne Hv].
    apply (proj1 (Forall_forall _ _) Hl) in Hv.
    apply elem_of_cons in Hv as [?|?]; done. }
  assert (Hnd : ¬ (q | encoding t lr)).
  { apply prime_not_divide_encoding; [by apply is_prime_iff_prime|].
    apply Forall_forall. intros v Hv.
    pose proof (proj1 (Forall_forall _ _) Hlr v Hv) as Hin.
    apply (proj1 (Forall_forall _ _) Hpr) in Hin.
    apply list_elem_of_filter in Hv as [Hne _].
    split; [by apply is_prime_iff_prime|done]. }
  assert (Henc : encoding t l = q ^ Z.of_nat (length lq) * encoding t lr).
  { rewrite <- (encoding_perm t _ _ Hperm), encoding_app.
    rewrite Hlq at 1. by rewrite encoding_replicate, Hpq. }
  assert (Hlens : length l = (length lq + length lr)%nat).
  { by rewrite <- Hperm, length_app. }
  destruct (IH lr (r ++ replicate (length lq) vq) Hinv Hso Hpr Hlr
              ltac:(lia) ltac:(lia)) as (l'' & Hrun & Hperm'' & Hso'').
  { intros q' v Hq' Hv Hle. apply list_elem_of_filter in Hv as [_ Hv].
    apply (Hgap q' v); [by right|done|done]. }
  exists (replicate (length lq) vq ++ l''). split; [|split].
  - simpl. rewrite (proj2 (Z.ltb_lt 0 (Z.of_nat (length l)))).
    2:{ destruct l; [by apply not_elem_of_nil in Hv0|simpl; lia]. }
    unfold getValue. rewrite Hvq. simpl.
    rewrite Henc, asVector_inner_spec by (done || lia). simpl.
    replace (Z.of_nat (length l) - Z.of_nat (length lq))
      with (Z.of_nat (length lr)) by lia.
    rewrite Hrun. by rewrite <- app_assoc.
  - rewrite <- Hperm, Hperm''. by rewrite <- Hlq.
  - apply StronglySorted_app_2; [|apply replicate_sorted_le|done].
    intros x1 x2 Hx1 Hx2. apply elem_of_replicate in Hx1 as [-> _].
    rewrite Hpq. rewrite Hperm'' in Hx2.
    apply (proj1 (Forall_forall _ _) Hlr) in Hx2.
    apply (proj1 (Forall_forall _ _) Hq_lt) in Hx2. lia.
Qed.

End DecodingProofs.

Section DecodingTheorems.
Context {V : Type} `{Countable V}.
Implicit Types (w : world V) (t : PrimeTable V) (l : list V).

(** A prime that is assigned in a sound table is one of the primes the
    sieve of the table holds. *)
Lemma sound_assigned_calculated t q v :
  TableSound t → reversePrimeMap t !! q = Some v → q ∈ getPrimeNumbers t.
Proof.
  intros Ht Hq.
  destruct (sound_index t Ht q (or_intror (mk_is_Some _ _ Hq)))
    as (i & Hi & Hnth).
  destruct (sound_top t Ht ltac:(lia)) as (top & Htop & Hle).
  unfold getPrimeNumbers, getCalculatedPrimes.
  rewrite (inv_primes _ (tinv_sieve t (sound_inv t Ht))).
  apply elem_of_primes_between.
  pose proof (is_prime_ge_2 q (proj1 Hnth)).
  split; [|exact (proj1 Hnth)]. split; [done|].
  destruct (decide (i = allocated t - 1)%nat) as [->|Hne].
  - by rewrite (IsNthPrime_unique _ _ _ Hnth Htop).
  - pose proof (IsNthPrime_lt _ _ _ _ Hnth Htop ltac:(lia)). lia.
Qed.

(** In a sound table without holes every prime up to an assigned one is
    assigned. *)
Lemma sound_no_gap t q p0 v0 :
  TableSound t → primeHoles t = [] → is_prime q = true →
  reversePrimeMap t !! p0 = Some v0 → q ≤ p0 →
  is_Some (reversePrimeMap t !! q).
Proof.
  intros Ht Hholes Hq Hp0 Hle.
  destruct (sound_index t Ht p0 (or_intror (mk_is_Some _ _ Hp0)))
    as (j & Hj & Hnth).
  pose proof (is_prime_ge_2 q Hq).
  assert (Hi : (length (primes_between 2 (q - 1)) ≤ j)%nat).
  { destruct Hnth as [_ <-].
    rewrite (primes_between_app 2 (q - 1) (p0 - 1)) by lia.
    rewrite length_app. lia. }
  destruct (sound_onto t Ht (length (primes_between 2 (q - 1))) q
              ltac:(lia) (conj Hq eq_refl)) as [Hin|]; [|done].
  rewrite Hholes in Hin. by apply not_elem_of_nil in Hin.
Qed.

(** [asVector] on a bag whose hash and length are those of the list [l],
    in a store whose table is sound. *)
Lemma asVector_sound_decode w (this : ptr) b t l (fuel : nat) :
  bags w !! this = Some b → tables w !! Bag.globalTable b = Some t →
  TableSound t →
  Forall (λ v, PrimeTable_getPrime v t ≠ 0) l →
  Bag.hash b = encoding t l → Bag.length b = Z.of_nat (length l) →
  Z.of_nat (length l) < 2 ^ 32 →
  (∀ q v, q ∈ getPrimeNumbers t → v ∈ l → q ≤ PrimeTable_getPrime v t →
          is_Some (reversePrimeMap t !! q)) →
  (length l < fuel)%nat →
  ∃ l', PrimeBag_asVector fuel this w = Done l' ∧ l' ≡ₚ l ∧
        StronglySorted
          (λ x y, PrimeTable_getPrime x t ≤ PrimeTable_getPrime y t) l'.
Proof.
  intros Hb Ht Hs Hl Hhash Hlen Hbound Hgap Hfuel.
  unfold PrimeBag_asVector. rewrite (load_Some _ _ _ Hb). simpl.
  rewrite (load_Some _ _ _ Ht). simpl. rewrite Hhash, Hlen.
  destruct (asVector_loop_decode fuel t (getPrimeNumbers t) l []
              (sound_inverse t Hs)) as (l' & Hrun & Hperm & Hso);
    [| | |done|done|done|by exists l'].
  - unfold getPrimeNumbers, getCalculatedPrimes.
    rewrite (inv_primes _ (tinv_sieve t (sound_inv t Hs))).
    apply primes_between_sorted.
  - unfold getPrimeNumbers, getCalculatedPrimes.
    rewrite (inv_primes _ (tinv_sieve t (sound_inv t Hs))).
    apply Forall_forall. intros q Hq.
    by apply elem_of_primes_between in Hq as [_ ?].
  - apply Forall_forall. intros v Hv.
    apply (proj1 (Forall_forall _ _) Hl) in Hv.
    destruct (getPrime_nonzero v t (sound_inv t Hs) Hv) as (Hm & _).
    apply (sound_inverse t Hs) in Hm.
    by eapply sound_assigned_calculated.
Qed.

(** X16.  [asVector] decodes a bag.  Let the table of the bag be one on
    which [clear] was never called with a hole in the pool, let the hash
    of the bag be the product of the primes of the values of a list [l]
    that the registry knows, its length the length of [l], below 2^32,
    and let every prime of the sieve up to the primes of these values be
    assigned.  Then [asVector], with fuel above the length, returns a
    permutation of [l], in ascending order of the primes. *)
Theorem asVector_decodes w (this : ptr) b t l (fuel : nat) :
  bags w !! this = Some b → tables w !! Bag.globalTable b = Some t →
  table_sound_reachable t →
  Forall (λ v, PrimeTable_getPrime v t ≠ 0) l →
  Bag.hash b = encoding t l → Bag.length b = Z.of_nat (length l) →
  Z.of_nat (length l) < 2 ^ 32 →
  (∀ q v, q ∈ getPrimeNumbers t → v ∈ l → q ≤ PrimeTable_getPrime v t →
          containsPrime q t = true) →
  (length l < fuel)%nat →
  ∃ l', PrimeBag_asVector fuel this w = Done l' ∧ l' ≡ₚ l ∧
        StronglySorted
          (λ x y, PrimeTable_getPrime x t ≤ PrimeTable_getPrime y t) l'.
Proof.
  intros Hb Ht Hs Hl Hhash Hlen Hbound Hgap Hfuel.
  apply table_sound_reachable_sound in Hs.
  apply (asVector_sound_decode w this b t l fuel); try done.
  intros q v Hq Hv Hle. specialize (Hgap q v Hq Hv Hle).
  unfold containsPrime in Hgap. by apply bool_decide_eq_true in Hgap.
Qed.

Lemma PrimeTable_add_no_holes fuel (value : V) t p t' :
  PrimeTable_add fuel value t = Done (p, t') → primeHoles t = [] →
  primeHoles t' = [].
Proof.
  intros Hrun Hholes. unfold PrimeTable_add in Hrun.
  destruct (primeMap t !! value); [by injection Hrun as _ <-|].
  rewrite Hholes in Hrun. simpl in Hrun.
  apply bind_Done in Hrun as ([q t1] & Hrun1 & Hrun). injection Hrun as _ <-.
  apply bind_Done in Hrun1 as ([q' s] & _ & Hrun1). by injection Hrun1 as _ <-.
Qed.

Lemma PrimeTable_add_keeps fuel (value v : V) t p t' :
  PrimeTable_add fuel value t = Done (p, t') →
  PrimeTable_getPrime v t ≠ 0 →
  PrimeTable_getPrime v t' = PrimeTable_getPrime v t.
Proof.
  intros Hrun Hne. unfold PrimeTable_getPrime in *.
  rewrite (PrimeTable_add_map _ _ _ _ _ Hrun).
  destruct (decide (value = v)) as [->|Hneq].
  - rewrite lookup_insert_eq. unfold PrimeTable_add in Hrun.
    destruct (primeMap t !! v); [by injection Hrun as <- _|done].
  - by rewrite lookup_insert_ne.
Qed.

Lemma run_adds_holds_values fuel l : ∀ w w' acc,
  holds_values w acc → run fuel (BagAdd 2 <$> l) w = Done w' →
  holds_values w' (reverse l ++ acc).
Proof.
  induction l as [|v l IH]; intros w w' acc Hw Hrun; simpl in Hrun.
  { by injection Hrun as <-. }
  apply bind_Done in Hrun as (w1 & Hstep & Hrun).
  rewrite reverse_cons, <- app_assoc. apply (IH w1); [|done]. clear Hrun IH.
  destruct Hw as (t & b & Ht & Hb & Hgt & Hs & Hholes & Hacc & Hhash & Hlen).
  apply PrimeBag_add_Done in Hstep as (b' & t0 & p & t' & Hb' & Ht0 & Hadd & ->).
  replace b' with b in * by congruence. rewrite Hgt in *.
  replace t0 with t in * by congruence.
  destruct (PrimeTable_add_sound fuel v t p t' Hs Hadd) as [Hs' _].
  destruct (PrimeTable_add_spec fuel v t p t' (sound_inv t Hs) Hadd)
    as (_ & Hp & Hv & _).
  assert (Hpv : PrimeTable_getPrime v t' = p).
  { unfold PrimeTable_getPrime. by rewrite Hv. }
  assert (Hkeep : Forall (λ v', PrimeTable_getPrime v' t'
                                = PrimeTable_getPrime v' t) acc).
  { apply Forall_forall. intros v' Hv'.
    apply (PrimeTable_add_keeps fuel v v' t p t' Hadd).
    by apply (proj1 (Forall_forall _ _) Hacc). }
  exists t', (Bag.mk 1 (Bag.hash b * p) (wrap32 (Bag.length b + 1))).
  simpl. rewrite !lookup_insert_eq.
  split_and!; try done.
  - by eapply PrimeTable_add_no_holes.
  - apply Forall_cons. split; [lia|].
    apply Forall_forall. intros v' Hv'.
    rewrite (proj1 (Forall_forall _ _) Hkeep v' Hv').
    by apply (proj1 (Forall_forall _ _) Hacc).
  - unfold encoding. simpl. fold (encoding t' acc).
    rewrite Hpv, (encoding_ext t t' acc Hkeep), Hhash. ring.
  - rewrite Hlen, wrap32_add_l. f_equal. lia.
Qed.

(** X17.  Filling a bag and reading it back.  A program that constructs a
    registry and a bag on it and adds the values of a list [l], fewer than
    2^32, to the bag leaves, when it returns, a store in which [size] is
    the length of [l] and [asVector], with fuel above the length, returns
    a permutation of [l]: every value as often as it was added. *)
Theorem bag_of_values_decodes (l : list V) (fuel0 fuel : nat) w :
  Z.of_nat (length l) < 2 ^ 32 →
  run fuel0 (bag_of_program l) empty_world = Done w →
  (length l < fuel)%nat →
  PrimeBag_size 2 w = Done (Z.of_nat (length l)) ∧
  ∃ l', PrimeBag_asVector fuel 2 w = Done l' ∧ l' ≡ₚ l.
Proof.
  intros Hbound Hrun Hfuel. unfold bag_of_program in Hrun.
  change (run fuel0 (BagAdd 2 <$> l)
            (set_bag 2 (PrimeBag_new 1)
               (set_table 1 PrimeTable_new empty_world)) = Done w) in Hrun.
  apply (run_adds_holds_values fuel0 l _ w []) in Hrun.
  2:{ exists PrimeTable_new, (PrimeBag_new 1). split_and!; try done.
      apply TableSound_new. }
  rewrite app_nil_r in Hrun.
  destruct Hrun as (t & b & Ht & Hb & Hgt & Hs & Hholes & Hacc & Hhash & Hlen).
  rewrite length_reverse in Hlen. rewrite wrap32_small in Hlen by lia.
  split.
  { unfold PrimeBag_size. by rewrite (load_Some _ _ _ Hb), <- Hlen. }
  rewrite <- Hgt in Ht.
  destruct (asVector_sound_decode w 2 b t (reverse l) fuel Hb Ht Hs Hacc Hhash)
    as (l' & Hvec & Hperm & _).
  - by rewrite length_reverse.
  - by rewrite length_reverse.
  - intros q v Hq Hv Hle.
    apply (proj1 (Forall_forall _ _) Hacc) in Hv.
    destruct (getPrime_nonzero v t (sound_inv t Hs) Hv) as (Hm & _).
    apply (sound_inverse t Hs) in Hm.
    apply (sound_no_gap t q (PrimeTable_getPrime v t) v Hs Hholes);
      [|done|done].
    unfold getPrimeNumbers, getCalculatedPrimes in Hq.
    rewrite (inv_primes _ (tinv_sieve t (sound_inv t Hs))) in Hq.
    by apply elem_of_primes_between in Hq as [_ ?].
  - by rewrite length_reverse.
  - exists l'. split; [done|]. by rewrite Hperm, reverse_Permutation.
Qed.

(** X18.  [asVector] throws at an unassigned prime.  In any store, if the
    bag is not empty, and the primes of the sieve start with primes that
    are assigned and do not divide the hash, followed by a prime that is
    not assigned, then [asVector] ends in the [std::out_of_range] of
    [getValue]. *)
Theorem asVector_throws_at_hole w (this : ptr) b t (pre : list Z) (q : Z)
    (rest : list Z) (fuel : nat) :
  bags w !! this = Some b → tables w !! Bag.globalTable b = Some t →
  getPrimeNumbers t = pre ++ q :: rest →
  Forall (λ q', containsPrime q' t = true ∧ q' ≠ 0 ∧
                Z.rem (Bag.hash b) q' ≠ 0) pre →
  containsPrime q t = false →
  0 < Bag.length b → (0 < fuel)%nat →
  PrimeBag_asVector fuel this w = Fault OutOfRange.
Proof.
  intros Hb Ht Hps Hpre Hq Hlen Hfuel.
  unfold PrimeBag_asVector. rewrite (load_Some _ _ _ Hb). simpl.
  rewrite (load_Some _ _ _ Ht). simpl. rewrite Hps. clear Hps.
  destruct fuel as [|fuel]; [lia|]. generalize (@nil V).
  induction Hpre as [|q' pre (Hin & Hne & Hrem) _ IH]; intros r; simpl;
    rewrite (proj2 (Z.ltb_lt 0 (Bag.length b)) Hlen).
  - unfold getValue. unfold containsPrime in Hq.
    apply bool_decide_eq_false in Hq.
    destruct (reversePrimeMap t !! q); [|done]. by destruct Hq.
  - unfold containsPrime in Hin. apply bool_decide_eq_true in Hin as [v Hv].
    unfold getValue. rewrite Hv. simpl.
    rewrite containsHash_Done by done.
    rewrite (proj2 (Z.eqb_neq _ _) Hrem). simpl. apply IH.
Qed.

End DecodingTheorems.

(** ** The further properties on concrete stores *)

Lemma abc_table_sound_reachable : table_sound_reachable abc_table.
Proof.
  apply (table_sound_reachable_step ab_table (TAdd "c"%string) 16);
    [exact ab_table_sound_reachable|discriminate|vm_compute; reflexivity].
Qed.

Lemma count_is_multiplicity_witness :
  reachable aab_world ∧
  bags aab_world !! 2%positive = Some (Bag.mk 1 12 3) ∧
  tables aab_world !! Bag.globalTable (Bag.mk 1 12 3) = Some abc_table ∧
  PrimeTable_getPrime "a"%string abc_table ≠ 0 ∧
  Z.log2 (Bag.hash (Bag.mk 1 12 3)) < Z.of_nat 4 ∧
  ∃ k : nat,
    PrimeBag_count 4 2 "a"%string aab_world = Done (wrap32 (Z.of_nat k)) ∧
    (PrimeTable_getPrime "a"%string abc_table ^ Z.of_nat k
     | Bag.hash (Bag.mk 1 12 3)) ∧
    ¬ (PrimeTable_getPrime "a"%string abc_table ^ (Z.of_nat k + 1)
       | Bag.hash (Bag.mk 1 12 3)).
Proof.
  assert (Hb : bags aab_world !! 2%positive = Some (Bag.mk 1 12 3))
    by reflexivity.
  assert (Ht : tables aab_world !! Bag.globalTable (Bag.mk 1 12 3)
               = Some abc_table) by reflexivity.
  assert (Hne : PrimeTable_getPrime "a"%string abc_table ≠ 0)
    by (vm_compute; discriminate).
  assert (Hfuel : Z.log2 (Bag.hash (Bag.mk 1 12 3)) < Z.of_nat 4)
    by (vm_compute; reflexivity).
  split; [exact aab_world_reachable|]. split; [exact Hb|]. split; [exact Ht|].
  split; [exact Hne|]. split; [exact Hfuel|].
  exact (count_is_multiplicity aab_world 2 "a"%string (Bag.mk 1 12 3)
           abc_table 4 aab_world_reachable Hb Ht Hne Hfuel).
Defined.

Lemma add_then_count_witness :
  reachable aab_world ∧
  PrimeBag_add 16 2 "a"%string aab_world = Done aaab_world ∧
  bags aab_world !! 2%positive = Some (Bag.mk 1 12 3) ∧
  tables aab_world !! Bag.globalTable (Bag.mk 1 12 3) = Some abc_table ∧
  PrimeTable_getPrime "a"%string abc_table ≠ 0 ∧
  PrimeBag_count 4 2 "a"%string aab_world = Done 2 ∧
  PrimeBag_size 2 aaab_world
  = Done (wrap32 (Bag.length (Bag.mk 1 12 3) + 1)) ∧
  PrimeBag_contains 2 "a"%string aaab_world = Done true ∧
  PrimeBag_count 5 2 "a"%string aaab_world = Done (wrap32 (2 + 1)).
Proof.
  assert (Hadd : PrimeBag_add 16 2 "a"%string aab_world = Done aaab_world)
    by (vm_compute; reflexivity).
  assert (Hb : bags aab_world !! 2%positive = Some (Bag.mk 1 12 3))
    by reflexivity.
  assert (Ht : tables aab_world !! Bag.globalTable (Bag.mk 1 12 3)
               = Some abc_table) by reflexivity.
  assert (Hne : PrimeTable_getPrime "a"%string abc_table ≠ 0)
    by (vm_compute; discriminate).
  assert (Hc : PrimeBag_count 4 2 "a"%string aab_world = Done 2)
    by (vm_compute; reflexivity).
  split; [exact aab_world_reachable|]. split; [exact Hadd|].
  split; [exact Hb|]. split; [exact Ht|]. split; [exact Hne|].
  split; [exact Hc|].
  exact (add_then_count aab_world 2 "a"%string 16 4 aaab_world
           (Bag.mk 1 12 3) abc_table 2 aab_world_reachable Hadd Hb Ht Hne Hc).
Defined.

Lemma remove_agrees_with_contains_witness :
  reachable aab_world ∧
  bags aab_world !! 2%positive = Some (Bag.mk 1 12 3) ∧
  tables aab_world !! Bag.globalTable (Bag.mk 1 12 3) = Some abc_table ∧
  PrimeBag_contains 2 "a"%string aab_world = Done true ∧
  ∃ w',
    PrimeBag_remove 2 "a"%string aab_world = Done (true, w') ∧
    tables w' = tables aab_world ∧
    bags w' !! 2%positive
    = Some (Bag.mk (Bag.globalTable (Bag.mk 1 12 3))
              (Z.quot (Bag.hash (Bag.mk 1 12 3))
                 (PrimeTable_getPrime "a"%string abc_table))
              (wrap32 (Bag.length (Bag.mk 1 12 3) - 1))) ∧
    ∀ c, PrimeBag_count 4 2 "a"%string w' = Done c →
         PrimeBag_count 5 2 "a"%string aab_world = Done (wrap32 (c + 1)).
Proof.
  assert (Hb : bags aab_world !! 2%positive = Some (Bag.mk 1 12 3))
    by reflexivity.
  assert (Ht : tables aab_world !! Bag.globalTable (Bag.mk 1 12 3)
               = Some abc_table) by reflexivity.
  assert (Hc : PrimeBag_contains 2 "a"%string aab_world = Done true)
    by (vm_compute; reflexivity).
  split; [exact aab_world_reachable|]. split; [exact Hb|]. split; [exact Ht|].
  split; [exact Hc|].
  exact (remove_agrees_with_contains aab_world 2 "a"%string (Bag.mk 1 12 3)
           abc_table true 4 aab_world_reachable Hb Ht Hc).
Defined.

Lemma clear_empties_bag_witness :
  reachable aab_world ∧
  PrimeBag_clear 2 aab_world = Done aab_world_cleared ∧
  tables aab_world_cleared = tables aab_world ∧
  PrimeBag_size 2 aab_world_cleared = Done 0 ∧
  (∀ value, PrimeBag_contains 2 value aab_world_cleared = Done false) ∧
  (∀ value fuel, PrimeBag_count (S fuel) 2 value aab_world_cleared = Done 0) ∧
  (∀ fuel, PrimeBag_asVector fuel 2 aab_world_cleared = Done []) ∧
  (∀ fuel, PrimeBag_begin fuel 2 aab_world_cleared
           = PrimeBag_end fuel 2 aab_world_cleared).
Proof.
  assert (Hc : PrimeBag_clear 2 aab_world = Done aab_world_cleared)
    by (vm_compute; reflexivity).
  split; [exact aab_world_reachable|]. split; [exact Hc|].
  exact (clear_empties_bag aab_world 2 aab_world_cleared
           aab_world_reachable Hc).
Defined.

Lemma recycled_prime_aliases_witness :
  bags stale_world !! 2%positive = Some (Bag.mk 1 2 1) ∧
  tables stale_world !! Bag.globalTable (Bag.mk 1 2 1) = Some stale_table ∧
  primeMap stale_table !! "z"%string = None ∧
  primeHoles stale_table = [2] ∧ 2 ≠ 0 ∧
  Z.rem (Bag.hash (Bag.mk 1 2 1)) 2 = 0 ∧
  PrimeBag_contains 2 "z"%string stale_world = Done false ∧
  ∃ w', step 16 (OnTable (Bag.globalTable (Bag.mk 1 2 1)) (TAdd "z"%string))
          stale_world = Done w' ∧
        bags w' = bags stale_world ∧
        PrimeBag_contains 2 "z"%string w' = Done true.
Proof.
  assert (Hb : bags stale_world !! 2%positive = Some (Bag.mk 1 2 1))
    by reflexivity.
  assert (Ht : tables stale_world !! Bag.globalTable (Bag.mk 1 2 1)
               = Some stale_table) by reflexivity.
  assert (Hv : primeMap stale_table !! "z"%string = None) by reflexivity.
  assert (Hh : primeHoles stale_table = [2]) by reflexivity.
  assert (Hne : 2 ≠ 0) by lia.
  assert (Hrem : Z.rem (Bag.hash (Bag.mk 1 2 1)) 2 = 0) by reflexivity.
  split; [exact Hb|]. split; [exact Ht|]. split; [exact Hv|].
  split; [exact Hh|]. split; [exact Hne|]. split; [exact Hrem|].
  exact (recycled_prime_aliases stale_world 2 "z"%string (Bag.mk 1 2 1)
           stale_table 2 [] 16 Hb Ht Hv Hh Hne Hrem).
Defined.

Lemma asVector_decodes_witness :
  bags aab_world !! 2%positive = Some (Bag.mk 1 12 3) ∧
  tables aab_world !! Bag.globalTable (Bag.mk 1 12 3) = Some abc_table ∧
  table_sound_reachable abc_table ∧
  Forall (λ v, PrimeTable_getPrime v abc_table ≠ 0) ["a"; "a"; "b"]%string ∧
  Bag.hash (Bag.mk 1 12 3) = encoding abc_table ["a"; "a"; "b"]%string ∧
  Bag.length (Bag.mk 1 12 3) = Z.of_nat (length ["a"; "a"; "b"]%string) ∧
  Z.of_nat (length ["a"; "a"; "b"]%string) < 2 ^ 32 ∧
  (∀ q v, q ∈ getPrimeNumbers abc_table → v ∈ ["a"; "a"; "b"]%string →
          q ≤ PrimeTable_getPrime v abc_table →
          containsPrime q abc_table = true) ∧
  (length ["a"; "a"; "b"]%string < 4)%nat ∧
  ∃ l', PrimeBag_asVector 4 2 aab_world = Done l' ∧
        l' ≡ₚ ["a"; "a"; "b"]%string ∧
        StronglySorted
          (λ x y, PrimeTable_getPrime x abc_table
                  ≤ PrimeTable_getPrime y abc_table) l'.
Proof.
  assert (Hb : bags aab_world !! 2%positive = Some (Bag.mk 1 12 3))
    by reflexivity.
  assert (Ht : tables aab_world !! Bag.globalTable (Bag.mk 1 12 3)
               = Some abc_table) by reflexivity.
  assert (Hl : Forall (λ v, PrimeTable_getPrime v abc_table ≠ 0)
                 ["a"; "a"; "b"]%string).
  { repeat constructor; vm_compute; discriminate. }
  assert (Hh : Bag.hash (Bag.mk 1 12 3)
               = encoding abc_table ["a"; "a"; "b"]%string) by reflexivity.
  assert (Hlen : Bag.length (Bag.mk 1 12 3)
                 = Z.of_nat (length ["a"; "a"; "b"]%string)) by reflexivity.
  assert (Hbound : Z.of_nat (length ["a"; "a"; "b"]%string) < 2 ^ 32)
    by reflexivity.
  assert (Hgap : ∀ q v, q ∈ getPrimeNumbers abc_table →
            v ∈ ["a"; "a"; "b"]%string →
            q ≤ PrimeTable_getPrime v abc_table →
            containsPrime q abc_table = true).
  { intros q v Hq Hv Hle.
    assert (Hv3 : PrimeTable_getPrime v abc_table ≤ 3).
    { repeat (apply elem_of_cons in Hv as [->|Hv]);
        [vm_compute; discriminate..|by apply not_elem_of_nil in Hv]. }
    change (getPrimeNumbers abc_table) with [2; 3; 5; 7] in Hq.
    repeat (apply elem_of_cons in Hq as [->|Hq]);
      [reflexivity|reflexivity|lia|lia|by apply not_elem_of_nil in Hq]. }
  assert (Hfuel : (length ["a"; "a"; "b"]%string < 4)%nat)
    by (vm_compute; lia).
  split; [exact Hb|]. split; [exact Ht|].
  split; [exact abc_table_sound_reachable|]. split; [exact Hl|].
  split; [exact Hh|]. split; [exact Hlen|]. split; [exact Hbound|].
  split; [exact Hgap|]. split; [exact Hfuel|].
  exact (asVector_decodes aab_world 2 (Bag.mk 1 12 3) abc_table
           ["a"; "a"; "b"]%string 4 Hb Ht abc_table_sound_reachable Hl Hh
           Hlen Hbound Hgap Hfuel).
Defined.

Lemma bag_of_values_decodes_witness :
  Z.of_nat (length ["a"; "b"; "a"]%string) < 2 ^ 32 ∧
  run 16 (bag_of_program ["a"; "b"; "a"]%string) empty_world
  = Done aba_world ∧
  (length ["a"; "b"; "a"]%string < 4)%nat ∧
  PrimeBag_size 2 aba_world
  = Done (Z.of_nat (length ["a"; "b"; "a"]%string)) ∧
  ∃ l', PrimeBag_asVector 4 2 aba_world = Done l' ∧
        l' ≡ₚ ["a"; "b"; "a"]%string.
Proof.
  assert (Hbound : Z.of_nat (length ["a"; "b"; "a"]%string) < 2 ^ 32)
    by reflexivity.
  assert (Hrun : run 16 (bag_of_program ["a"; "b"; "a"]%string) empty_world
                 = Done aba_world) by (vm_compute; reflexivity).
  assert (Hfuel : (length ["a"; "b"; "a"]%string < 4)%nat)
    by (vm_compute; lia).
  split; [exact Hbound|]. split; [exact Hrun|]. split; [exact Hfuel|].
  exact (bag_of_values_decodes ["a"; "b"; "a"]%string 16 4 aba_world
           Hbound Hrun Hfuel).
Defined.

Lemma asVector_throws_at_hole_witness :
  bags gap_world !! 2%positive = Some (Bag.mk 1 5 1) ∧
  tables gap_world !! Bag.globalTable (Bag.mk 1 5 1) = Some gap_table ∧
  getPrimeNumbers gap_table = [2] ++ 3 :: [5; 7] ∧
  Forall (λ q', containsPrime q' gap_table = true ∧ q' ≠ 0 ∧
                Z.rem (Bag.hash (Bag.mk 1 5 1)) q' ≠ 0) [2] ∧
  containsPrime 3 gap_table = false ∧
  0 < Bag.length (Bag.mk 1 5 1) ∧ (0 < 1)%nat ∧
  PrimeBag_asVector 1 2 gap_world = Fault OutOfRange.
Proof.
  assert (Hb : bags gap_world !! 2%positive = Some (Bag.mk 1 5 1))
    by reflexivity.
  assert (Ht : tables gap_world !! Bag.globalTable (Bag.mk 1 5 1)
               = Some gap_table) by reflexivity.
  assert (Hps : getPrimeNumbers gap_table = [2] ++ 3 :: [5; 7])
    by reflexivity.
  assert (Hpre : Forall (λ q', containsPrime q' gap_table = true ∧ q' ≠ 0 ∧
                   Z.rem (Bag.hash (Bag.mk 1 5 1)) q' ≠ 0) [2]).
  { repeat constructor; vm_compute; discriminate. }
  assert (Hq : containsPrime 3 gap_table = false) by reflexivity.
  assert (Hlen : 0 < Bag.length (Bag.mk 1 5 1)) by reflexivity.
  assert (Hfuel : (0 < 1)%nat) by lia.
  split; [exact Hb|]. split; [exact Ht|]. split; [exact Hps|].
  split; [exact Hpre|]. split; [exact Hq|]. split; [exact Hlen|].
  split; [exact Hfuel|].
  exact (asVector_throws_at_hole gap_world 2 (Bag.mk 1 5 1) gap_table [2] 3
           [5; 7] 1 Hb Ht Hps Hpre Hq Hlen Hfuel).
Defined.

(** ** Iterating over a bag *)

Lemma StronglySorted_lookup_lt (ps : list Z) : ∀ i j a b,
  StronglySorted Z.lt ps → ps !! i = Some a → ps !! j = Some b →
  (i < j)%nat → a < b.
Proof.
  induction ps as [|q ps IH]; intros i j a b Hso Hi Hj Hlt; [done|].
  apply StronglySorted_inv in Hso as [Hso Hall].
  destruct j as [|j]; [lia|]. simpl in Hj.
  destruct i as [|i]; simpl in Hi.
  - injection Hi as ->. apply list_elem_of_lookup_2 in Hj.
    by apply (proj1 (Forall_forall _ _) Hall).
  - apply (IH i j); [done|done|done|lia].
Qed.

Lemma min_split {A} (f : A → Z) (l : list A) :
  l ≠ [] → ∃ v l', l ≡ₚ v :: l' ∧ ∀ x, x ∈ l → f v ≤ f x.
Proof.
  induction l as [|v l IH]; [done|]. intros _.
  destruct l as [|v1 l1].
  { exists v, []. split; [done|]. intros x Hx.
    apply list_elem_of_singleton in Hx as ->. lia. }
  destruct (IH ltac:(done)) as (m & l' & Hperm & Hmin).
  destruct (Z_le_gt_dec (f v) (f m)) as [Hle|Hgt].
  - exists v, (v1 :: l1). split; [done|]. intros x Hx.
    apply elem_of_cons in Hx as [->|Hx]; [lia|].
    specialize (Hmin x Hx). lia.
  - exists m, (v :: l'). split.
    + rewrite Hperm. apply Permutation_swap.
    + intros x Hx. apply elem_of_cons in Hx as [->|Hx]; [lia|].
      by apply Hmin.
Qed.

Section IterationProofs.
Context {V : Type} `{Countable V}.
Context (w : world V) (this : ptr) (b : PrimeBag) (t : PrimeTable V).
Hypothesis Hb : bags w !! this = Some b.
Hypothesis Ht : tables w !! Bag.globalTable b = Some t.
Hypothesis Hs : TableSound t.

Local Abbreviation ps := (getPrimeNumbers t).
Local Abbreviation gt := (Bag.globalTable b).

Lemma calculated_sorted : StronglySorted Z.lt ps.
Proof.
  unfold getPrimeNumbers, getCalculatedPrimes.
  rewrite (inv_primes _ (tinv_sieve t (sound_inv t Hs))).
  apply primes_between_sorted.
Qed.

Lemma calculated_prime q : q ∈ ps → is_prime q = true.
Proof.
  unfold getPrimeNumbers, getCalculatedPrimes.
  rewrite (inv_primes _ (tinv_sieve t (sound_inv t Hs))).
  intros Hq. by apply elem_of_primes_between in Hq as [_ ?].
Qed.

Lemma calculated_length : Z.of_nat (length ps) < 2 ^ 31.
Proof.
  pose proof (tinv_sieve t (sound_inv t Hs)) as Hsieve.
  unfold getPrimeNumbers, getCalculatedPrimes.
  rewrite (inv_primes _ Hsieve).
  destruct (inv_limit _ Hsieve) as (k & Hk & Hlim).
  pose proof (inv_tested _ Hsieve).
  pose proof (length_primes_between 2
                (highestTestedNum (sieveOfEratosthenes t)) ltac:(lia)).
  assert (2 ^ Z.of_nat k ≤ 2 ^ 31) by (apply Z.pow_le_mono_r; lia).
  lia.
Qed.

Lemma getPrimeAtTableIndex_cursor i rest q :
  ps !! i = Some q →
  getPrimeAtTableIndex w (cursor_on this gt t i rest) = Done q.
Proof.
  intros Hq. unfold getPrimeAtTableIndex, cursor_on.
  cbn [primeTable primeIndex].
  rewrite (load_Some _ _ _ Ht). cbn [mbind outcome_bind].
  by rewrite Nat2Z.id, Hq.
Qed.

(** The loop of [getNextPrimeFactor] walks to the next prime of the table
    that divides the hash. *)
Lemma nextFactor_loop_spec (d : nat) : ∀ fuel i prime hc len pj,
  ps !! i = Some prime →
  (∀ k q, (i ≤ k < i + d)%nat → ps !! k = Some q →
          q ≠ 0 ∧ Z.rem hc q ≠ 0) →
  ps !! (i + d)%nat = Some pj → pj ≠ 0 → Z.rem hc pj = 0 →
  (d < fuel)%nat →
  nextFactor_loop fuel w
    (mkIter this gt (Bag.mk gt hc len) (Z.of_nat i) false) prime
  = Done (pj, mkIter this gt (Bag.mk gt hc len) (Z.of_nat (i + d)) false).
Proof.
  pose proof calculated_length as Hlen.
  induction d as [|d IH]; intros fuel i prime hc len pj Hi Hbefore Hj Hne Hrem
    Hfuel; (destruct fuel as [|fuel]; [lia|]); cbn [nextFactor_loop].
  - rewrite Nat.add_0_r in *. replace prime with pj by congruence.
    cbn [primeBagCopy Bag.hash].
    rewrite containsHash_Done by done. rewrite Hrem. done.
  - destruct (Hbefore i prime ltac:(lia) Hi) as [Hp0 Hprem].
    cbn [primeBagCopy Bag.hash].
    rewrite containsHash_Done by done.
    rewrite (proj2 (Z.eqb_neq _ _) Hprem). cbn [mbind outcome_bind].
    pose proof (lookup_lt_Some _ _ _ Hj) as Hlt.
    destruct (lookup_lt_is_Some_2 ps (S i) ltac:(lia)) as [q Hq].
    unfold set_index. cbn [refPrimeBag primeTable primeBagCopy primeIndex end_].
    rewrite wrap32_small by blia.
    replace (Z.of_nat i + 1) with (Z.of_nat (S i)) by lia.
    assert (Hget : getPrimeAtTableIndex w
              (mkIter this gt (Bag.mk gt hc len) (Z.of_nat (S i)) false)
            = Done q).
    { unfold getPrimeAtTableIndex. cbn [primeTable primeIndex].
      rewrite (load_Some _ _ _ Ht). cbn [mbind outcome_bind].
      by rewrite Nat2Z.id, Hq. }
    rewrite Hget. cbn [mbind outcome_bind].
    rewrite (IH fuel (S i) q hc len pj Hq); [|..|lia].
    + do 3 f_equal. lia.
    + intros k q' Hk Hq'. apply (Hbefore k q'); [lia|done].
    + by replace (S i + d)%nat with (i + S d)%nat by lia.
    + done.
    + done.
Qed.

Implicit Types l rest : list V.

Lemma encoding_head v rest :
  encoding t (v :: rest) = encoding t rest * PrimeTable_getPrime v t.
Proof. unfold encoding. simpl. ring. Qed.

(** One [operator++] of a cursor that has values left: it moves to the
    least of them. *)
Lemma iter_incr_cursor fuel i pi rest :
  rest ≠ [] →
  Forall (λ v, PrimeTable_getPrime v t ∈ ps) rest →
  ps !! i = Some pi →
  (∀ x, x ∈ rest → pi ≤ PrimeTable_getPrime x t) →
  Z.of_nat (length rest) < 2 ^ 32 →
  (length ps < fuel)%nat →
  ∃ j v rest',
    rest ≡ₚ v :: rest' ∧ ps !! j = Some (PrimeTable_getPrime v t) ∧
    (∀ x, x ∈ rest' → PrimeTable_getPrime v t ≤ PrimeTable_getPrime x t) ∧
    iter_incr fuel w (cursor_on this gt t i rest)
    = Done (cursor_on this gt t j rest').
Proof.
  intros Hne Hin Hi Hlow Hbound Hfuel.
  destruct (min_split (λ v, PrimeTable_getPrime v t) rest Hne)
    as (v & rest' & Hperm & Hmin).
  assert (Hv : v ∈ rest) by (rewrite Hperm; by left).
  pose proof (proj1 (Forall_forall _ _) Hin v Hv) as Hpv.
  apply list_elem_of_lookup in Hpv as [j Hj].
  pose proof calculated_sorted as Hso.
  assert (Hij : (i ≤ j)%nat).
  { destruct (le_lt_dec i j) as [|Hlt]; [done|].
    pose proof (StronglySorted_lookup_lt ps j i _ _ Hso Hj Hi Hlt).
    specialize (Hlow v Hv). lia. }
  exists j, v, rest'. split; [done|]. split; [done|]. split.
  { intros x Hx. apply Hmin. rewrite Hperm. by right. }
  pose proof (is_prime_ge_2 _
                (calculated_prime _ (list_elem_of_lookup_2 _ _ _ Hj))) as Hv2.
  assert (Henc : encoding t rest = encoding t rest' * PrimeTable_getPrime v t).
  { by rewrite (encoding_perm t _ _ Hperm), encoding_head. }
  assert (Hlen : length rest = S (length rest')) by (by rewrite Hperm).
  unfold iter_incr, cursor_on at 1 2.
  cbn [end_ negb primeBagCopy Bag.length].
  rewrite (proj2 (Z.ltb_lt 0 (Z.of_nat (length rest)))) by lia.
  unfold getNextPrimeFactor.
  rewrite (getPrimeAtTableIndex_cursor i rest pi Hi). cbn [mbind outcome_bind].
  unfold cursor_on at 1.
  rewrite (nextFactor_loop_spec (j - i) fuel i pi _ _
             (PrimeTable_getPrime v t) Hi).
  - cbn [mbind outcome_bind primeBagCopy Bag.hash].
    rewrite bignum_div_Done by lia. cbn [mbind outcome_bind].
    rewrite Henc, Z.quot_mul by lia.
    unfold set_copy, cursor_on.
    cbn [refPrimeBag primeTable primeBagCopy primeIndex end_
         Bag.globalTable Bag.length].
    rewrite wrap32_small by lia.
    do 2 f_equal; [f_equal; lia|f_equal; lia].
  - intros k q Hk Hq.
    pose proof (calculated_prime q (list_elem_of_lookup_2 _ _ _ Hq)) as Hqp.
    pose proof (is_prime_ge_2 q Hqp).
    split; [lia|]. intros Hrem.
    apply Z.rem_divide in Hrem; [|lia]. revert Hrem.
    apply prime_not_divide_encoding; [by apply is_prime_iff_prime|].
    apply Forall_forall. intros x Hx.
    pose proof (proj1 (Forall_forall _ _) Hin x Hx) as Hpx.
    split; [by apply is_prime_iff_prime, calculated_prime|].
    pose proof (StronglySorted_lookup_lt ps k j _ _ Hso Hq Hj ltac:(lia)).
    specialize (Hmin x Hx). lia.
  - by replace (i + (j - i))%nat with j by lia.
  - lia.
  - rewrite Henc. by apply Z.rem_mul; lia.
  - pose proof (lookup_lt_Some _ _ _ Hj). lia.
Qed.

Lemma PrimeBag_end_spec fuel :
  PrimeBag_end fuel this w
  = Done (mkIter this gt (Bag.mk gt 1 0)
            (wrap32 (wrap64 (Z.of_nat (length ps) - 1))) true).
Proof.
  unfold PrimeBag_end, PrimeBagIterator_new.
  rewrite (load_Some _ _ _ Hb). cbn [mbind outcome_bind].
  rewrite orb_true_r. cbn [end_ set_end primeTable].
  by rewrite (load_Some _ _ _ Ht).
Qed.

(** The loop of the client from a cursor that stands on [v]. *)
Lemma iterate_from_cursor fuel : ∀ n rest i v,
  ps !! i = Some (PrimeTable_getPrime v t) →
  reversePrimeMap t !! PrimeTable_getPrime v t = Some v →
  Forall (λ x, PrimeTable_getPrime x t ∈ ps) rest →
  (∀ x, x ∈ rest → PrimeTable_getPrime v t ≤ PrimeTable_getPrime x t) →
  Z.of_nat (length rest) < 2 ^ 32 →
  (length ps < fuel)%nat → (S (length rest) < n)%nat →
  ∃ l', iterate_from n fuel this w (cursor_on this gt t i rest)
          = Done (v :: l') ∧
        l' ≡ₚ rest ∧
        StronglySorted
          (λ x y, PrimeTable_getPrime x t ≤ PrimeTable_getPrime y t)
          (v :: l').
Proof.
  intros n. induction n as [|n IH];
    intros rest i v Hi Hv Hin Hlow Hbound Hfuel Hn; [lia|].
  cbn [iterate_from]. rewrite PrimeBag_end_spec. cbn [mbind outcome_bind].
  assert (Hne : iter_ne (cursor_on this gt t i rest)
                  (mkIter this gt (Bag.mk gt 1 0)
                     (wrap32 (wrap64 (Z.of_nat (length ps) - 1))) true)
                = true).
  { unfold iter_ne, iter_eq. simpl. by rewrite bool_decide_true by done. }
  rewrite Hne.
  assert (Hderef : iter_deref w (cursor_on this gt t i rest) = Done v).
  { unfold iter_deref. cbn [end_ cursor_on negb].
    fold (cursor_on this gt t i rest).
    rewrite (getPrimeAtTableIndex_cursor i rest _ Hi). cbn [mbind outcome_bind].
    cbn [primeTable cursor_on]. rewrite (load_Some _ _ _ Ht).
    cbn [mbind outcome_bind]. unfold getValue. by rewrite Hv. }
  rewrite Hderef. cbn [mbind outcome_bind].
  destruct (decide (rest = [])) as [->|Hrest].
  - exists []. split; [|split; [done|]].
    + unfold iter_incr. simpl. destruct n as [|n]; [simpl in Hn; lia|].
      cbn [iterate_from]. rewrite PrimeBag_end_spec. simpl.
      unfold iter_ne, iter_eq. simpl. by rewrite !bool_decide_true by done.
    + repeat constructor.
  - destruct (iter_incr_cursor fuel i _ rest Hrest Hin Hi Hlow Hbound Hfuel)
      as (j & v' & rest' & Hperm & Hj & Hmin & Hincr).
    rewrite Hincr. cbn [mbind outcome_bind].
    assert (Hv' : v' ∈ rest) by (rewrite Hperm; by left).
    assert (Hlen : length rest = S (length rest')) by (by rewrite Hperm).
    destruct (IH rest' j v' Hj) as (l'' & Hrun & Hperm'' & Hso'');
      [| |done|lia|done|lia|].
    + pose proof (proj1 (Forall_forall _ _) Hin v' Hv') as Hpv.
      pose proof (is_prime_ge_2 _ (calculated_prime _ Hpv)).
      destruct (getPrime_nonzero v' t (sound_inv t Hs) ltac:(lia)) as (Hm & _).
      by apply (sound_inverse t Hs) in Hm.
    + apply Forall_forall. intros x Hx.
      apply (proj1 (Forall_forall _ _) Hin). rewrite Hperm. by right.
    + rewrite Hrun. cbn [mbind outcome_bind]. exists (v' :: l'').
      split; [done|]. split; [by rewrite Hperm, Hperm''|].
      constructor; [done|]. apply Forall_forall. intros x Hx.
      apply Hlow. by rewrite Hperm, <- Hperm''.
Qed.

(** The loop of the client from [begin()]. *)
Lemma iterate_sound_decode l (n fuel : nat) :
  Forall (λ v, PrimeTable_getPrime v t ≠ 0) l →
  Bag.hash b = encoding t l → Bag.length b = Z.of_nat (length l) →
  Z.of_nat (length l) < 2 ^ 32 →
  (length ps < fuel)%nat → (length l < n)%nat →
  ∃ l', PrimeBag_iterate n fuel this w = Done l' ∧ l' ≡ₚ l ∧
        StronglySorted
          (λ x y, PrimeTable_getPrime x t ≤ PrimeTable_getPrime y t) l'.
Proof.
  intros Hl Hhash Hlen Hbound Hfuel Hn.
  assert (Hin : Forall (λ v, PrimeTable_getPrime v t ∈ ps) l).
  { apply Forall_forall. intros v Hv.
    apply (proj1 (Forall_forall _ _) Hl) in Hv.
    destruct (getPrime_nonzero v t (sound_inv t Hs) Hv) as (Hm & _).
    apply (sound_inverse t Hs) in Hm.
    by eapply sound_assigned_calculated. }
  unfold PrimeBag_iterate, PrimeBag_begin.
  destruct (decide (l = [])) as [->|Hne].
  - exists []. split; [|split; [done|constructor]].
    fold (PrimeBag_end fuel this w).
    assert (Hbegin : PrimeBagIterator_new fuel this false w
                     = PrimeBag_end fuel this w).
    { unfold PrimeBag_end, PrimeBagIterator_new.
      rewrite (load_Some _ _ _ Hb). cbn [mbind outcome_bind].
      simpl in Hlen. by rewrite Hlen. }
    rewrite Hbegin, PrimeBag_end_spec. cbn [mbind outcome_bind].
    destruct n as [|n]; [simpl in Hn; lia|].
    cbn [iterate_from]. rewrite PrimeBag_end_spec. simpl.
    unfold iter_ne, iter_eq. simpl. by rewrite !bool_decide_true by done.
  - assert (Hpos : (0 < length l)%nat) by (destruct l; [done|simpl; lia]).
    destruct (lookup_lt_is_Some_2 ps 0) as [p0 Hp0].
    { destruct l as [|v l0]; [done|]. apply Forall_cons in Hin as [Hv _].
      destruct ps; [by apply not_elem_of_nil in Hv|simpl; lia]. }
    destruct (iter_incr_cursor fuel 0 p0 l Hne Hin Hp0)
      as (j & v & rest & Hperm & Hj & Hmin & Hincr); [|done|done|].
    { intros x Hx. apply (proj1 (Forall_forall _ _) Hin) in Hx.
      apply list_elem_of_lookup in Hx as [k Hk].
      destruct k as [|k]; [replace p0 with (PrimeTable_getPrime x t)
                             by congruence; lia|].
      pose proof (StronglySorted_lookup_lt ps 0 (S k) _ _ calculated_sorted
                    Hp0 Hk ltac:(lia)). lia. }
    assert (Hv : v ∈ l) by (rewrite Hperm; by left).
    assert (Hlenl : length l = S (length rest)) by (by rewrite Hperm).
    assert (Hbegin : PrimeBagIterator_new fuel this false w
                     = Done (cursor_on this gt t j rest)).
    { unfold PrimeBagIterator_new. rewrite (load_Some _ _ _ Hb).
      cbn [mbind outcome_bind]. rewrite Hlen.
      rewrite (proj2 (Z.eqb_neq (Z.of_nat (length l)) 0)) by lia.
      cbn [orb end_]. rewrite <- Hincr. f_equal.
      unfold cursor_on. destruct b as [g h len]. simpl in *. by subst. }
    rewrite Hbegin. cbn [mbind outcome_bind].
    destruct (iterate_from_cursor fuel n rest j v Hj)
      as (l' & Hrun & Hperm' & Hso); [| |done|lia|done|lia|].
    + apply (proj1 (Forall_forall _ _) Hl) in Hv.
      destruct (getPrime_nonzero v t (sound_inv t Hs) Hv) as (Hm & _).
      by apply (sound_inverse t Hs) in Hm.
    + apply Forall_forall. intros x Hx.
      apply (proj1 (Forall_forall _ _) Hin). rewrite Hperm. by right.
    + exists (v :: l'). split; [done|]. split; [|done].
      by rewrite Hperm, Hperm'.
Qed.

End IterationProofs.

Lemma sorted_permutation_unique {A} (f : A → Z) (l1 : list A) : ∀ l2,
  (∀ x y, x ∈ l1 → y ∈ l1 → f x = f y → x = y) →
  StronglySorted (λ x y, f x ≤ f y) l1 →
  StronglySorted (λ x y, f x ≤ f y) l2 →
  l1 ≡ₚ l2 → l1 = l2.
Proof.
  induction l1 as [|x l1 IH]; intros l2 Hinj Hso1 Hso2 Hperm.
  { by apply Permutation_nil_l in Hperm. }
  destruct l2 as [|y l2]; [by apply Permutation_nil_r in Hperm|].
  apply StronglySorted_inv in Hso1 as [Hso1 Hx].
  apply StronglySorted_inv in Hso2 as [Hso2 Hy].
  assert (Hxy : x = y).
  { assert (Hyin : y ∈ x :: l1) by (rewrite Hperm; by left).
    assert (Hxin : x ∈ y :: l2) by (rewrite <- Hperm; by left).
    apply Hinj; [by left|done|].
    apply elem_of_cons in Hyin as [->|Hyin]; [done|].
    apply elem_of_cons in Hxin as [->|Hxin]; [done|].
    apply (proj1 (Forall_forall _ _) Hx) in Hyin.
    apply (proj1 (Forall_forall _ _) Hy) in Hxin. lia. }
  subst y. f_equal. apply IH; [|done|done|by apply (inj (cons x))].
  intros a c Ha Hc. apply Hinj; by right.
Qed.

Section IterationTheorems.
Context {V : Type} `{Countable V}.
Implicit Types (w : world V) (t : PrimeTable V) (l : list V).

(** X19.  Iterating visits the bag.  Let the table of the bag be one on
    which [clear] was never called with a hole in the pool, the hash of
    the bag the product of the primes of the values of a list [l] that
    the registry knows, and its length the length of [l], below 2^32.
    Then the loop of a client from [begin()] to [end()], with more
    iterations allowed than [l] is long and fuel above the number of
    calculated primes, returns a permutation of [l] in ascending order of
    the primes - also when the registry has holes. *)
Theorem iteration_visits_bag w (this : ptr) b t l (n fuel : nat) :
  bags w !! this = Some b → tables w !! Bag.globalTable b = Some t →
  table_sound_reachable t →
  Forall (λ v, PrimeTable_getPrime v t ≠ 0) l →
  Bag.hash b = encoding t l → Bag.length b = Z.of_nat (length l) →
  Z.of_nat (length l) < 2 ^ 32 →
  (length (getPrimeNumbers t) < fuel)%nat → (length l < n)%nat →
  ∃ l', PrimeBag_iterate n fuel this w = Done l' ∧ l' ≡ₚ l ∧
        StronglySorted
          (λ x y, PrimeTable_getPrime x t ≤ PrimeTable_getPrime y t) l'.
Proof.
  intros Hb Ht Hs Hl Hhash Hlen Hbound Hfuel Hn.
  apply table_sound_reachable_sound in Hs.
  by apply (iterate_sound_decode w this b t Hb Ht Hs l n fuel).
Qed.

(** X20.  Iterating agrees with [asVector].  Under the conditions of X16,
    the loop of a client from [begin()] to [end()] returns the list that
    [asVector] returns. *)
Theorem iteration_is_asVector w (this : ptr) b t l (n fuel fuel' : nat) :
  bags w !! this = Some b → tables w !! Bag.globalTable b = Some t →
  table_sound_reachable t →
  Forall (λ v, PrimeTable_getPrime v t ≠ 0) l →
  Bag.hash b = encoding t l → Bag.length b = Z.of_nat (length l) →
  Z.of_nat (length l) < 2 ^ 32 →
  (∀ q v, q ∈ getPrimeNumbers t → v ∈ l → q ≤ PrimeTable_getPrime v t →
          containsPrime q t = true) →
  (length (getPrimeNumbers t) < fuel)%nat → (length l < n)%nat →
  (length l < fuel')%nat →
  ∃ l', PrimeBag_iterate n fuel this w = Done l' ∧
        PrimeBag_asVector fuel' this w = Done l'.
Proof.
  intros Hb Ht Hs Hl Hhash Hlen Hbound Hgap Hfuel Hn Hfuel'.
  apply table_sound_reachable_sound in Hs.
  destruct (iterate_sound_decode w this b t Hb Ht Hs l n fuel Hl Hhash Hlen
              Hbound Hfuel Hn) as (l1 & Hrun1 & Hperm1 & Hso1).
  destruct (asVector_sound_decode w this b t l fuel' Hb Ht Hs Hl Hhash Hlen
              Hbound) as (l2 & Hrun2 & Hperm2 & Hso2); [|done|].
  { intros q v Hq Hv Hle. specialize (Hgap q v Hq Hv Hle).
    unfold containsPrime in Hgap. by apply bool_decide_eq_true in Hgap. }
  exists l1. split; [done|]. rewrite Hrun2. f_equal. symmetry.
  apply (sorted_permutation_unique (λ v, PrimeTable_getPrime v t));
    [|done|done|by rewrite Hperm1, Hperm2].
  intros x y Hx Hy Heq. rewrite Hperm1 in Hx, Hy.
  apply (proj1 (Forall_forall _ _) Hl) in Hx, Hy.
  destruct (getPrime_nonzero x t (sound_inv t Hs) Hx) as (Hmx & _).
  destruct (getPrime_nonzero y t (sound_inv t Hs) Hy) as (Hmy & _).
  rewrite Heq in Hmx. apply (sound_inverse t Hs) in Hmx, Hmy. congruence.
Qed.

End IterationTheorems.

Lemma gap_table_sound_reachable : table_sound_reachable gap_table.
Proof.
  apply (run_table_sound_reachable 16
           [TAdd "a"; TAdd "b"; TAdd "c"; TRemove "b"]%string PrimeTable_new);
    [|constructor|vm_compute; reflexivity].
  intros Hin. repeat (apply elem_of_cons in Hin as [Hin|Hin]; [discriminate|]).
  by apply not_elem_of_nil in Hin.
Qed.

Lemma iteration_visits_bag_witness :
  bags gap_world !! 2%positive = Some (Bag.mk 1 5 1) ∧
  tables gap_world !! Bag.globalTable (Bag.mk 1 5 1) = Some gap_table ∧
  table_sound_reachable gap_table ∧
  Forall (λ v, PrimeTable_getPrime v gap_table ≠ 0) ["c"%string] ∧
  Bag.hash (Bag.mk 1 5 1) = encoding gap_table ["c"%string] ∧
  Bag.length (Bag.mk 1 5 1) = Z.of_nat (length ["c"%string]) ∧
  Z.of_nat (length ["c"%string]) < 2 ^ 32 ∧
  (length (getPrimeNumbers gap_table) < 5)%nat ∧
  (length ["c"%string] < 2)%nat ∧
  ∃ l', PrimeBag_iterate 2 5 2 gap_world = Done l' ∧ l' ≡ₚ ["c"%string] ∧
        StronglySorted
          (λ x y, PrimeTable_getPrime x gap_table
                  ≤ PrimeTable_getPrime y gap_table) l'.
Proof.
  assert (Hb : bags gap_world !! 2%positive = Some (Bag.mk 1 5 1))
    by reflexivity.
  assert (Ht : tables gap_world !! Bag.globalTable (Bag.mk 1 5 1)
               = Some gap_table) by reflexivity.
  assert (Hl : Forall (λ v, PrimeTable_getPrime v gap_table ≠ 0)
                 ["c"%string]).
  { repeat constructor; vm_compute; discriminate. }
  assert (Hh : Bag.hash (Bag.mk 1 5 1) = encoding gap_table ["c"%string])
    by reflexivity.
  assert (Hlen : Bag.length (Bag.mk 1 5 1) = Z.of_nat (length ["c"%string]))
    by reflexivity.
  assert (Hbound : Z.of_nat (length ["c"%string]) < 2 ^ 32) by reflexivity.
  assert (Hfuel : (length (getPrimeNumbers gap_table) < 5)%nat)
    by (vm_compute; lia).
  assert (Hn : (length ["c"%string] < 2)%nat) by (vm_compute; lia).
  split; [exact Hb|]. split; [exact Ht|].
  split; [exact gap_table_sound_reachable|]. split; [exact Hl|].
  split; [exact Hh|]. split; [exact Hlen|]. split; [exact Hbound|].
  split; [exact Hfuel|]. split; [exact Hn|].
  exact (iteration_visits_bag gap_world 2 (Bag.mk 1 5 1) gap_table
           ["c"%string] 2 5 Hb Ht gap_table_sound_reachable Hl Hh Hlen Hbound
           Hfuel Hn).
Defined.

Lemma iteration_is_asVector_witness :
  bags aab_world !! 2%positive = Some (Bag.mk 1 12 3) ∧
  tables aab_world !! Bag.globalTable (Bag.mk 1 12 3) = Some abc_table ∧
  table_sound_reachable abc_table ∧
  Forall (λ v, PrimeTable_getPrime v abc_table ≠ 0) ["b"; "a"; "a"]%string ∧
  Bag.hash (Bag.mk 1 12 3) = encoding abc_table ["b"; "a"; "a"]%string ∧
  Bag.length (Bag.mk 1 12 3) = Z.of_nat (length ["b"; "a"; "a"]%string) ∧
  Z.of_nat (length ["b"; "a"; "a"]%string) < 2 ^ 32 ∧
  (∀ q v, q ∈ getPrimeNumbers abc_table → v ∈ ["b"; "a"; "a"]%string →
          q ≤ PrimeTable_getPrime v abc_table →
          containsPrime q abc_table = true) ∧
  (length (getPrimeNumbers abc_table) < 5)%nat ∧
  (length ["b"; "a"; "a"]%string < 4)%nat ∧
  (length ["b"; "a"; "a"]%string < 4)%nat ∧
  ∃ l', PrimeBag_iterate 4 5 2 aab_world = Done l' ∧
        PrimeBag_asVector 4 2 aab_world = Done l'.
Proof.
  assert (Hb : bags aab_world !! 2%positive = Some (Bag.mk 1 12 3))
    by reflexivity.
  assert (Ht : tables aab_world !! Bag.globalTable (Bag.mk 1 12 3)
               = Some abc_table) by reflexivity.
  assert (Hl : Forall (λ v, PrimeTable_getPrime v abc_table ≠ 0)
                 ["b"; "a"; "a"]%string).
  { repeat constructor; vm_compute; discriminate. }
  assert (Hh : Bag.hash (Bag.mk 1 12 3)
               = encoding abc_table ["b"; "a"; "a"]%string) by reflexivity.
  assert (Hlen : Bag.length (Bag.mk 1 12 3)
                 = Z.of_nat (length ["b"; "a"; "a"]%string)) by reflexivity.
  assert (Hbound : Z.of_nat (length ["b"; "a"; "a"]%string) < 2 ^ 32)
    by reflexivity.
  assert (Hgap : ∀ q v, q ∈ getPrimeNumbers abc_table →
            v ∈ ["b"; "a"; "a"]%string →
            q ≤ PrimeTable_getPrime v abc_table →
            containsPrime q abc_table = true).
  { intros q v Hq Hv Hle.
    assert (Hv3 : PrimeTable_getPrime v abc_table ≤ 3).
    { repeat (apply elem_of_cons in Hv as [->|Hv]);
        [vm_compute; discriminate..|by apply not_elem_of_nil in Hv]. }
    change (getPrimeNumbers abc_table) with [2; 3; 5; 7] in Hq.
    repeat (apply elem_of_cons in Hq as [->|Hq]);
      [reflexivity|reflexivity|lia|lia|by apply not_elem_of_nil in Hq]. }
  assert (Hfuel : (length (getPrimeNumbers abc_table) < 5)%nat)
    by (vm_compute; lia).
  assert (Hn : (length ["b"; "a"; "a"]%string < 4)%nat) by (vm_compute; lia).
  split; [exact Hb|]. split; [exact Ht|].
  split; [exact abc_table_sound_reachable|]. split; [exact Hl|].
  split; [exact Hh|]. split; [exact Hlen|]. split; [exact Hbound|].
  split; [exact Hgap|]. split; [exact Hfuel|]. split; [exact Hn|].
  split; [exact Hn|].
  exact (iteration_is_asVector aab_world 2 (Bag.mk 1 12 3) abc_table
           ["b"; "a"; "a"]%string 4 5 4 Hb Ht abc_table_sound_reachable Hl Hh
           Hlen Hbound Hgap Hfuel Hn Hn).
Defined.

(** ** The union of two bags *)

(** What [count]'s loop returns is the multiplicity of the prime. *)
Lemma count_loop_inv fuel : ∀ h p r c,
  2 ≤ p → count_loop fuel h p r = Done c →
  ∃ k : nat, (k < fuel)%nat ∧
    c = (if k is O then r else wrap32 (r + Z.of_nat k)) ∧
    (p ^ Z.of_nat k | h) ∧ ¬ (p ^ (Z.of_nat k + 1) | h).
Proof.
  induction fuel as [|fuel IH]; intros h p r c Hp Hrun; [discriminate|].
  simpl in Hrun. rewrite containsHash_Done in Hrun by lia. simpl in Hrun.
  destruct (Z.eqb_spec (Z.rem h p) 0) as [Hrem|Hrem].
  - rewrite bignum_div_Done in Hrun by lia. simpl in Hrun.
    destruct (IH _ _ _ _ Hp Hrun) as (k & Hk & -> & Hdiv & Hndiv).
    pose proof (Z.quot_rem' h p) as Heq. rewrite Hrem, Z.add_0_r in Heq.
    exists (S k). split; [lia|]. revert Hdiv Hndiv Heq.
    generalize (Z.quot h p). intros q Hdiv Hndiv ->. split; [|split].
    + destruct k; [done|]. rewrite wrap32_add_l. f_equal. lia.
    + rewrite Nat2Z.inj_succ, Z.pow_succ_r by lia.
      by apply Z.mul_divide_mono_l.
    + rewrite Nat2Z.inj_succ.
      replace (Z.succ (Z.of_nat k) + 1) with (Z.succ (Z.of_nat k + 1)) by lia.
      rewrite Z.pow_succ_r by lia.
      intros Hd. apply Hndiv. by apply Z.mul_divide_cancel_l in Hd; [|lia].
  - injection Hrun as <-. exists 0%nat. split; [lia|]. split; [done|].
    split; [apply Z.divide_1_l|].
    simpl. rewrite Z.pow_1_r. intros Hd. apply Hrem.
    by apply Z.rem_divide; [lia|].
Qed.

(** The loop of [count] on a hash that holds the prime exactly [k]
    times. *)
Lemma count_loop_exact (k : nat) : ∀ fuel h p r,
  2 ≤ p → (p ^ Z.of_nat k | h) → ¬ (p ^ (Z.of_nat k + 1) | h) →
  (k < fuel)%nat →
  count_loop fuel h p r
  = Done (if k is O then r else wrap32 (r + Z.of_nat k)).
Proof.
  induction k as [|k IH]; intros fuel h p r Hp Hdiv Hndiv Hfuel;
    (destruct fuel as [|fuel]; [lia|]); simpl;
    rewrite containsHash_Done by lia; simpl.
  - rewrite (proj2 (Z.eqb_neq (Z.rem h p) 0)); [done|].
    intros Hrem. apply Hndiv. simpl. rewrite Z.pow_1_r.
    by apply Z.rem_divide; [lia|].
  - change (Z.pos (Pos.of_succ_nat k)) with (Z.of_nat (S k)) in *.
    rewrite Nat2Z.inj_succ in *. rewrite Z.pow_succ_r in Hdiv by lia.
    destruct Hdiv as [q' Hq'].
    assert (Hh : h = q' * p ^ Z.of_nat k * p) by lia. clear Hq'. subst h.
    rewrite Z.rem_mul by lia. simpl.
    rewrite bignum_div_Done by lia. simpl. rewrite Z.quot_mul by lia.
    rewrite (IH fuel _ p (wrap32 (r + 1)) Hp); [| | |lia].
    + destruct k; [done|]. rewrite wrap32_add_l. do 2 f_equal. lia.
    + by apply Z.divide_factor_r.
    + intros Hd. apply Hndiv.
      replace (Z.succ (Z.of_nat k) + 1) with (Z.succ (Z.of_nat k + 1)) by lia.
      rewrite Z.pow_succ_r by lia. rewrite (Z.mul_comm p).
      by apply Z.mul_divide_mono_r.
Qed.

(** The multiplicity of a prime in a product. *)
Lemma multiplicity_mul p (k1 k2 : nat) h1 h2 :
  prime p →
  (p ^ Z.of_nat k1 | h1) → ¬ (p ^ (Z.of_nat k1 + 1) | h1) →
  (p ^ Z.of_nat k2 | h2) → ¬ (p ^ (Z.of_nat k2 + 1) | h2) →
  (p ^ Z.of_nat (k1 + k2) | h1 * h2) ∧
  ¬ (p ^ (Z.of_nat (k1 + k2) + 1) | h1 * h2).
Proof.
  intros Hp [a Ha] Hn1 [c Hc] Hn2. subst h1 h2.
  pose proof (prime_ge_2 p Hp) as Hp2.
  assert (Hna : ¬ (p | a)).
  { intros [a' ->]. apply Hn1. rewrite Z.pow_add_r, Z.pow_1_r by lia.
    exists a'. ring. }
  assert (Hnc : ¬ (p | c)).
  { intros [c' ->]. apply Hn2. rewrite Z.pow_add_r, Z.pow_1_r by lia.
    exists c'. ring. }
  rewrite Nat2Z.inj_add. split.
  - exists (a * c). rewrite Z.pow_add_r by lia. ring.
  - rewrite !Z.pow_add_r, Z.pow_1_r by lia.
    replace (a * p ^ Z.of_nat k1 * (c * p ^ Z.of_nat k2))
      with (p ^ Z.of_nat k1 * p ^ Z.of_nat k2 * (a * c)) by ring.
    intros Hd. apply Z.mul_divide_cancel_l in Hd.
    2:{ pose proof (Z.pow_pos_nonneg p (Z.of_nat k1) ltac:(lia) ltac:(lia)).
        pose proof (Z.pow_pos_nonneg p (Z.of_nat k2) ltac:(lia) ltac:(lia)).
        nia. }
    apply prime_mult in Hd as [?|?]; done.
Qed.

Lemma wrap32_multiplicity (k : nat) :
  (if k is O then 0 else wrap32 (0 + Z.of_nat k)) = wrap32 (Z.of_nat k).
Proof. by destruct k. Qed.

(** X21.  The union adds the counts.  For two bags of one registry, on
    which [clear] was never called with a hole in the pool, and a value
    the registry knows: after [add] of the second bag to the first, the
    size of the first is the sum of the sizes and [count] of the value is
    the sum of what [count] returned for the two bags, both in 32 bits.
    The second bag may be the first. *)
Theorem union_adds_counts {V : Type} `{Countable V} (w : world V)
    (this other : ptr) (value : V) b o t (fuel1 fuel2 : nat) (c1 c2 : Z) :
  bags w !! this = Some b → bags w !! other = Some o →
  Bag.globalTable o = Bag.globalTable b →
  tables w !! Bag.globalTable b = Some t → table_sound_reachable t →
  PrimeTable_getPrime value t ≠ 0 →
  PrimeBag_count fuel1 this value w = Done c1 →
  PrimeBag_count fuel2 other value w = Done c2 →
  ∃ w', PrimeBag_add_bag this other w = Done w' ∧
        PrimeBag_size this w' = Done (wrap32 (Bag.length b + Bag.length o)) ∧
        PrimeBag_count (fuel1 + fuel2) this value w'
        = Done (wrap32 (c1 + c2)).
Proof.
  intros Hb Ho Hgt Ht Hs Hne Hc1 Hc2.
  apply table_sound_reachable_sound in Hs.
  destruct (getPrime_nonzero value t (sound_inv t Hs) Hne) as (Hm & Hp2 & _).
  assert (Hprime : prime (PrimeTable_getPrime value t)).
  { apply (sound_inverse t Hs) in Hm.
    destruct (sound_index t Hs _ (or_intror (mk_is_Some _ _ Hm)))
      as (i & _ & Hnth & _).
    by apply is_prime_iff_prime. }
  unfold PrimeBag_count in Hc1, Hc2.
  rewrite (load_Some _ _ _ Hb) in Hc1. rewrite (load_Some _ _ _ Ho) in Hc2.
  simpl in Hc1, Hc2. rewrite Hgt in Hc2.
  rewrite (load_Some _ _ _ Ht) in Hc1, Hc2. simpl in Hc1, Hc2.
  rewrite (proj2 (Z.eqb_neq _ _) Hne) in Hc1, Hc2. simpl in Hc1, Hc2.
  apply (count_loop_inv _ _ _ _ _ Hp2) in Hc1 as (k1 & Hk1 & -> & Hd1 & Hn1).
  apply (count_loop_inv _ _ _ _ _ Hp2) in Hc2 as (k2 & Hk2 & -> & Hd2 & Hn2).
  rewrite !wrap32_multiplicity.
  destruct (multiplicity_mul _ k1 k2 _ _ Hprime Hd1 Hn1 Hd2 Hn2)
    as [Hd Hn].
  rewrite (PrimeBag_add_bag_spec this other w b o Hb Ho).
  rewrite decide_True by done. eexists. split; [done|].
  unfold PrimeBag_size, PrimeBag_count, load. simpl.
  rewrite lookup_insert_eq. simpl. split; [done|]. rewrite Ht. simpl.
  rewrite (proj2 (Z.eqb_neq _ _) Hne). simpl.
  rewrite (count_loop_exact (k1 + k2) _ _ _ 0 Hp2 Hd Hn) by lia.
  rewrite wrap32_multiplicity. f_equal.
  unfold wrap32. rewrite <- Z.add_mod by done. f_equal. lia.
Qed.

Lemma union_adds_counts_witness :
  bags two_bag_world !! 2%positive = Some (Bag.mk 1 2 1) ∧
  bags two_bag_world !! 3%positive = Some (Bag.mk 1 3 1) ∧
  Bag.globalTable (Bag.mk 1 3 1) = Bag.globalTable (Bag.mk 1 2 1) ∧
  tables two_bag_world !! Bag.globalTable (Bag.mk 1 2 1) = Some ab_table ∧
  table_sound_reachable ab_table ∧
  PrimeTable_getPrime "b"%string ab_table ≠ 0 ∧
  PrimeBag_count 2 2 "b"%string two_bag_world = Done 0 ∧
  PrimeBag_count 2 3 "b"%string two_bag_world = Done 1 ∧
  ∃ w', PrimeBag_add_bag 2 3 two_bag_world = Done w' ∧
        PrimeBag_size 2 w'
        = Done (wrap32 (Bag.length (Bag.mk 1 2 1)
                        + Bag.length (Bag.mk 1 3 1))) ∧
        PrimeBag_count (2 + 2) 2 "b"%string w' = Done (wrap32 (0 + 1)).
Proof.
  assert (Hb : bags two_bag_world !! 2%positive = Some (Bag.mk 1 2 1))
    by reflexivity.
  assert (Ho : bags two_bag_world !! 3%positive = Some (Bag.mk 1 3 1))
    by reflexivity.
  assert (Hgt : Bag.globalTable (Bag.mk 1 3 1)
                = Bag.globalTable (Bag.mk 1 2 1)) by reflexivity.
  assert (Ht : tables two_bag_world !! Bag.globalTable (Bag.mk 1 2 1)
               = Some ab_table) by reflexivity.
  assert (Hne : PrimeTable_getPrime "b"%string ab_table ≠ 0)
    by (vm_compute; discriminate).
  assert (Hc1 : PrimeBag_count 2 2 "b"%string two_bag_world = Done 0)
    by (vm_compute; reflexivity).
  assert (Hc2 : PrimeBag_count 2 3 "b"%string two_bag_world = Done 1)
    by (vm_compute; reflexivity).
  split; [exact Hb|]. split; [exact Ho|]. split; [exact Hgt|].
  split; [exact Ht|]. split; [exact ab_table_sound_reachable|].
  split; [exact Hne|]. split; [exact Hc1|]. split; [exact Hc2|].
  exact (union_adds_counts two_bag_world 2 3 "b"%string (Bag.mk 1 2 1)
           (Bag.mk 1 3 1) ab_table 2 2 0 1 Hb Ho Hgt Ht
           ab_table_sound_reachable Hne Hc1 Hc2).
Defined.

(** ** Retreating a cursor *)

Section RetreatProofs.
Context {V : Type} `{Countable V}.
Context (w : world V) (this : ptr) (b : PrimeBag) (t : PrimeTable V).
Context (l : list V).
Hypothesis Hb : bags w !! this = Some b.
Hypothesis Ht : tables w !! Bag.globalTable b = Some t.
Hypothesis Hs : TableSound t.
Hypothesis Hl : Forall (λ v, PrimeTable_getPrime v t ≠ 0) l.
Hypothesis Hhash : Bag.hash b = encoding t l.
Hypothesis Hlen : Bag.length b = Z.of_nat (length l).
Hypothesis Hbound : Z.of_nat (length l) < 2 ^ 32.

Local Abbreviation ps := (getPrimeNumbers t).
Local Abbreviation gt := (Bag.globalTable b).

Lemma bag_values_calculated :
  Forall (λ v, PrimeTable_getPrime v t ∈ ps) l.
Proof.
  apply Forall_forall. intros v Hv.
  apply (proj1 (Forall_forall _ _) Hl) in Hv.
  destruct (getPrime_nonzero v t (sound_inv t Hs) Hv) as (Hm & _).
  apply (sound_inverse t Hs) in Hm.
  by eapply sound_assigned_calculated.
Qed.

Lemma encoding_pos l0 :
  Forall (λ v, PrimeTable_getPrime v t ∈ ps) l0 → 1 ≤ encoding t l0.
Proof.
  induction 1 as [|v l0 Hv _ IH]; [done|].
  rewrite encoding_head.
  pose proof (is_prime_ge_2 _ (calculated_prime t Hs _ Hv)). nia.
Qed.

(** The loop of [getPreviousPrimeFactor] walks down to the prime the
    cursor stood on. *)
Lemma previousFactor_loop_spec (d : nat) : ∀ fuel i prime hc len pi,
  ps !! (i + d)%nat = Some prime →
  (∀ k q, (i < k ≤ i + d)%nat → ps !! k = Some q →
          hc * q ≠ 0 ∧ Z.rem (Bag.hash b) (hc * q) ≠ 0) →
  ps !! i = Some pi → hc * pi ≠ 0 → Z.rem (Bag.hash b) (hc * pi) = 0 →
  (d < fuel)%nat →
  previousFactor_loop fuel w
    (mkIter this gt (Bag.mk gt hc len) (Z.of_nat (i + d)) false) prime
  = Done (pi, mkIter this gt (Bag.mk gt hc len) (Z.of_nat i) false).
Proof.
  pose proof (calculated_length t Hs) as Hpslen.
  induction d as [|d IH]; intros fuel i prime hc len pi Hj Hafter Hi Hne Hrem
    Hfuel; (destruct fuel as [|fuel]; [lia|]); cbn [previousFactor_loop];
    cbn [refPrimeBag primeBagCopy Bag.hash];
    rewrite (load_Some _ _ _ Hb); cbn [mbind outcome_bind].
  - rewrite Nat.add_0_r in *. replace prime with pi by congruence.
    rewrite containsHash_Done by done. by rewrite Hrem.
  - destruct (Hafter (i + S d)%nat prime ltac:(lia) Hj) as [Hq0 Hqrem].
    rewrite containsHash_Done by done.
    rewrite (proj2 (Z.eqb_neq _ _) Hqrem). cbn [mbind outcome_bind].
    pose proof (lookup_lt_Some _ _ _ Hj) as Hlt.
    destruct (lookup_lt_is_Some_2 ps (i + d) ltac:(lia)) as [q Hq].
    unfold set_index. cbn [refPrimeBag primeTable primeBagCopy primeIndex end_].
    rewrite wrap32_small by blia.
    replace (Z.of_nat (i + S d) - 1) with (Z.of_nat (i + d)) by lia.
    assert (Hget : getPrimeAtTableIndex w
              (mkIter this gt (Bag.mk gt hc len) (Z.of_nat (i + d)) false)
            = Done q).
    { unfold getPrimeAtTableIndex. cbn [primeTable primeIndex].
      rewrite (load_Some _ _ _ Ht). cbn [mbind outcome_bind].
      by rewrite Nat2Z.id, Hq. }
    rewrite Hget. cbn [mbind outcome_bind].
    apply (IH fuel i q hc len pi Hq); [|done|done|done|lia].
    intros k q' Hk Hq'. apply (Hafter k q'); [lia|done].
Qed.

(** [operator++] of the cursor on [v] followed by [operator--]. *)
Lemma iter_decr_after_incr fuel i v seen rest :
  cursor_state t l i v seen rest →
  (2 ≤ length l)%nat → (length ps < fuel)%nat →
  ∃ it', iter_incr fuel w (cursor_on this gt t i rest) = Done it' ∧
         iter_decr fuel w it' = Done (cursor_on this gt t i rest).
Proof.
  intros (Hperm & Hi & Hseen & Hrest) Hl2 Hfuel.
  pose proof bag_values_calculated as Hin.
  pose proof (calculated_sorted t Hs) as Hso.
  assert (Hlenl : length l = (length seen + S (length rest))%nat).
  { by rewrite Hperm, length_app. }
  assert (Hin_rest : Forall (λ x, PrimeTable_getPrime x t ∈ ps) rest).
  { apply Forall_forall. intros x Hx.
    apply (proj1 (Forall_forall _ _) Hin). rewrite Hperm.
    apply elem_of_app. right. by right. }
  assert (Hin_seen : Forall (λ x, PrimeTable_getPrime x t ∈ ps) (v :: seen)).
  { apply Forall_forall. intros x Hx.
    apply (proj1 (Forall_forall _ _) Hin). rewrite Hperm.
    apply elem_of_app. apply elem_of_cons in Hx as [->|Hx];
      [right; by left|by left]. }
  pose proof (encoding_pos rest Hin_rest) as Hrest_pos.
  pose proof (is_prime_ge_2 _
                (calculated_prime t Hs _ (list_elem_of_lookup_2 _ _ _ Hi)))
    as Hv2.
  assert (Hfactor : Bag.hash b
                    = encoding t rest * encoding t (v :: seen)).
  { rewrite Hhash, (encoding_perm t _ _ Hperm), encoding_app.
    rewrite !encoding_head. ring. }
  (* the walk of [getPreviousPrimeFactor] from index [j] down to [i] *)
  assert (Hwalk : ∀ j pj len, (i ≤ j)%nat → ps !! j = Some pj →
            previousFactor_loop fuel w
              (mkIter this gt (Bag.mk gt (encoding t rest) len)
                 (Z.of_nat j) false) pj
            = Done (PrimeTable_getPrime v t,
                    mkIter this gt (Bag.mk gt (encoding t rest) len)
                      (Z.of_nat i) false)).
  { intros j pj len Hij Hj.
    replace j with (i + (j - i))%nat in * by lia.
    apply (previousFactor_loop_spec (j - i) fuel i pj _ len _ Hj);
      [|done|nia| |].
    - intros k q Hk Hq.
      pose proof (calculated_prime t Hs q (list_elem_of_lookup_2 _ _ _ Hq))
        as Hqp.
      pose proof (is_prime_ge_2 q Hqp).
      split; [nia|]. intros Hrem.
      apply Z.rem_divide in Hrem; [|nia]. rewrite Hfactor in Hrem.
      apply Z.mul_divide_cancel_l in Hrem; [|lia]. revert Hrem.
      apply prime_not_divide_encoding; [by apply is_prime_iff_prime|].
      apply Forall_forall. intros x Hx.
      pose proof (proj1 (Forall_forall _ _) Hin_seen x Hx) as Hpx.
      split; [by apply is_prime_iff_prime, (calculated_prime t Hs)|].
      pose proof (StronglySorted_lookup_lt ps i k _ _ Hso Hi Hq ltac:(lia)).
      apply elem_of_cons in Hx as [->|Hx]; [lia|].
      specialize (Hseen x Hx). lia.
    - rewrite Hfactor, encoding_head.
      replace (encoding t rest * (encoding t seen * PrimeTable_getPrime v t))
        with (encoding t seen * (encoding t rest * PrimeTable_getPrime v t))
        by ring.
      apply Z.rem_mul. nia.
    - pose proof (lookup_lt_Some _ _ _ Hj). lia. }
  destruct (decide (rest = [])) as [->|Hne].
  - (* the cursor stands on the last value *)
    eexists. split.
    { unfold iter_incr, cursor_on. simpl. done. }
    unfold iter_decr, getPrimeAtTableIndex, set_end.
    cbn [refPrimeBag primeTable primeBagCopy primeIndex end_ cursor_on
         Bag.length Bag.hash Bag.globalTable length].
    rewrite (load_Some _ _ _ Ht), (load_Some _ _ _ Hb).
    cbn [mbind outcome_bind]. rewrite Nat2Z.id, Hi. cbn [mbind outcome_bind].
    rewrite Hlen, wrap32_small by lia.
    rewrite (proj2 (Z.ltb_lt _ _)) by (simpl; lia).
    unfold getPreviousPrimeFactor, getPrimeAtTableIndex.
    cbn [refPrimeBag primeTable primeBagCopy primeIndex end_].
    rewrite (load_Some _ _ _ Ht). cbn [mbind outcome_bind].
    rewrite Nat2Z.id, Hi.
    cbn [mbind outcome_bind].
    change (encoding t []) with 1 in Hwalk.
    by rewrite (Hwalk i _ (Z.of_nat 0) ltac:(lia) Hi).
  - destruct (iter_incr_cursor w this b t Ht Hs fuel i _ rest Hne Hin_rest
                Hi Hrest ltac:(lia) Hfuel)
      as (j & v' & rest' & Hperm' & Hj & Hmin & Hincr).
    exists (cursor_on this gt t j rest'). split; [done|].
    assert (Hv' : v' ∈ rest) by (rewrite Hperm'; by left).
    assert (Hij : (i ≤ j)%nat).
    { destruct (le_lt_dec i j) as [|Hlt]; [done|].
      pose proof (StronglySorted_lookup_lt ps j i _ _ Hso Hj Hi Hlt).
      specialize (Hrest v' Hv'). lia. }
    assert (Hlenr : length rest = S (length rest')) by (by rewrite Hperm').
    assert (Henc : encoding t rest
                   = encoding t rest' * PrimeTable_getPrime v' t).
    { by rewrite (encoding_perm t _ _ Hperm'), encoding_head. }
    unfold iter_decr, getPrimeAtTableIndex, set_copy.
    cbn [refPrimeBag primeTable primeBagCopy primeIndex end_ cursor_on
         Bag.length Bag.hash Bag.globalTable].
    rewrite (load_Some _ _ _ Ht), (load_Some _ _ _ Hb).
    cbn [mbind outcome_bind]. rewrite Nat2Z.id, Hj. cbn [mbind outcome_bind].
    rewrite Hlen, wrap32_small by lia.
    rewrite (proj2 (Z.ltb_lt _ _)) by lia.
    unfold getPreviousPrimeFactor, getPrimeAtTableIndex.
    cbn [refPrimeBag primeTable primeBagCopy primeIndex end_].
    rewrite (load_Some _ _ _ Ht). cbn [mbind outcome_bind].
    rewrite Nat2Z.id, Hj. cbn [mbind outcome_bind].
    rewrite <- Henc. rewrite (Hwalk j _ _ Hij Hj). cbn [mbind outcome_bind].
    rewrite wrap32_small by lia.
    unfold cursor_on. do 3 f_equal. lia.
Qed.

(** The cursor after [begin()] and [k] times [operator++]. *)
Lemma iter_incr_n_state fuel : ∀ k i v seen rest,
  cursor_state t l i v seen rest →
  (k ≤ length rest)%nat → (length ps < fuel)%nat →
  ∃ i' v' seen' rest',
    iter_incr_n fuel w k (cursor_on this gt t i rest)
    = Done (cursor_on this gt t i' rest') ∧
    cursor_state t l i' v' seen' rest'.
Proof.
  intros k. induction k as [|k IH]; intros i v seen rest Hst Hk Hfuel.
  { by exists i, v, seen, rest. }
  destruct Hst as (Hperm & Hi & Hseen & Hrest).
  pose proof bag_values_calculated as Hin.
  assert (Hlenl : length l = (length seen + S (length rest))%nat).
  { by rewrite Hperm, length_app. }
  assert (Hin_rest : Forall (λ x, PrimeTable_getPrime x t ∈ ps) rest).
  { apply Forall_forall. intros x Hx.
    apply (proj1 (Forall_forall _ _) Hin). rewrite Hperm.
    apply elem_of_app. right. by right. }
  assert (Hne : rest ≠ []) by (destruct rest; [simpl in Hk; lia|done]).
  destruct (iter_incr_cursor w this b t Ht Hs fuel i _ rest Hne Hin_rest
              Hi Hrest ltac:(lia) Hfuel)
    as (j & v' & rest' & Hperm' & Hj & Hmin & Hincr).
  assert (Hv' : v' ∈ rest) by (rewrite Hperm'; by left).
  assert (Hlenr : length rest = S (length rest')) by (by rewrite Hperm').
  destruct (IH j v' (seen ++ [v]) rest') as (i' & v'' & seen' & rest'' & Hrun & Hst');
    [|lia|done|].
  { split; [|split; [done|split; [|done]]].
    - rewrite Hperm, Hperm', <- app_assoc. done.
    - intros x Hx. apply elem_of_app in Hx as [Hx|Hx].
      + specialize (Hseen x Hx). specialize (Hrest v' Hv'). lia.
      + apply list_elem_of_singleton in Hx as ->. by apply Hrest. }
  exists i', v'', seen', rest''. split; [|done].
  cbn [iter_incr_n]. by rewrite Hincr.
Qed.

Lemma begin_state fuel :
  l ≠ [] → (length ps < fuel)%nat →
  ∃ i v rest,
    PrimeBag_begin fuel this w = Done (cursor_on this gt t i rest) ∧
    cursor_state t l i v [] rest.
Proof.
  intros Hne Hfuel. pose proof bag_values_calculated as Hin.
  assert (Hpos : (0 < length l)%nat) by (destruct l; [done|simpl; lia]).
  destruct (lookup_lt_is_Some_2 ps 0) as [p0 Hp0].
  { destruct l as [|v l0]; [done|]. apply Forall_cons in Hin as [Hv _].
    destruct ps; [by apply not_elem_of_nil in Hv|simpl; lia]. }
  destruct (iter_incr_cursor w this b t Ht Hs fuel 0 p0 l Hne Hin Hp0)
    as (j & v & rest & Hperm & Hj & Hmin & Hincr); [|done|done|].
  { intros x Hx. apply (proj1 (Forall_forall _ _) Hin) in Hx.
    apply list_elem_of_lookup in Hx as [k Hk].
    destruct k as [|k]; [replace p0 with (PrimeTable_getPrime x t)
                           by congruence; lia|].
    pose proof (StronglySorted_lookup_lt ps 0 (S k) _ _
                  (calculated_sorted t Hs) Hp0 Hk ltac:(lia)). lia. }
  exists j, v, rest. split.
  - unfold PrimeBag_begin, PrimeBagIterator_new. rewrite (load_Some _ _ _ Hb).
    cbn [mbind outcome_bind]. rewrite Hlen.
    rewrite (proj2 (Z.eqb_neq (Z.of_nat (length l)) 0)) by lia.
    cbn [orb end_]. rewrite <- Hincr. f_equal.
    unfold cursor_on. destruct b as [g h len]. simpl in *. by subst.
  - split; [done|]. split; [done|]. split; [|done].
    intros x Hx. by apply not_elem_of_nil in Hx.
Qed.

End RetreatProofs.

(** X22.  [operator--] undoes [operator++].  Under the conditions of X19,
    in a bag of at least two values, take the cursor [begin()] advanced
    [k] times, [k] below the size of the bag, so that it stands on a
    value: [operator++] followed by [operator--] returns to this cursor,
    and the cursor is not [end()]. *)
Theorem retreat_undoes_advance {V : Type} `{Countable V} (w : world V)
    (this : ptr) b t (l : list V) (k fuel : nat) :
  bags w !! this = Some b → tables w !! Bag.globalTable b = Some t →
  table_sound_reachable t →
  Forall (λ v, PrimeTable_getPrime v t ≠ 0) l →
  Bag.hash b = encoding t l → Bag.length b = Z.of_nat (length l) →
  Z.of_nat (length l) < 2 ^ 32 →
  (2 ≤ length l)%nat → (k < length l)%nat →
  (length (getPrimeNumbers t) < fuel)%nat →
  ∃ it0 it it',
    PrimeBag_begin fuel this w = Done it0 ∧
    iter_incr_n fuel w k it0 = Done it ∧ end_ it = false ∧
    iter_incr fuel w it = Done it' ∧
    iter_decr fuel w it' = Done it.
Proof.
  intros Hb Ht Hs Hl Hhash Hlen Hbound Hl2 Hk Hfuel.
  apply table_sound_reachable_sound in Hs.
  destruct (begin_state w this b t l Hb Ht Hs Hl Hhash Hlen Hbound fuel)
    as (i & v & rest & Hbegin & Hst); [intros ->; simpl in Hl2; lia|done|].
  assert (Hrest : length l = S (length rest)).
  { destruct Hst as (Hperm & _). by rewrite Hperm. }
  destruct (iter_incr_n_state w this b t l Ht Hs Hl Hbound fuel k i v []
              rest Hst ltac:(lia) Hfuel)
    as (i' & v' & seen' & rest' & Hrun & Hst').
  destruct (iter_decr_after_incr w this b t l Hb Ht Hs Hl Hhash Hlen Hbound
              fuel i' v' seen' rest' Hst' Hl2 Hfuel) as (it' & Hincr & Hdecr).
  by eauto 10.
Qed.

Lemma retreat_undoes_advance_witness :
  bags aab_world !! 2%positive = Some (Bag.mk 1 12 3) ∧
  tables aab_world !! Bag.globalTable (Bag.mk 1 12 3) = Some abc_table ∧
  table_sound_reachable abc_table ∧
  Forall (λ v, PrimeTable_getPrime v abc_table ≠ 0) ["a"; "b"; "a"]%string ∧
  Bag.hash (Bag.mk 1 12 3) = encoding abc_table ["a"; "b"; "a"]%string ∧
  Bag.length (Bag.mk 1 12 3) = Z.of_nat (length ["a"; "b"; "a"]%string) ∧
  Z.of_nat (length ["a"; "b"; "a"]%string) < 2 ^ 32 ∧
  (2 ≤ length ["a"; "b"; "a"]%string)%nat ∧
  (2 < length ["a"; "b"; "a"]%string)%nat ∧
  (length (getPrimeNumbers abc_table) < 5)%nat ∧
  ∃ it0 it it',
    PrimeBag_begin 5 2 aab_world = Done it0 ∧
    iter_incr_n 5 aab_world 2 it0 = Done it ∧ end_ it = false ∧
    iter_incr 5 aab_world it = Done it' ∧
    iter_decr 5 aab_world it' = Done it.
Proof.
  assert (Hb : bags aab_world !! 2%positive = Some (Bag.mk 1 12 3))
    by reflexivity.
  assert (Ht : tables aab_world !! Bag.globalTable (Bag.mk 1 12 3)
               = Some abc_table) by reflexivity.
  assert (Hl : Forall (λ v, PrimeTable_getPrime v abc_table ≠ 0)
                 ["a"; "b"; "a"]%string).
  { repeat constructor; vm_compute; discriminate. }
  assert (Hh : Bag.hash (Bag.mk 1 12 3)
               = encoding abc_table ["a"; "b"; "a"]%string) by reflexivity.
  assert (Hlen : Bag.length (Bag.mk 1 12 3)
                 = Z.of_nat (length ["a"; "b"; "a"]%string)) by reflexivity.
  assert (Hbound : Z.of_nat (length ["a"; "b"; "a"]%string) < 2 ^ 32)
    by reflexivity.
  assert (Hl2 : (2 ≤ length ["a"; "b"; "a"]%string)%nat) by (vm_compute; lia).
  assert (Hk : (2 < length ["a"; "b"; "a"]%string)%nat) by (vm_compute; lia).
  assert (Hfuel : (length (getPrimeNumbers abc_table) < 5)%nat)
    by (vm_compute; lia).
  split; [exact Hb|]. split; [exact Ht|].
  split; [exact abc_table_sound_reachable|]. split; [exact Hl|].
  split; [exact Hh|]. split; [exact Hlen|]. split; [exact Hbound|].
  split; [exact Hl2|]. split; [exact Hk|]. split; [exact Hfuel|].
  exact (retreat_undoes_advance aab_world 2 (Bag.mk 1 12 3) abc_table
           ["a"; "b"; "a"]%string 2 5 Hb Ht abc_table_sound_reachable Hl Hh
           Hlen Hbound Hl2 Hk Hfuel).
Defined.

(** ** The round trip of [add] and [remove] at the limit of the registry *)


